(** * Particle-Analysis: matrix wrappers and finite-difference Jacobians

    A shallow embedding of [src/matrix_wrappers.cu] (namespaces [matrix]
    and [fit]): the host wrappers around cuBLAS, the tiled transpose
    kernel, the element-wise model kernels and the two Jacobian
    estimators.

    - single and double precision numbers are [spec_float] values with
      the IEEE-754 operations of the Standard Library's [SpecFloat]
      (binary32: precision 24, emax 128; binary64: precision 53, emax
      1024);
    - device and host memory is one store of blocks of cells; a cell that
      was never written holds no value and reading it is an error;
    - host code runs in a state-and-error monad; a kernel launch runs its
      threads one after the other, block by block, with the barrier of
      the transpose kernel as the boundary between two passes over the
      threads of a block;
    - host arithmetic is rounded operation by operation; in device code
      a product that feeds a sum is contracted with it into one fused
      multiply-add, as nvcc does by default; [expf] is a parameter of
      the two models that call it;
    - [svd], a wrapper around the singular value decomposition of
      cuSOLVER, is not modelled. *)

From Stdlib Require Import ZArith Lia Bool List.
From Stdlib Require Import Floats.SpecFloat.
From stdpp Require Import base option list gmap.

Local Open Scope Z_scope.

(** ** Floating point *)

Abbreviation float := spec_float (only parsing).
Abbreviation double := spec_float (only parsing).

Definition prec32 : Z := 24.
Definition emax32 : Z := 128.
Definition prec64 : Z := 53.
Definition emax64 : Z := 1024.

Definition fadd : float -> float -> float := SFadd prec32 emax32.
Definition fsub : float -> float -> float := SFsub prec32 emax32.
Definition fmul : float -> float -> float := SFmul prec32 emax32.
Definition dmul : double -> double -> double := SFmul prec64 emax64.
Definition ddiv : double -> double -> double := SFdiv prec64 emax64.
Definition dlt : double -> double -> bool := SFltb.

(** [x * y + z] as device code computes it: nvcc contracts a product that
    feeds a sum into one fused multiply-add (its default, [--fmad=true]),
    the exact product added to [z] and the sum rounded once.  A product
    that is a zero, an infinity or NaN is exact as [fmul] gives it. *)
Definition ffma (x y z : float) : float :=
  match x, y with
  | S754_finite sx mx ex, S754_finite sy my ey =>
      match z with
      | S754_zero _ => fmul x y
      | _ => SFadd prec32 emax32 (S754_finite (xorb sx sy) (mx * my) (ex + ey)) z
      end
  | _, _ => fadd (fmul x y) z
  end.

(** A binary32 value as the C compiler sees it. *)
Definition valid32 (x : float) : Prop := valid_binary prec32 emax32 x = true.
Definition valid64 (x : double) : Prop := valid_binary prec64 emax64 x = true.

(** [(double) x], [(float) d] and [(float) i]: conversions round to the
    target format (to nearest, ties to even); zeros, infinities and NaN
    keep their kind and sign. *)
Definition to_double (x : float) : double :=
  match x with
  | S754_finite s m e => binary_round prec64 emax64 s m e
  | _ => x
  end.

Definition to_float (d : double) : float :=
  match d with
  | S754_finite s m e => binary_round prec32 emax32 s m e
  | _ => d
  end.

Definition of_int (i : Z) : float := binary_normalize prec32 emax32 i 0 false.

(** [pow(2, k)] of the C library, exact for the exponents used here. *)
Definition pow2 (k : Z) : double := binary_round prec64 emax64 false 1 k.

(** A decimal literal [m e e10] of type double: the double nearest to
    [m * 10^e10]. *)
Definition dec_lit (m : positive) (e10 : Z) : double :=
  match e10 with
  | Z0 => binary_round prec64 emax64 false m 0
  | Zpos p => binary_round prec64 emax64 false (m * Pos.pow 10 p) 0
  | Zneg p => SFdiv prec64 emax64 (S754_finite false m 0)
                (S754_finite false (Pos.pow 10 p) 0)
  end.

Definition fzero : float := S754_zero false.
Global Instance float_inhabited : Inhabited float := populate fzero.
Global Instance float_eq_dec : EqDecision float.
Proof. solve_decision. Defined.
Definition fone : float := of_int 1.
Definition done_ : double := pow2 0.

Definition is_nan (x : float) : bool :=
  match x with S754_nan => true | _ => false end.
Definition is_inf (x : float) : bool :=
  match x with S754_infinity _ => true | _ => false end.
Definition is_zero (x : float) : bool :=
  match x with S754_zero _ => true | _ => false end.
Definition sign_of (x : float) : option bool :=
  match x with
  | S754_zero s | S754_infinity s | S754_finite s _ _ => Some s
  | S754_nan => None
  end.

(** ** Memory *)

(** A cell holds a value once it has been written. *)
Abbreviation cell := (option spec_float) (only parsing).

Record ptr := Ptr { p_blk : nat; p_off : Z }.

Global Instance ptr_eq_dec : EqDecision ptr.
Proof. solve_decision. Defined.

(** [&p[k]] *)
Definition ptr_add (p : ptr) (k : Z) : ptr := Ptr (p_blk p) (p_off p + k).

(** The store of live blocks, and the record of the parameter vectors the
    model evaluator was called with (kept for counting the calls). *)
Record state := State {
  mem : gmap nat (list cell);
  calls : list (list cell)
}.

Definition set_mem (m : gmap nat (list cell)) (s : state) : state :=
  State m (calls s).

(** 32-bit integers: [int] values stay in range (overflow is undefined),
    [unsigned int] arithmetic wraps. *)
Definition INT_MAX : Z := 2147483647.
Definition int_ok (z : Z) : Prop := - INT_MAX - 1 <= z <= INT_MAX.
Global Instance int_ok_dec z : Decision (int_ok z).
Proof. unfold int_ok. apply _. Defined.
Definition u32 (z : Z) : Z := z mod 4294967296.

(** ** The state-and-error monad of host and device code *)

Definition Comp (A : Type) : Type := state -> option (A * state).

Definition ret {A} (a : A) : Comp A := fun s => Some (a, s).
Definition fail {A} : Comp A := fun _ => None.
Definition bind {A B} (c : Comp A) (k : A -> Comp B) : Comp B :=
  fun s => match c s with
           | Some (a, s') => k a s'
           | None => None
           end.

Notation "'let*' x := c1 'in' c2" := (bind c1 (fun x => c2))
  (at level 10, x name, c1 at level 100, c2 at level 200).
Notation "c1 ;; c2" := (bind c1 (fun _ => c2))
  (at level 100, c2 at level 200, right associativity).

(** [assert(c)], and the check that an [int] expression did not overflow. *)
Definition assert (P : Prop) `{Decision P} : Comp unit :=
  if decide P then ret tt else fail.

Definition get_mem : Comp (gmap nat (list cell)) := fun s => Some (mem s, s).
Definition put_mem (m : gmap nat (list cell)) : Comp unit :=
  fun s => Some (tt, set_mem m s).

(** Loops: [forM l body] runs [body] on the elements of [l] in order,
    [foldM] also threads an accumulator; [for (i = 0; i < n; i++) body(i)]
    is [for_range n body]. *)
Fixpoint foldM {A S} (f : A -> S -> Comp S) (l : list A) (acc : S) : Comp S :=
  match l with
  | [] => ret acc
  | a :: l' => let* acc' := f a acc in foldM f l' acc'
  end.

Definition forM {A} (l : list A) (body : A -> Comp unit) : Comp unit :=
  foldM (fun a _ => body a) l tt.

Definition for_range (n : Z) (body : Z -> Comp unit) : Comp unit :=
  forM (seqZ 0 n) body.

(** *** Cells *)

Definition block_load (b : list cell) (k : Z) : option float :=
  if decide (0 <= k) then mjoin (b !! Z.to_nat k) else None.

Definition block_store (b : list cell) (k : Z) (v : float) : option (list cell) :=
  if decide (0 <= k < Z.of_nat (length b))
  then Some (<[Z.to_nat k := Some v]> b) else None.

(** [p[i]] as an rvalue: the block is live, the index in range and the
    cell written before. *)
Definition load (p : ptr) (i : Z) : Comp float :=
  fun s => match mem s !! p_blk p with
           | Some b => match block_load b (p_off p + i) with
                       | Some v => Some (v, s)
                       | None => None
                       end
           | None => None
           end.

(** [p[i] = v] *)
Definition store (p : ptr) (i : Z) (v : float) : Comp unit :=
  fun s => match mem s !! p_blk p with
           | Some b => match block_store b (p_off p + i) v with
                       | Some b' => Some (tt, set_mem (<[p_blk p := b']> (mem s)) s)
                       | None => None
                       end
           | None => None
           end.

(** *** Ranges of cells *)

(** The [n] values at [p[0..n-1]]; all must have been written. *)
Definition block_read_range (b : list cell) (k : Z) (n : Z) : option (list float) :=
  if decide (0 <= k /\ 0 <= n /\ k + n <= Z.of_nat (length b))
  then mapM id (take (Z.to_nat n) (drop (Z.to_nat k) b)) else None.

Definition block_write_range (b : list cell) (k : Z) (vs : list float)
  : option (list cell) :=
  if decide (0 <= k /\ k + Z.of_nat (length vs) <= Z.of_nat (length b))
  then Some (take (Z.to_nat k) b ++ (Some <$> vs)
               ++ drop (Z.to_nat k + length vs) b)
  else None.

Definition load_range (p : ptr) (n : Z) : Comp (list float) :=
  fun s => match mem s !! p_blk p with
           | Some b => match block_read_range b (p_off p) n with
                       | Some vs => Some (vs, s)
                       | None => None
                       end
           | None => None
           end.

Definition store_range (p : ptr) (vs : list float) : Comp unit :=
  fun s => match mem s !! p_blk p with
           | Some b => match block_write_range b (p_off p) vs with
                       | Some b' => Some (tt, set_mem (<[p_blk p := b']> (mem s)) s)
                       | None => None
                       end
           | None => None
           end.

(** ** The CUDA runtime and cuBLAS, as their documentation describes them *)

Inductive cudaError_t := cudaSuccess | cudaErrorInvalidValue | cudaErrorMemoryAllocation.
Inductive cublasStatus_t := CUBLAS_STATUS_SUCCESS | CUBLAS_STATUS_INVALID_VALUE.
Inductive cublasOperation_t := CUBLAS_OP_N | CUBLAS_OP_T.

Global Instance cudaError_eq_dec : EqDecision cudaError_t.
Proof. solve_decision. Defined.
Global Instance cublasStatus_eq_dec : EqDecision cublasStatus_t.
Proof. solve_decision. Defined.

(** Modelled from the spec: the error-check macro [gpuErrchk] of the
    missing header; a status other than success stops the program. *)
Definition gpuErrchk (c : cudaError_t) : Comp unit := assert (c = cudaSuccess).

(** [cudaMalloc(&p, n * sizeof(float))]: a fresh block of [n] cells, none
    of them written.  A negative [n] becomes a huge [size_t] and the
    allocation is refused. *)
Definition cudaMalloc (n : Z) : Comp (cudaError_t * ptr) :=
  fun s =>
    if decide (0 <= n) then
      let b := fresh (dom (mem s)) in
      Some ((cudaSuccess, Ptr b 0),
            set_mem (<[b := replicate (Z.to_nat n) None]> (mem s)) s)
    else Some ((cudaErrorMemoryAllocation, Ptr 0 0), s).

(** [cudaFree(p)] releases the block [p] is the start of. *)
Definition cudaFree (p : ptr) : Comp cudaError_t :=
  fun s =>
    if decide (p_off p = 0 /\ is_Some (mem s !! p_blk p))
    then Some (cudaSuccess, set_mem (delete (p_blk p) (mem s)) s)
    else Some (cudaErrorInvalidValue, s).

(** [cudaMemset(p, 0, n * sizeof(float))]: [n] floats of all-zero bytes,
    that is [+0.0]. *)
Definition cudaMemset0 (p : ptr) (n : Z) : Comp cudaError_t :=
  fun s =>
    match mem s !! p_blk p with
    | Some b =>
        if decide (0 <= n) then
          match block_write_range b (p_off p) (replicate (Z.to_nat n) fzero) with
          | Some b' => Some (cudaSuccess, set_mem (<[p_blk p := b']> (mem s)) s)
          | None => Some (cudaErrorInvalidValue, s)
          end
        else Some (cudaErrorInvalidValue, s)
    | None => Some (cudaErrorInvalidValue, s)
    end.

Definition cudaDeviceSynchronize : Comp cudaError_t := ret cudaSuccess.

(** Handles carry no state of interest. *)
Definition cublasCreate : Comp cublasStatus_t := ret CUBLAS_STATUS_SUCCESS.

(** The values [g 0, ..., g (n-1)] of a partial function, if all exist. *)
Definition tabulate {A} (n : Z) (g : Z -> option A) : option (list A) :=
  mapM (fun i => g (Z.of_nat i)) (seq 0 (Z.to_nat n)).

(** [mem[p + i]] in a given store. *)
Definition peek (m : gmap nat (list cell)) (p : ptr) (i : Z) : option float :=
  b ← m !! p_blk p; block_load b (p_off p + i).

(** Writes the columns [cols] at [p], [p + ld], [p + 2 ld], ... *)
Fixpoint store_columns (p : ptr) (ld : Z) (cols : list (list float)) : Comp unit :=
  match cols with
  | [] => ret tt
  | col :: rest => store_range p col ;; store_columns (ptr_add p ld) ld rest
  end.

(** [cublasSgemm]: [C = alpha op(A) op(B) + beta C] on column-major
    matrices with leading dimensions [lda], [ldb], [ldc]; [op(A)] is
    [m x k], [op(B)] is [k x n] and [C] is [m x n].  The dot products are
    summed in index order; [C] is not read when [beta] is zero. *)
Definition gemm_dot (a b : Z -> option float) (k : Z) : option float :=
  foldl (fun acc l => s ← acc; x ← a (Z.of_nat l); y ← b (Z.of_nat l);
                      Some (fadd s (fmul x y)))
        (Some fzero) (seq 0 (Z.to_nat k)).

Definition gemm_entry (m0 : gmap nat (list cell))
    (OA OB : cublasOperation_t) (k : Z) (alpha : float) (A : ptr) (lda : Z)
    (B : ptr) (ldb : Z) (beta : float) (C : ptr) (ldc : Z) (r c : Z)
  : option float :=
  let a l := match OA with
             | CUBLAS_OP_N => peek m0 A (l * lda + r)
             | CUBLAS_OP_T => peek m0 A (r * lda + l)
             end in
  let b l := match OB with
             | CUBLAS_OP_N => peek m0 B (c * ldb + l)
             | CUBLAS_OP_T => peek m0 B (l * ldb + c)
             end in
  d ← gemm_dot a b k;
  if is_zero beta then Some (fmul alpha d)
  else c0 ← peek m0 C (c * ldc + r); Some (fadd (fmul alpha d) (fmul beta c0)).

Definition cublasSgemm_v2 (OA OB : cublasOperation_t) (m n k : Z)
    (alpha : float) (A : ptr) (lda : Z) (B : ptr) (ldb : Z)
    (beta : float) (C : ptr) (ldc : Z) : Comp cublasStatus_t :=
  if decide (0 <= m /\ 0 <= n /\ 0 <= k
             /\ Z.max 1 (match OA with CUBLAS_OP_N => m | CUBLAS_OP_T => k end) <= lda
             /\ Z.max 1 (match OB with CUBLAS_OP_N => k | CUBLAS_OP_T => n end) <= ldb
             /\ Z.max 1 m <= ldc)
  then
    fun s =>
      match tabulate n (fun c => tabulate m (fun r =>
              gemm_entry (mem s) OA OB k alpha A lda B ldb beta C ldc r c)) with
      | Some cols => (store_columns C ldc cols ;; ret CUBLAS_STATUS_SUCCESS) s
      | None => None
      end
  else ret CUBLAS_STATUS_INVALID_VALUE.

(** [cublasSdgmm] with [CUBLAS_SIDE_LEFT]: [C = diag(x) A] for an
    [m x n] matrix [A]; [x] is read with stride [incx]. *)
Definition dgmm_entry (m0 : gmap nat (list cell)) (m : Z)
    (A : ptr) (lda : Z) (x : ptr) (incx : Z) (r c : Z) : option float :=
  d ← peek m0 x (if decide (0 <= incx) then r * incx else (r - (m - 1)) * incx);
  a ← peek m0 A (c * lda + r);
  Some (fmul d a).

Definition cublasSdgmm_left (m n : Z) (A : ptr) (lda : Z) (x : ptr) (incx : Z)
    (C : ptr) (ldc : Z) : Comp cublasStatus_t :=
  if decide (0 <= m /\ 0 <= n /\ Z.max 1 m <= lda /\ Z.max 1 m <= ldc)
  then
    fun s =>
      match tabulate n (fun c => tabulate m (fun r =>
              dgmm_entry (mem s) m A lda x incx r c)) with
      | Some cols => (store_columns C ldc cols ;; ret CUBLAS_STATUS_SUCCESS) s
      | None => None
      end
  else ret CUBLAS_STATUS_INVALID_VALUE.

(** ** Kernel launches *)

(** [kernel<<<nblocks, nthreads>>>(...)] on a one-dimensional grid: the
    kernel body receives [blockDim.x], [blockIdx.x] and [threadIdx.x]. *)
Definition launch1 (nblocks nthreads : Z) (kernel : Z -> Z -> Z -> Comp unit) : Comp unit :=
  for_range nblocks (fun b => for_range nthreads (fun t => kernel nthreads b t)).

(** [(int) u] for an [unsigned int] value. *)
Definition to_int (u : Z) : Z := if decide (u <= INT_MAX) then u else u - 4294967296.

(** ** namespace vector *)

Module vector.

(** Modelled from the spec: [vector::sub(a, b, out, len)] of the missing
    vector module, the element-wise [out[i] = a[i] - b[i]]. *)
Definition sub (a b out : ptr) (len : Z) : Comp unit :=
  let* xs := load_range a len in
  let* ys := load_range b len in
  store_range out (zip_with fsub xs ys).

(** Modelled from the spec: [vector::mult(a, factor, out, len)] of the
    missing vector module, the element-wise [out[i] = a[i] * factor]. *)
Definition mult (a : ptr) (factor : float) (out : ptr) (len : Z) : Comp unit :=
  let* xs := load_range a len in
  store_range out ((fun x => fmul x factor) <$> xs).

(** Modelled from the spec: [vector::copy(dst, src, len)] of the missing
    vector module, the element-wise [dst[i] = src[i]]. *)
Definition copy (dst src : ptr) (len : Z) : Comp unit :=
  let* xs := load_range src len in
  store_range dst xs.

End vector.

(** ** namespace matrix *)

Module matrix.

(** [mult(A, B, C, alpha, beta, TA, TB, M, N, K)] *)
Definition mult (A B C : ptr) (alpha beta : float) (TA TB : bool) (M N K : Z)
  : Comp unit :=
  let OA := if TA then CUBLAS_OP_T else CUBLAS_OP_N in
  let OB := if TB then CUBLAS_OP_T else CUBLAS_OP_N in
  let* cublas_status := cublasCreate in
  assert (CUBLAS_STATUS_SUCCESS = cublas_status) ;;
  (* Zeroing results; the status of cudaMemset is dropped *)
  assert (int_ok (M * K)) ;;
  cudaMemset0 C (M * K) ;;
  (* Multiplying *)
  let* cublas_status := cublasSgemm_v2 OA OB M K N alpha A M B N beta C M in
  assert (CUBLAS_STATUS_SUCCESS = cublas_status).

(** [multD(A, B, C, M, N)]: [A] is the diagonal. *)
Definition multD (A B C : ptr) (M N : Z) : Comp unit :=
  let* cublas_status := cublasCreate in
  assert (CUBLAS_STATUS_SUCCESS = cublas_status) ;;
  assert (int_ok (M * N)) ;;
  let* e := cudaMemset0 C (M * N) in
  gpuErrchk e ;;
  let* cublas_status := cublasSdgmm_left M N B M A 1 C M in
  assert (CUBLAS_STATUS_SUCCESS = cublas_status).

(** [__shared__ float block[BLOCK_DIM][BLOCK_DIM+1]], indexed
    [(row, column)]; an entry no thread wrote is absent. *)
Abbreviation tile := (gmap (Z * Z) spec_float) (only parsing).

Section Transpose.

(** The tile edge, a macro of the missing header. *)
Variable BLOCK_DIM : Z.


(** The threads of a block, as [(threadIdx.y, threadIdx.x)]. *)
Definition threads : list (Z * Z) :=
  ty ← seqZ 0 BLOCK_DIM; tx ← seqZ 0 BLOCK_DIM; [(ty, tx)].

(** [transpose_], up to the barrier: read the matrix tile into shared
    memory. *)
Definition transpose_read (A : ptr) (M N : Z) (bx by_ : Z)
    (t : Z * Z) (block : tile) : Comp tile :=
  let '(ty, tx) := t in
  let xIndex := u32 (bx * BLOCK_DIM + tx) in
  let yIndex := u32 (by_ * BLOCK_DIM + ty) in
  if decide (xIndex < u32 M /\ yIndex < u32 N) then
    let index_in := u32 (yIndex * u32 M + xIndex) in
    let* v := load A index_in in
    ret (<[(ty, tx) := v]> block)
  else ret block.

(** [transpose_], after the barrier: write the transposed matrix tile
    to global memory. *)
Definition transpose_write (B : ptr) (M N : Z) (bx by_ : Z)
    (block : tile) (t : Z * Z) : Comp unit :=
  let '(ty, tx) := t in
  let xIndex := u32 (by_ * BLOCK_DIM + tx) in
  let yIndex := u32 (bx * BLOCK_DIM + ty) in
  if decide (xIndex < u32 N /\ yIndex < u32 M) then
    let index_out := u32 (yIndex * u32 N + xIndex) in
    match block !! (tx, ty) with
    | Some v => store B index_out v
    | None => fail
    end
  else ret tt.

(** One thread block of [transpose_]. *)
Definition transpose_ (A B : ptr) (M N : Z) (b : Z * Z) : Comp unit :=
  let '(by_, bx) := b in
  let* block := foldM (transpose_read A M N bx by_) threads ∅ in
  forM threads (transpose_write B M N bx by_ block).

(** [transpose_<<<grid, threads>>>] with [grid = (gx, gy, 1)]. *)
Definition grid_blocks (gx gy : Z) : list (Z * Z) :=
  by_ ← seqZ 0 gy; bx ← seqZ 0 gx; [(by_, bx)].

(** [transpose(A, B, M, N)] *)
Definition transpose (A B : ptr) (M N : Z) : Comp unit :=
  (* Copy matrix if storing back *)
  let* C := (if decide (A = B) then
               assert (int_ok (M * N)) ;;
               let* r := cudaMalloc (M * N) in
               gpuErrchk (fst r) ;;
               vector.copy (snd r) A (M * N) ;;
               ret (snd r)
             else ret A) in
  assert (int_ok (M - 1 + BLOCK_DIM) /\ int_ok (N - 1 + BLOCK_DIM)) ;;
  let gx := Z.quot (M - 1 + BLOCK_DIM) BLOCK_DIM in
  let gy := Z.quot (N - 1 + BLOCK_DIM) BLOCK_DIM in
  forM (grid_blocks gx gy) (transpose_ C B M N).

End Transpose.

End matrix.

(** ** namespace fit *)

Module fit.

(** A model evaluator [void f(float* A, float* param, int N)]. *)
Definition evaluator := ptr -> ptr -> Z -> Comp unit.

(** A call of the evaluator, with the parameter array as the callee
    finds it added to the record of calls. *)
Definition call (f : evaluator) (A param : ptr) (N : Z) : Comp unit :=
  fun s =>
    let seen := match mem s !! p_blk param with
                | Some b => drop (Z.to_nat (p_off param)) b
                | None => []
                end in
    f A param N (State (mem s) (calls s ++ [seen])).

Section Kernels.

(** The block size of the element-wise kernels, a constant of the
    missing header. *)
Variable threadsPerBlock : Z.

(** [int i = blockDim.x * blockIdx.x + threadIdx.x] *)
Definition thread_index (blockDim blockIdx threadIdx : Z) : Z :=
  to_int (u32 (blockDim * blockIdx + threadIdx)).

(** Return: ax + b, [a * i + b] being one fused multiply-add *)
Definition flinear_ (A : ptr) (a b : float) (N : Z)
    (blockDim blockIdx threadIdx : Z) : Comp unit :=
  let i := thread_index blockDim blockIdx threadIdx in
  if decide (i < N) then store A i (ffma a (of_int i) b)
  else ret tt.

Definition flinear (A param : ptr) (N : Z) : Comp unit :=
  assert (int_ok (N + threadsPerBlock - 1)) ;;
  let blocksPerGrid := Z.quot (N + threadsPerBlock - 1) threadsPerBlock in
  let* a := load param 0 in
  let* b := load param 1 in
  launch1 blocksPerGrid threadsPerBlock (flinear_ A a b N) ;;
  let* e := cudaDeviceSynchronize in
  gpuErrchk e.

(** The guard covers the first store only. *)
Definition lincoef_ (A : ptr) (N : Z)
    (blockDim blockIdx threadIdx : Z) : Comp unit :=
  let i := thread_index blockDim blockIdx threadIdx in
  (if decide (i < N) then store A i (of_int i) else ret tt) ;;
  store A (N + i) (of_int 1).

Definition lincoef (A : ptr) (N : Z) : Comp unit :=
  assert (int_ok (N + threadsPerBlock - 1)) ;;
  let blocksPerGrid := Z.quot (N + threadsPerBlock - 1) threadsPerBlock in
  launch1 blocksPerGrid threadsPerBlock (lincoef_ A N) ;;
  let* e := cudaDeviceSynchronize in
  gpuErrchk e.

End Kernels.

Section Exponentials.

(** The block size of the element-wise kernels, and [expf] of the CUDA
    math library, of which nothing is assumed. *)
Variable threadsPerBlock : Z.
Variable expf : float -> float.

(** Return: ae^(kt) + be^(qt) + c.  In [(a * x + b * y) + c] the first
    product is contracted with the sum of the two products, of which the
    second is rounded; the sum with [c] has no product to contract. *)
Definition fdoubleExp_ (A : ptr) (a b c k q : float) (N : Z)
    (blockDim blockIdx threadIdx : Z) : Comp unit :=
  let i := thread_index blockDim blockIdx threadIdx in
  if decide (i < N)
  then store A i (fadd (ffma a (expf (fmul k (of_int i)))
                          (fmul b (expf (fmul q (of_int i))))) c)
  else ret tt.

(** The rates are passed as [-abs(param[3])] and [-abs(param[4])], with
    the [float] overload of [abs]. *)
Definition fdoubleExp (A param : ptr) (N : Z) : Comp unit :=
  assert (int_ok (N + threadsPerBlock - 1)) ;;
  let blocksPerGrid := Z.quot (N + threadsPerBlock - 1) threadsPerBlock in
  let* a := load param 0 in
  let* b := load param 1 in
  let* c := load param 2 in
  let* k := load param 3 in
  let* q := load param 4 in
  launch1 blocksPerGrid threadsPerBlock
    (fdoubleExp_ A a b c (SFopp (SFabs k)) (SFopp (SFabs q)) N) ;;
  let* e := cudaDeviceSynchronize in
  gpuErrchk e.

(** Return: ae^(kt) + b, [a * expf(..) + b] being one fused
    multiply-add *)
Definition fexp_ (A : ptr) (a b k : float) (N : Z)
    (blockDim blockIdx threadIdx : Z) : Comp unit :=
  let i := thread_index blockDim blockIdx threadIdx in
  if decide (i < N)
  then store A i (ffma a (expf (fmul k (of_int i))) b)
  else ret tt.

(** The rate is passed as [-abs(param[2])]. *)
Definition fexp (A param : ptr) (N : Z) : Comp unit :=
  assert (int_ok (N + threadsPerBlock - 1)) ;;
  let blocksPerGrid := Z.quot (N + threadsPerBlock - 1) threadsPerBlock in
  let* a := load param 0 in
  let* b := load param 1 in
  let* k := load param 2 in
  launch1 blocksPerGrid threadsPerBlock (fexp_ A a b (SFopp (SFabs k)) N) ;;
  let* e := cudaDeviceSynchronize in
  gpuErrchk e.

End Exponentials.

(** [param[i] += d] *)
Definition add_assign (param : ptr) (i : Z) (d : float) : Comp unit :=
  let* x := load param i in
  store param i (fadd x d).

(** [const float eps = pow(2,-17)] *)
Definition jacobian_eps : float := to_float (pow2 (-17)).

(** One pass of the loop of [jacobian]. *)
Definition jacobian_column (J : ptr) (f : evaluator) (param : ptr) (N : Z)
    (eps : float) (prev next : ptr) (i : Z) : Comp unit :=
  let* temp := load param i in
  add_assign param i eps ;;
  call f next param N ;;
  assert (int_ok (i * N)) ;;
  vector.sub next prev (ptr_add J (i * N)) N ;;
  store param i temp.

(** [jacobian], up to the end of the loop, and what follows the loop. *)
Definition jacobian_fill (J : ptr) (f : evaluator) (param : ptr) (N K : Z)
    (eps : float) (prev next : ptr) : Comp unit :=
  (* Calculate Y(t) for current parameters *)
  call f prev param N ;;
  (* Calculate Y(t) for perturbed parameters *)
  for_range K (jacobian_column J f param N eps prev next).

Definition jacobian_scale (J : ptr) (N K : Z) (eps : float) : Comp unit :=
  assert (int_ok (N * K)) ;;
  vector.mult J (to_float (ddiv (dec_lit 1 0) (to_double eps))) J (N * K).

(** [jacobian(J, f, param, N, K)] *)
Definition jacobian (J : ptr) (f : evaluator) (param : ptr) (N K : Z)
  : Comp unit :=
  let eps := jacobian_eps in
  let* r := cudaMalloc N in gpuErrchk (fst r) ;; let prev := snd r in
  let* r := cudaMalloc N in gpuErrchk (fst r) ;; let next := snd r in
  jacobian_fill J f param N K eps prev next ;;
  jacobian_scale J N K eps ;;
  cudaFree prev ;;
  cudaFree next ;;
  ret tt.

(** [const float eps = pow(2,-10)] of [jacobian_v2] *)
Definition jacobian_v2_eps : float := to_float (pow2 (-10)).

(** [dB < 1e-31 && dB > -1e-31], both comparisons in double *)
Definition too_small (dB : float) : bool :=
  dlt (to_double dB) (dec_lit 1 (-31))
  && dlt (SFopp (dec_lit 1 (-31))) (to_double dB).

(** The perturbation of a parameter of value [p]:
    [dB = p * eps; if (too small) dB = 1e-30;] *)
Definition perturbation (p : float) : float :=
  let dB := fmul p jacobian_v2_eps in
  if too_small dB then to_float (dec_lit 1 (-30)) else dB.

(** [scale = (float) (1./((double)temp * eps))] *)
Definition column_scale (temp : float) : float :=
  to_float (ddiv (dec_lit 1 0)
              (dmul (to_double temp) (to_double jacobian_v2_eps))).

(** One pass of the loop of [jacobian_v2]. *)
Definition jacobian_v2_column (J : ptr) (f : evaluator) (param : ptr) (N : Z)
    (prev next : ptr) (i : Z) : Comp unit :=
  let* temp := load param i in
  let* p := load param i in
  let dB := perturbation p in
  add_assign param i dB ;;
  let scale := column_scale temp in
  (* Calculating Jacobian *)
  call f next param N ;;
  assert (int_ok (i * N)) ;;
  vector.sub next prev (ptr_add J (i * N)) N ;;
  vector.mult (ptr_add J (i * N)) scale (ptr_add J (i * N)) N ;;
  store param i temp.

(** [jacobian_v2(J, f, param, N, K)] *)
Definition jacobian_v2 (J : ptr) (f : evaluator) (param : ptr) (N K : Z)
  : Comp unit :=
  let* r := cudaMalloc N in gpuErrchk (fst r) ;; let prev := snd r in
  let* r := cudaMalloc N in gpuErrchk (fst r) ;; let next := snd r in
  call f prev param N ;;
  for_range K (jacobian_v2_column J f param N prev next) ;;
  cudaFree prev ;;
  cudaFree next ;;
  ret tt.

End fit.

(** ** The contract of a model evaluator *)

(** [f] implements [model] for [K] parameters and [N] samples: called on
    an [N]-cell output block and a [K]-cell parameter block holding [ps],
    it stores [model ps j] at output cell [j] for [0 <= j < N] and does
    nothing else. *)
Definition model_output (model : list float -> Z -> float) (ps : list float)
    (N : Z) : list float :=
  model ps <$> seqZ 0 N.

Definition implements (f : fit.evaluator) (K N : Z)
    (model : list float -> Z -> float) : Prop :=
  forall (s : state) (A param : ptr) (ps : list float) (old : list cell),
    p_off A = 0 -> p_off param = 0 ->
    mem s !! p_blk param = Some (Some <$> ps) ->
    Z.of_nat (length ps) = K ->
    mem s !! p_blk A = Some old ->
    Z.of_nat (length old) = N ->
    p_blk A <> p_blk param ->
    f A param N s
    = Some (tt, set_mem (<[p_blk A := Some <$> model_output model ps N]> (mem s)) s).

(** The affine model [a t + b] of [flinear]. *)
Definition flinear_model (ps : list float) (t : Z) : float :=
  ffma (ps !!! 0%nat) (of_int t) (ps !!! 1%nat).

(** The parameter vector with coordinate [i] moved by [d]. *)
Definition perturb (ps : list float) (i : Z) (d : float) : list float :=
  match ps !! Z.to_nat i with
  | Some x => <[Z.to_nat i := fadd x d]> ps
  | None => ps
  end.

(** The output block of an element-wise kernel once the threads of index
    below [c] have run: [g] on the cells they own, the old content
    elsewhere. *)
Definition filled (g : Z -> float) (old : list cell) (N c : Z) : list cell :=
  (Some <$> (g <$> seqZ 0 (Z.min c N))) ++ drop (Z.to_nat (Z.min c N)) old.

(** The finite difference of the model outputs for a step [d] on
    parameter [i]: perturbed output minus baseline, sample by sample. *)
Definition difference_column (model : list float -> Z -> float)
    (ps : list float) (N : Z) (d : float) (i : Z) : list float :=
  zip_with fsub (model_output model (perturb ps i d) N) (model_output model ps N).

(** The first [i] columns, one after the other, and a column-major buffer
    of which the first [i] columns of [N] cells have been written. *)
Definition columns (col : Z -> list float) (i : Z) : list float :=
  concat (col <$> seqZ 0 i).

Definition partial_J (col : Z -> list float) (jold : list cell) (N i : Z)
  : list cell :=
  (Some <$> columns col i) ++ drop (Z.to_nat (i * N)) jold.

(** The factor [float(1./eps)] of [jacobian]. *)
Definition jacobian_factor : float :=
  to_float (ddiv (dec_lit 1 0) (to_double fit.jacobian_eps)).

(** Column [i] as [jacobian_v2] leaves it. *)
Definition v2_column (model : list float -> Z -> float)
    (ps : list float) (N : Z) (i : Z) : list float :=
  let p := ps !!! Z.to_nat i in
  (fun x => fmul x (fit.column_scale p))
    <$> difference_column model ps N (fit.perturbation p) i.

(** The state of a Jacobian estimator after [i] passes of its loop: the
    baseline outputs in the scratch block [b1], the last perturbed outputs
    [nx] in the scratch block [b2], the first [i] columns in the block
    [jb] of [J], and one recorded call for the baseline and for each of
    the [i] probes. *)
Definition loop_state (s0 : state) (jb b1 b2 : nat)
    (model : list float -> Z -> float) (ps : list float)
    (col : Z -> list float) (d : Z -> float) (jold : list cell) (N : Z)
    (nx : list cell) (i : Z) : state :=
  State (<[jb := partial_J col jold N i]>
           (<[b2 := nx]> (<[b1 := Some <$> model_output model ps N]> (mem s0))))
        (calls s0 ++ (Some <$> ps)
           :: ((fun k => Some <$> perturb ps k (d k)) <$> seqZ 0 i)).

(** The binary32 number [2^k], for [k] in the normal range. *)
Definition float_pow2 (k : Z) : float := S754_finite false 8388608 (k - 23).

(** ** Concrete stores used in the examples *)

(** The parameters [(2, 3)] of the affine model in block 0 and a [5 x 2]
    buffer, not yet written, in block 1. *)
Definition affine_state : state :=
  State (<[0%nat := [Some (of_int 2); Some (of_int 3)]]>
           (<[1%nat := replicate 10 None]> ∅)) [].

(** A [1 x 1] matrix holding 7 in block 0. *)
Definition one_cell_state : state :=
  State (<[0%nat := [Some (of_int 7)]]> ∅) [].

(** The parameters [(0.0, 0.0)] of the affine model in block 0 and a
    [2 x 2] buffer, not yet written, in block 1. *)
Definition zero_param_state : state :=
  State (<[0%nat := [Some fzero; Some fzero]]>
           (<[1%nat := replicate 4 None]> ∅)) [].

(** The [1 x 1] matrices [A = (3)] and [B = (5)] in blocks 0 and 1, and a
    one-cell buffer holding 100 in block 2. *)
Definition product_state : state :=
  State (<[0%nat := [Some (of_int 3)]]>
           (<[1%nat := [Some (of_int 5)]]>
              (<[2%nat := [Some (of_int 100)]]> ∅))) [].

(** The parameters [(2^-91, 3)] of the affine model in block 0 and a
    [5 x 2] buffer, not yet written, in block 1. *)
Definition tiny_state : state :=
  State (<[0%nat := [Some (float_pow2 (-91)); Some (of_int 3)]]>
           (<[1%nat := replicate 10 None]> ∅)) [].

(** The same with the negative subnormal number [-2^-149] as the first
    parameter. *)
Definition subnormal_state : state :=
  State (<[0%nat := [Some (S754_finite true 1 (-149)); Some (of_int 3)]]>
           (<[1%nat := replicate 10 None]> ∅)) [].

(** One block of [n] cells, none of them written. *)
Definition blank_state (n : nat) : state :=
  State (<[0%nat := replicate n None]> ∅) [].

(** [diag(d) B] for an [M x N] column-major matrix [B]. *)
Definition diagonal_product (d B : list float) (M N : Z) : list float :=
  columns (fun c => (fun r => fmul (d !!! Z.to_nat r) (B !!! Z.to_nat (c * M + r)))
                      <$> seqZ 0 M) N.

(** A diagonal of three ones and a [3 x 2] matrix in blocks 0 and 1, and
    a six-cell buffer, not yet written, in block 2. *)
Definition diagonal_state : state :=
  State (<[0%nat := Some <$> [fone; fone; fone]]>
           (<[1%nat := Some <$> [of_int 1; of_int 2; of_int 3;
                                 of_int 4; of_int 5; of_int 6]]>
              (<[2%nat := replicate 6 None]> ∅))) [].

(** The transpose of an [M x N] column-major matrix, itself column-major
    ([N x M]): cell [j] is cell [(j / N, j mod N)] of the input. *)
Definition transposed (la : list float) (M N : Z) : list float :=
  (fun j => la !!! Z.to_nat ((j mod N) * M + j / N)) <$> seqZ 0 (M * N).

(** What thread [t] of block [b] of [transpose_] stores, if its guard
    lets it: the index into the output and the value. *)
Definition thread_write (BLOCK_DIM : Z) (la : list float) (M N : Z)
    (b t : Z * Z) : option (Z * float) :=
  let '(by_, bx) := b in
  let '(ty, tx) := t in
  if decide (by_ * BLOCK_DIM + tx < N /\ bx * BLOCK_DIM + ty < M)
  then Some ((bx * BLOCK_DIM + ty) * N + (by_ * BLOCK_DIM + tx),
             la !!! Z.to_nat ((by_ * BLOCK_DIM + tx) * M + (bx * BLOCK_DIM + ty)))
  else None.

Definition apply_write (c : list cell) (w : option (Z * float)) : list cell :=
  match w with
  | Some (i, v) => <[Z.to_nat i := Some v]> c
  | None => c
  end.

(** What thread [t] of block [b] of [transpose_] loads into the tile. *)
Definition thread_read (BLOCK_DIM : Z) (la : list float) (M N : Z)
    (b : Z * Z) (block : matrix.tile) (t : Z * Z) : matrix.tile :=
  let '(by_, bx) := b in
  let '(ty, tx) := t in
  if decide (bx * BLOCK_DIM + tx < M /\ by_ * BLOCK_DIM + ty < N)
  then <[(ty, tx) := la !!! Z.to_nat ((by_ * BLOCK_DIM + ty) * M + (bx * BLOCK_DIM + tx))]>
         block
  else block.

(** A [3 x 2] matrix in block 0 and a six-cell buffer, not yet written,
    in block 1. *)
Definition matrix_state : state :=
  State (<[0%nat := Some <$> [of_int 1; of_int 2; of_int 3;
                              of_int 4; of_int 5; of_int 6]]>
           (<[1%nat := replicate 6 None]> ∅)) [].

(** ** Values the element-wise kernels store *)

(** Sample [t] of the models of [flinear], [fexp] and [fdoubleExp]. *)
Definition flinear_value (a b : float) (t : Z) : float :=
  ffma a (of_int t) b.

Definition fexp_value (expf : float -> float) (a b k : float) (t : Z) : float :=
  ffma a (expf (fmul (SFopp (SFabs k)) (of_int t))) b.

Definition fdoubleExp_value (expf : float -> float) (a b c k q : float) (t : Z)
  : float :=
  fadd (ffma a (expf (fmul (SFopp (SFabs k)) (of_int t)))
          (fmul b (expf (fmul (SFopp (SFabs q)) (of_int t))))) c.

(** An output block of which the first [N] cells hold [g 0 .. g (N-1)]
    and the others are as in [old]. *)
Definition prefix_filled (g : Z -> float) (old : list cell) (N : Z) : list cell :=
  (Some <$> (g <$> seqZ 0 N)) ++ drop (Z.to_nat N) old.

(** The block of [lincoef] once the threads of index below [c] have run:
    the guarded stores in the first [N] cells, a one for each thread
    behind them. *)
Definition lincoef_cells (old : list cell) (N c : Z) : list cell :=
  filled of_int (take (Z.to_nat N) old) N c
  ++ replicate (Z.to_nat c) (Some (of_int 1))
  ++ drop (Z.to_nat (N + c)) old.

(** The parameters [(2, 3, 1)] of [fexp] in block 0 and a buffer of seven
    cells, not yet written, in block 1. *)
Definition decay_state : state :=
  State (<[0%nat := [Some (of_int 2); Some (of_int 3); Some (of_int 1)]]>
           (<[1%nat := replicate 7 None]> ∅)) [].

(** The parameters [(2, 3, 4, 1, 5)] of [fdoubleExp] in block 0 and a
    buffer of six cells, not yet written, in block 1. *)
Definition double_decay_state : state :=
  State (<[0%nat := [Some (of_int 2); Some (of_int 3); Some (of_int 4);
                     Some (of_int 1); Some (of_int 5)]]>
           (<[1%nat := replicate 6 None]> ∅)) [].

(** ** The product [mult] computes *)

(** Where [cublasSgemm] finds element [(row, col)] of [op(X)] for an
    operand [X] of leading dimension [ld]. *)
Definition operand_index (T : bool) (ld row col : Z) : Z :=
  if T then row * ld + col else col * ld + row.

(** The dot product of [gemm_dot] on operands that are all there. *)
Definition dot (x y : Z -> float) (k : Z) : float :=
  foldl (fun acc l => fadd acc (fmul (x (Z.of_nat l)) (y (Z.of_nat l))))
        fzero (seq 0 (Z.to_nat k)).

(** Cell [(r, c)] of the output of [mult] for operands [la] and [lb],
    read with the leading dimensions [M] and [N] that [mult] passes. *)
Definition product_entry (alpha beta : float) (TA TB : bool)
    (la lb : list float) (M N : Z) (r c : Z) : float :=
  let d := dot (fun l => la !!! Z.to_nat (operand_index TA M r l))
               (fun l => lb !!! Z.to_nat (operand_index TB N l c)) N in
  if is_zero beta then fmul alpha d else fadd (fmul alpha d) (fmul beta fzero).

(** The matrices [A = (1 2; 3 4)] and [B = (5 6; 7 8)], column-major, in
    blocks 0 and 1, and a four-cell buffer, not yet written, in block 2. *)
Definition square_state : state :=
  State (<[0%nat := Some <$> [of_int 1; of_int 3; of_int 2; of_int 4]]>
           (<[1%nat := Some <$> [of_int 5; of_int 7; of_int 6; of_int 8]]>
              (<[2%nat := replicate 4 None]> ∅))) [].

(** The parameters [(300, 3)] of the affine model in block 0 and a
    [5 x 2] buffer, not yet written, in block 1. *)
Definition steep_state : state :=
  State (<[0%nat := [Some (of_int 300); Some (of_int 3)]]>
           (<[1%nat := replicate 10 None]> ∅)) [].

(* ================================================================== *)
(** * Properties *)

(** ** The monad *)

Lemma bind_Some {A B} (c : Comp A) (k : A -> Comp B) s a s' :
  c s = Some (a, s') -> bind c k s = k a s'.
Proof. intros H. unfold bind. now rewrite H. Qed.

Lemma bind_None {A B} (c : Comp A) (k : A -> Comp B) s :
  c s = None -> bind c k s = None.
Proof. intros H. unfold bind. now rewrite H. Qed.

Lemma assert_true (P : Prop) `{Decision P} s : P -> assert P s = Some (tt, s).
Proof. intros HP. unfold assert. now rewrite decide_True. Qed.

Lemma set_mem_mem m s : mem (set_mem m s) = m.
Proof. reflexivity. Qed.

Lemma set_mem_calls m s : calls (set_mem m s) = calls s.
Proof. reflexivity. Qed.

Lemma set_mem_set_mem m m' s : set_mem m (set_mem m' s) = set_mem m s.
Proof. reflexivity. Qed.

Lemma set_mem_id s : set_mem (mem s) s = s.
Proof. now destruct s. Qed.

Lemma foldM_app {A S} (f : A -> S -> Comp S) l1 l2 acc s :
  foldM f (l1 ++ l2) acc s
  = match foldM f l1 acc s with
    | Some (acc', s') => foldM f l2 acc' s'
    | None => None
    end.
Proof.
  revert acc s. induction l1 as [|a l1 IH]; intros acc s; simpl.
  - reflexivity.
  - unfold bind. destruct (f a acc s) as [[acc' s']|]; [apply IH | reflexivity].
Qed.

(** Invariant rule for [forM]: [I done s] after the elements [done]. *)
Lemma forM_inv {A} (I : list A -> state -> Prop) (body : A -> Comp unit) l s :
  I [] s ->
  (forall done a s1, (exists rest, l = done ++ a :: rest) -> I done s1 ->
     exists s2, body a s1 = Some (tt, s2) /\ I (done ++ [a]) s2) ->
  exists s', forM l body s = Some (tt, s') /\ I l s'.
Proof.
  intros H0 Hstep.
  assert (forall done rest s1, l = done ++ rest -> I done s1 ->
            exists s', forM rest body s1 = Some (tt, s') /\ I l s') as Hgen.
  { intros done rest. revert done.
    induction rest as [|a rest IH]; intros done s1 Hl HI.
    - exists s1. rewrite app_nil_r in Hl. subst. easy.
    - destruct (Hstep done a s1) as (s2 & Hb & HI2); [now exists rest | easy |].
      destruct (IH (done ++ [a]) s2) as (s' & Hr & HI'); [| easy |].
      + now rewrite <- app_assoc.
      + exists s'. split; [| easy].
        unfold forM in *. simpl. erewrite bind_Some by exact Hb. exact Hr. }
  exact (Hgen [] l s eq_refl H0).
Qed.

(** The same for a counted loop. *)
Lemma for_range_inv (I : Z -> state -> Prop) (body : Z -> Comp unit) n s :
  0 <= n -> I 0 s ->
  (forall i s1, 0 <= i < n -> I i s1 ->
     exists s2, body i s1 = Some (tt, s2) /\ I (i + 1) s2) ->
  exists s', for_range n body s = Some (tt, s') /\ I n s'.
Proof.
  intros Hn H0 Hstep. unfold for_range.
  destruct (forM_inv (fun done s => I (Z.of_nat (length done)) s) body (seqZ 0 n) s)
    as (s' & Hrun & HI).
  - exact H0.
  - intros done a s1 [rest Hl] HI.
    assert (a = Z.of_nat (length done) /\ 0 <= a < n) as [Ha Hlt].
    { assert (seqZ 0 n !! length done = Some a) as Hlk.
      { rewrite Hl. now rewrite list_lookup_middle. }
      apply lookup_seqZ in Hlk. lia. }
    destruct (Hstep a s1) as (s2 & Hb & HI2); [lia | now rewrite Ha |].
    exists s2. split; [easy |].
    rewrite length_app. simpl. replace (Z.of_nat (length done + 1)) with (a + 1) by lia.
    exact HI2.
  - exists s'. split; [easy |]. rewrite length_seqZ in HI.
    now replace (Z.of_nat (Z.to_nat n)) with n in HI by lia.
Qed.
(** ** Memory operations *)

Lemma load_ok s p i (b : list cell) v :
  mem s !! p_blk p = Some b -> 0 <= p_off p + i ->
  b !! Z.to_nat (p_off p + i) = Some (Some v) ->
  load p i s = Some (v, s).
Proof.
  intros Hb Hk Hv. unfold load, block_load.
  rewrite Hb. rewrite decide_True by easy. now rewrite Hv.
Qed.

Lemma store_ok s p i (b : list cell) v :
  mem s !! p_blk p = Some b ->
  0 <= p_off p + i < Z.of_nat (length b) ->
  store p i v s
  = Some (tt, set_mem (<[p_blk p := <[Z.to_nat (p_off p + i) := Some v]> b]> (mem s)) s).
Proof.
  intros Hb Hk. unfold store, block_store.
  rewrite Hb. now rewrite decide_True by easy.
Qed.

Lemma mapM_id_Some (vs : list float) : mapM id (Some <$> vs) = Some vs.
Proof. now apply mapM_fmap_Some. Qed.

Lemma block_read_range_ok (b : list cell) k n vs :
  0 <= k -> n = Z.of_nat (length vs) -> k + n <= Z.of_nat (length b) ->
  take (length vs) (drop (Z.to_nat k) b) = Some <$> vs ->
  block_read_range b k n = Some vs.
Proof.
  intros Hk Hn Hlen Ht. unfold block_read_range.
  rewrite decide_True by lia.
  subst n. rewrite Nat2Z.id, Ht. apply mapM_id_Some.
Qed.

Lemma load_range_ok s p n (b : list cell) vs :
  mem s !! p_blk p = Some b -> 0 <= p_off p -> n = Z.of_nat (length vs) ->
  p_off p + n <= Z.of_nat (length b) ->
  take (length vs) (drop (Z.to_nat (p_off p)) b) = Some <$> vs ->
  load_range p n s = Some (vs, s).
Proof.
  intros Hb Hk Hn Hlen Ht. unfold load_range. rewrite Hb.
  now rewrite (block_read_range_ok b (p_off p) n vs).
Qed.

Lemma store_range_ok s p (b : list cell) vs :
  mem s !! p_blk p = Some b -> 0 <= p_off p ->
  p_off p + Z.of_nat (length vs) <= Z.of_nat (length b) ->
  store_range p vs s
  = Some (tt, set_mem (<[p_blk p := take (Z.to_nat (p_off p)) b ++ (Some <$> vs)
                           ++ drop (Z.to_nat (p_off p) + length vs) b]> (mem s)) s).
Proof.
  intros Hb Hk Hlen. unfold store_range, block_write_range.
  rewrite Hb. now rewrite decide_True by easy.
Qed.

(** Overwriting a whole block. *)
Lemma store_range_whole s p (b : list cell) vs :
  mem s !! p_blk p = Some b -> p_off p = 0 -> length vs = length b ->
  store_range p vs s = Some (tt, set_mem (<[p_blk p := Some <$> vs]> (mem s)) s).
Proof.
  intros Hb Hk Hlen. rewrite (store_range_ok s p b vs) by (try easy; lia).
  rewrite Hk. simpl. rewrite Hlen, drop_all. now rewrite app_nil_r.
Qed.

Lemma load_range_whole s p n (vs : list float) :
  mem s !! p_blk p = Some ((Some <$> vs) : list cell) -> p_off p = 0 ->
  n = Z.of_nat (length vs) ->
  load_range p n s = Some (vs, s).
Proof.
  intros Hb Hk Hn. apply (load_range_ok s p n (Some <$> vs)); try easy; try lia.
  - rewrite length_fmap. lia.
  - rewrite Hk. simpl. apply take_ge. now rewrite length_fmap.
Qed.

Lemma fresh_block_free (m : gmap nat (list cell)) : m !! fresh (dom m) = None.
Proof. apply not_elem_of_dom. apply is_fresh. Qed.

Lemma cudaMalloc_ok n s :
  0 <= n ->
  cudaMalloc n s
  = Some ((cudaSuccess, Ptr (fresh (dom (mem s))) 0),
          set_mem (<[fresh (dom (mem s)) := replicate (Z.to_nat n) None]> (mem s)) s).
Proof. intros Hn. unfold cudaMalloc. now rewrite decide_True. Qed.

Lemma cudaFree_ok p s (b : list cell) :
  p_off p = 0 -> mem s !! p_blk p = Some b ->
  cudaFree p s = Some (cudaSuccess, set_mem (delete (p_blk p) (mem s)) s).
Proof. intros Ho Hb. unfold cudaFree. now rewrite decide_True. Qed.

Lemma gpuErrchk_ok s : gpuErrchk cudaSuccess s = Some (tt, s).
Proof. reflexivity. Qed.
(** ** Element-wise kernels *)

Lemma thread_index_small bd bi ti :
  0 <= bd * bi + ti <= INT_MAX -> fit.thread_index bd bi ti = bd * bi + ti.
Proof.
  intros H. unfold fit.thread_index, u32, to_int, INT_MAX in *.
  rewrite Z.mod_small by lia. now rewrite decide_True by lia.
Qed.

Lemma filled_length g (old : list cell) N c :
  0 <= c -> Z.of_nat (length old) = N -> length (filled g old N c) = length old.
Proof.
  intros Hc Hlen. unfold filled.
  rewrite length_app, !length_fmap, length_seqZ, length_drop. lia.
Qed.

Lemma filled_0 g (old : list cell) N : 0 <= N -> filled g old N 0 = old.
Proof.
  intros HN. unfold filled. rewrite Z.min_l by lia. now rewrite seqZ_nil.
Qed.

Lemma filled_all g (old : list cell) N c :
  0 <= N <= c -> Z.of_nat (length old) = N ->
  filled g old N c = Some <$> (g <$> seqZ 0 N).
Proof.
  intros Hc Hlen. unfold filled. rewrite Z.min_r by lia.
  rewrite drop_ge by lia. now rewrite app_nil_r.
Qed.

Lemma filled_skip g (old : list cell) N c :
  N <= c -> filled g old N (c + 1) = filled g old N c.
Proof. intros Hc. unfold filled. now rewrite !Z.min_r by lia. Qed.

Lemma filled_step g (old : list cell) N c :
  0 <= c < N -> Z.of_nat (length old) = N ->
  <[Z.to_nat c := Some (g c)]> (filled g old N c) = filled g old N (c + 1).
Proof.
  intros Hc Hlen. unfold filled. rewrite !Z.min_l by lia.
  destruct (lookup_lt_is_Some_2 old (Z.to_nat c)) as [x Hx]; [lia |].
  rewrite (drop_S old x (Z.to_nat c)) by exact Hx.
  replace (c + 1) with (Z.of_nat (S (Z.to_nat c))) by lia.
  rewrite seqZ_S, !fmap_app. simpl.
  replace (Z.to_nat (Z.of_nat (S (Z.to_nat c)))) with (S (Z.to_nat c)) by lia.
  rewrite <- app_assoc. simpl.
  replace (Z.of_nat (Z.to_nat c)) with c by lia.
  set (pre := Some <$> (g <$> seqZ 0 c)).
  assert (Z.to_nat c = length pre + 0)%nat as ->.
  { unfold pre. rewrite !length_fmap, length_seqZ. lia. }
  now rewrite insert_app_r.
Qed.

Lemma launch1_store (tpb : Z) (g : Z -> float) blk (old : list cell) N nb s :
  0 < tpb -> 0 <= N -> 0 <= nb -> N <= nb * tpb <= INT_MAX ->
  mem s !! blk = Some old -> Z.of_nat (length old) = N ->
  launch1 nb tpb (fun bd bi ti =>
      let i := fit.thread_index bd bi ti in
      if decide (i < N) then store (Ptr blk 0) i (g i) else ret tt) s
  = Some (tt, set_mem (<[blk := Some <$> (g <$> seqZ 0 N)]> (mem s)) s).
Proof.
  intros Htpb HN Hnb Hcover Hold Hlen. unfold launch1.
  set (St := fun c => set_mem (<[blk := filled g old N c]> (mem s)) s).
  destruct (for_range_inv (fun b s1 => s1 = St (tpb * b)) 
              (fun b => for_range tpb (fun t =>
                 let i := fit.thread_index tpb b t in
                 if decide (i < N) then store (Ptr blk 0) i (g i) else ret tt))
              nb s) as (s' & Hrun & Hs'); try easy.
  - unfold St. rewrite Z.mul_0_r, filled_0 by easy.
    rewrite insert_id by easy. now rewrite set_mem_id.
  - intros b s1 Hb ->.
    destruct (for_range_inv (fun t s1 => s1 = St (tpb * b + t))
                (fun t => let i := fit.thread_index tpb b t in
                   if decide (i < N) then store (Ptr blk 0) i (g i) else ret tt)
                tpb (St (tpb * b))) as (s2 & Hrun2 & Hs2); try lia.
    + now rewrite Z.add_0_r.
    + intros t s1 Ht ->. cbv zeta.
      rewrite thread_index_small by nia.
      set (c := tpb * b + t).
      replace (tpb * b + (t + 1)) with (c + 1) by lia.
      destruct (decide (c < N)) as [Hc | Hc].
      * exists (St (c + 1)). split; [| easy].
        rewrite (store_ok _ _ _ (filled g old N c)).
        -- simpl. rewrite insert_insert_eq. unfold St.
           now rewrite filled_step by (try easy; nia).
        -- simpl. now rewrite lookup_insert_eq.
        -- simpl. rewrite filled_length by (try easy; nia). nia.
      * exists (St c). split; [easy |]. unfold St.
        now rewrite filled_skip by lia.
    + exists s2. split; [easy |]. subst s2. f_equal. lia.
  - transitivity (Some (tt, s')); [exact Hrun |].
    subst s'. unfold St. do 2 f_equal.
    now rewrite filled_all by (try easy; nia).
Qed.
Lemma blocks_cover N tpb :
  0 < tpb -> 0 <= N ->
  0 <= Z.quot (N + tpb - 1) tpb
  /\ N <= Z.quot (N + tpb - 1) tpb * tpb <= N + tpb - 1.
Proof.
  intros Htpb HN. rewrite Z.quot_div_nonneg by lia.
  pose proof (Z.div_mod (N + tpb - 1) tpb) as Hdm.
  pose proof (Z.mod_pos_bound (N + tpb - 1) tpb) as Hmod.
  assert (0 <= (N + tpb - 1) / tpb) by (apply Z.div_pos; lia).
  split; [easy |]. lia.
Qed.

(** [flinear] meets the contract of an evaluator for the affine model. *)
Lemma flinear_implements tpb N :
  0 < tpb -> 0 <= N -> N + tpb - 1 <= INT_MAX ->
  implements (fit.flinear tpb) 2 N flinear_model.
Proof.
  intros Htpb HN Hmax s A param ps old HA Hp Hps HK Hold Hlen Hne.
  destruct ps as [|a [|b [|]]]; simpl in HK; try lia.
  destruct (blocks_cover N tpb Htpb HN) as (Hnb & Hlo & Hhi).
  unfold fit.flinear.
  rewrite (bind_Some _ _ s tt s)
    by (apply assert_true; unfold int_ok, INT_MAX in *; lia).
  rewrite (bind_Some _ _ s a s)
    by (eapply load_ok; [exact Hps | lia | now rewrite Hp]).
  rewrite (bind_Some _ _ s b s)
    by (eapply load_ok; [exact Hps | lia | now rewrite Hp]).
  destruct A as [blk off]. simpl in *. subst off.
  erewrite bind_Some.
  2:{ apply (launch1_store tpb (fun i => ffma a (of_int i) b) blk old N);
        try easy; lia. }
  reflexivity.
Qed.
(** ** Column-major buffers *)

Lemma columns_length col N i :
  0 <= i -> 0 <= N -> (forall k, 0 <= k < i -> Z.of_nat (length (col k)) = N) ->
  Z.of_nat (length (columns col i)) = i * N.
Proof.
  intros Hi HN. unfold columns.
  rewrite <- (Z2Nat.id i) by easy. generalize (Z.to_nat i) as n. clear Hi.
  induction n as [|n IH]; intros Hcol.
  - reflexivity.
  - rewrite seqZ_S, fmap_app, concat_app, length_app. simpl.
    rewrite app_nil_r. rewrite Nat2Z.inj_add, IH by (intros; apply Hcol; lia).
    rewrite Hcol by lia. lia.
Qed.

Lemma columns_succ col i :
  0 <= i -> columns col (i + 1) = columns col i ++ col i.
Proof.
  intros Hi. unfold columns.
  replace (i + 1) with (Z.of_nat (S (Z.to_nat i))) by lia.
  rewrite seqZ_S, fmap_app, concat_app. simpl. rewrite app_nil_r.
  now replace (Z.of_nat (Z.to_nat i)) with i by lia.
Qed.

Lemma columns_lookup col N i k j :
  0 <= N -> 0 <= k < i -> 0 <= j < N ->
  (forall k, 0 <= k < i -> Z.of_nat (length (col k)) = N) ->
  columns col i !! Z.to_nat (k * N + j) = col k !! Z.to_nat j.
Proof.
  intros HN Hk Hj. rewrite <- (Z2Nat.id i) by lia.
  assert (k < Z.of_nat (Z.to_nat i)) as Hk' by lia.
  revert Hk'. generalize (Z.to_nat i) as n.
  induction n as [|n IH]; intros Hk' Hcol; [lia |].
  replace (Z.of_nat (S n)) with (Z.of_nat n + 1) by lia.
  rewrite columns_succ by lia.
  pose proof (columns_length col N (Z.of_nat n)) as Hlen.
  destruct (decide (k < Z.of_nat n)) as [Hlt | Hge].
  - rewrite lookup_app_l.
    + apply IH; [easy |]. intros; apply Hcol; lia.
    + assert (Z.of_nat (length (columns col (Z.of_nat n))) = Z.of_nat n * N)
        by (apply Hlen; try lia; intros; apply Hcol; lia).
      nia.
  - assert (k = Z.of_nat n) as -> by lia.
    assert (Z.of_nat (length (columns col (Z.of_nat n))) = Z.of_nat n * N) as Hl
      by (apply Hlen; try lia; intros; apply Hcol; lia).
    rewrite lookup_app_r by nia. f_equal. nia.
Qed.

Lemma partial_J_0 col (jold : list cell) N : partial_J col jold N 0 = jold.
Proof. reflexivity. Qed.

Lemma partial_J_length col (jold : list cell) N K i :
  0 <= i <= K -> 0 <= N -> Z.of_nat (length jold) = N * K ->
  (forall k, 0 <= k < i -> Z.of_nat (length (col k)) = N) ->
  Z.of_nat (length (partial_J col jold N i)) = N * K.
Proof.
  intros Hi HN Hlen Hcol. unfold partial_J.
  rewrite length_app, length_fmap, length_drop, Nat2Z.inj_add.
  rewrite (columns_length col N i) by (try easy; lia). nia.
Qed.

Lemma partial_J_all col (jold : list cell) N K :
  0 <= K -> 0 <= N -> Z.of_nat (length jold) = N * K ->
  partial_J col jold N K = Some <$> columns col K.
Proof.
  intros HK HN Hlen. unfold partial_J.
  rewrite drop_ge by nia. now rewrite app_nil_r.
Qed.

(** Writing column [i] behind the first [i] columns. *)
Lemma partial_J_write col (jold : list cell) N K i :
  0 <= i < K -> 0 <= N -> Z.of_nat (length jold) = N * K ->
  (forall k, 0 <= k <= i -> Z.of_nat (length (col k)) = N) ->
  take (Z.to_nat (i * N)) (partial_J col jold N i) ++ (Some <$> col i)
    ++ drop (Z.to_nat (i * N) + length (col i)) (partial_J col jold N i)
  = partial_J col jold N (i + 1).
Proof.
  intros Hi HN Hlen Hcol. unfold partial_J.
  assert (Z.of_nat (length (columns col i)) = i * N) as Hl
    by (apply columns_length; try lia; intros; apply Hcol; lia).
  assert (length (Some <$> columns col i) = Z.to_nat (i * N)) as Hl'
    by (rewrite length_fmap; lia).
  rewrite take_app_length' by easy.
  rewrite drop_app_add' by easy.
  rewrite drop_drop, columns_succ, fmap_app, <- app_assoc by lia.
  do 3 f_equal. specialize (Hcol i). nia.
Qed.
(** ** The Jacobian estimators *)

Lemma model_output_length model ps N :
  0 <= N -> Z.of_nat (length (model_output model ps N)) = N.
Proof. intros HN. unfold model_output. rewrite length_fmap, length_seqZ. lia. Qed.

Lemma difference_column_length model ps N d i :
  0 <= N -> Z.of_nat (length (difference_column model ps N d i)) = N.
Proof.
  intros HN. unfold difference_column.
  rewrite length_zip_with.
  pose proof (model_output_length model ps N HN).
  pose proof (model_output_length model (perturb ps i d) N HN). lia.
Qed.

Lemma perturb_Some (ps : list float) i d x :
  ps !! Z.to_nat i = Some x -> perturb ps i d = <[Z.to_nat i := fadd x d]> ps.
Proof. intros H. unfold perturb. now rewrite H. Qed.

Lemma perturb_length ps i d : length (perturb ps i d) = length ps.
Proof. unfold perturb. destruct (ps !! Z.to_nat i); [apply length_insert | easy]. Qed.

Lemma restore_cell (ps : list float) n x y :
  ps !! n = Some x ->
  <[n := Some x]> (Some <$> <[n := y]> ps) = (Some <$> ps : list cell).
Proof.
  intros H. rewrite list_fmap_insert, list_insert_insert_eq.
  apply list_insert_id. now rewrite list_lookup_fmap, H.
Qed.

Ltac norm_state :=
  unfold set_mem; cbn [mem calls p_blk p_off ptr_add Z.to_nat drop fst snd].

Section Probe.

Variables (f : fit.evaluator) (model : list float -> Z -> float).
Variables (N K : Z) (jb pb b1 b2 : nat).
Hypothesis Hf : implements f K N model.
Hypothesis HN : 0 <= N.
Hypothesis HNK : N * K <= INT_MAX.
Hypothesis Hdistinct : jb <> pb /\ b1 <> pb /\ b1 <> jb
                       /\ b2 <> pb /\ b2 <> jb /\ b2 <> b1.

(** Evaluate the model on the current parameters into [b2] and write
    the difference with the baseline in [b1] to column [i]. *)
Lemma probe_ok {B} (k : unit -> Comp B) (m : gmap nat (list cell)) c
    (ps' base : list float) (nx J : list cell) i :
  0 <= i < K ->
  m !! pb = Some (Some <$> ps') -> Z.of_nat (length ps') = K ->
  m !! b2 = Some nx -> Z.of_nat (length nx) = N ->
  m !! b1 = Some (Some <$> base) -> Z.of_nat (length base) = N ->
  m !! jb = Some J -> Z.of_nat (length J) = N * K ->
  (fit.call f (Ptr b2 0) (Ptr pb 0) N ;;
   assert (int_ok (i * N)) ;;
   let* u := vector.sub (Ptr b2 0) (Ptr b1 0) (ptr_add (Ptr jb 0) (i * N)) N in
   k u)
    (State m c)
  = k tt
      (State (<[jb := take (Z.to_nat (i * N)) J
                      ++ (Some <$> zip_with fsub (model_output model ps' N) base)
                      ++ drop (Z.to_nat (i * N) + Z.to_nat N) J]>
               (<[b2 := Some <$> model_output model ps' N]> m))
            (c ++ [Some <$> ps'])).
Proof.
  intros Hi Hpb Hlen' Hb2 Hnx Hb1 Hbase HJ HJlen.
  destruct Hdistinct as (? & ? & ? & ? & ? & ?).
  pose proof (model_output_length model ps' N HN) as Hout.
  erewrite bind_Some.
  2:{ unfold fit.call. cbn [mem p_blk p_off calls]. rewrite Hpb.
      apply (Hf _ (Ptr b2 0) (Ptr pb 0) ps' nx); cbn [mem p_blk p_off calls]; easy. }
  norm_state.
  rewrite (bind_Some _ _ _ tt _)
    by (apply assert_true; unfold int_ok, INT_MAX in *; nia).
  erewrite bind_Some; [reflexivity |].
  unfold vector.sub.
  erewrite bind_Some.
  2:{ apply load_range_whole; norm_state.
      - now rewrite lookup_insert_eq.
      - easy.
      - symmetry; exact Hout. }
  erewrite bind_Some.
  2:{ apply (load_range_whole _ _ _ base); norm_state.
      - now rewrite lookup_insert_ne.
      - easy.
      - lia. }
  rewrite (store_range_ok _ _ J); norm_state.
  - rewrite length_zip_with. simpl (0 + _). change (Z.to_nat 0) with 0%nat.
    replace (length (model_output model ps' N) `min` length base)%nat
      with (Z.to_nat N) by lia.
    reflexivity.
  - now rewrite lookup_insert_ne by easy.
  - nia.
  - rewrite length_zip_with. nia.
Qed.

End Probe.
Ltac map_solve :=
  apply map_eq; intros ?k;
  repeat (rewrite lookup_insert || rewrite lookup_delete);
  repeat case_decide; subst; try congruence; try easy.

(** Overwriting the cells [a .. a + length vs - 1] of a block a second
    time. *)
Lemma overwrite_again (J : list cell) a (vs ws : list float) :
  (a + length vs <= length J)%nat -> length ws = length vs ->
  let X := take a J ++ (Some <$> vs) ++ drop (a + length vs) J in
  length X = length J
  /\ take (length vs) (drop a X) = Some <$> vs
  /\ take a X ++ (Some <$> ws) ++ drop (a + length ws) X
     = take a J ++ (Some <$> ws) ++ drop (a + length ws) J.
Proof.
  intros Hlen Hws X.
  assert (length (take a J) = a) as Ha by (rewrite length_take; lia).
  repeat split.
  - unfold X. rewrite !length_app, length_fmap, length_drop. lia.
  - unfold X. rewrite drop_app_length' by easy.
    rewrite take_app_length' by (now rewrite length_fmap). reflexivity.
  - unfold X. rewrite take_app_length' by easy. do 2 f_equal.
    rewrite Hws. rewrite drop_app_add' by easy.
    rewrite drop_app_length' by (now rewrite length_fmap). reflexivity.
Qed.

Section Runs.

Variables (f : fit.evaluator) (model : list float -> Z -> float).
Variables (N K : Z) (s0 : state) (jb pb b1 b2 : nat).
Variables (ps : list float) (jold : list cell).
Hypothesis Hf : implements f K N model.
Hypothesis HN : 0 <= N.
Hypothesis HNK : N * K <= INT_MAX.
Hypothesis Hps : mem s0 !! pb = Some (Some <$> ps).
Hypothesis HK : Z.of_nat (length ps) = K.
Hypothesis HJ : mem s0 !! jb = Some jold.
Hypothesis HJlen : Z.of_nat (length jold) = N * K.
Hypothesis Hne : jb <> pb.
Hypothesis Hb1 : mem s0 !! b1 = None.
Hypothesis Hb2 : mem s0 !! b2 = None.
Hypothesis Hb12 : b2 <> b1.

Lemma scratch_distinct :
  jb <> pb /\ b1 <> pb /\ b1 <> jb /\ b2 <> pb /\ b2 <> jb /\ b2 <> b1.
Proof. repeat split; congruence. Qed.

(** One pass of the loop of [jacobian]. *)
Lemma jacobian_column_ok (nx : list cell) i :
  0 <= i < K -> Z.of_nat (length nx) = N ->
  fit.jacobian_column (Ptr jb 0) f (Ptr pb 0) N fit.jacobian_eps
    (Ptr b1 0) (Ptr b2 0) i
    (loop_state s0 jb b1 b2 model ps
       (difference_column model ps N fit.jacobian_eps)
       (fun _ => fit.jacobian_eps) jold N nx i)
  = Some (tt,
      loop_state s0 jb b1 b2 model ps
        (difference_column model ps N fit.jacobian_eps)
        (fun _ => fit.jacobian_eps) jold N
        (Some <$> model_output model (perturb ps i fit.jacobian_eps) N) (i + 1)).
Proof.
  intros Hi Hnx.
  pose proof scratch_distinct as (? & ? & ? & ? & ? & ?).
  set (eps := fit.jacobian_eps).
  set (col := difference_column model ps N eps).
  destruct (lookup_lt_is_Some_2 ps (Z.to_nat i)) as [x Hx]; [lia |].
  unfold loop_state, fit.jacobian_column.
  set (m := <[jb := partial_J col jold N i]> _).
  assert (m !! pb = Some (Some <$> ps)) as Hmp
    by (subst m; now rewrite !lookup_insert_ne by easy).
  erewrite bind_Some.
  2:{ eapply load_ok; norm_state; [exact Hmp | lia |].
      now rewrite Z.add_0_l, list_lookup_fmap, Hx. }
  unfold fit.add_assign.
  erewrite bind_Some.
  2:{ erewrite bind_Some.
      2:{ eapply load_ok; norm_state; [exact Hmp | lia |].
          now rewrite Z.add_0_l, list_lookup_fmap, Hx. }
      eapply store_ok; norm_state; [exact Hmp |].
      rewrite length_fmap. lia. }
  norm_state. rewrite Z.add_0_l, <- list_fmap_insert, <- (perturb_Some ps i eps x Hx).
  set (ps' := perturb ps i eps).
  rewrite (probe_ok f model N K jb pb b1 b2 Hf HN HNK scratch_distinct _ _ _ ps'
             (model_output model ps N) nx (partial_J col jold N i)); try easy.
  - erewrite store_ok; norm_state.
    2:{ now rewrite !lookup_insert_ne, lookup_insert_eq by easy. }
    2:{ rewrite length_fmap. unfold ps'. rewrite perturb_length. lia. }
    do 3 f_equal.
    + rewrite Z.add_0_l.
      assert (<[Z.to_nat i := Some x]> (Some <$> ps') = Some <$> ps) as ->
        by (unfold ps'; rewrite (perturb_Some ps i eps x Hx);
            now apply restore_cell).
      change (zip_with fsub (model_output model ps' N) (model_output model ps N))
        with (col i).
      replace (Z.to_nat N) with (length (col i))
        by (pose proof (difference_column_length model ps N eps i HN);
            unfold col; lia).
      rewrite (partial_J_write col jold N K i); try easy;
        [| intros; apply difference_column_length; easy].
      subst m. map_solve.
    + rewrite <- app_assoc. f_equal. simpl. f_equal.
      replace (i + 1) with (Z.of_nat (S (Z.to_nat i))) by lia.
      rewrite seqZ_S, fmap_app. simpl.
      now replace (Z.of_nat (Z.to_nat i)) with i by lia.
  - now rewrite lookup_insert_eq.
  - unfold ps'. rewrite perturb_length. lia.
  - subst m. now rewrite lookup_insert_ne, lookup_insert_ne, lookup_insert_eq by easy.
  - subst m. now rewrite !lookup_insert_ne, lookup_insert_eq by easy.
  - now apply model_output_length.
  - subst m. now rewrite lookup_insert_ne, lookup_insert_eq by easy.
  - apply (partial_J_length col jold N K i); try easy; try lia.
    intros; apply difference_column_length; easy.
Qed.

(** One pass of the loop of [jacobian_v2]. *)
Lemma jacobian_v2_column_ok (nx : list cell) i :
  0 <= i < K -> Z.of_nat (length nx) = N ->
  fit.jacobian_v2_column (Ptr jb 0) f (Ptr pb 0) N (Ptr b1 0) (Ptr b2 0) i
    (loop_state s0 jb b1 b2 model ps (v2_column model ps N)
       (fun k => fit.perturbation (ps !!! Z.to_nat k)) jold N nx i)
  = Some (tt,
      loop_state s0 jb b1 b2 model ps (v2_column model ps N)
        (fun k => fit.perturbation (ps !!! Z.to_nat k)) jold N
        (Some <$> model_output model
                    (perturb ps i (fit.perturbation (ps !!! Z.to_nat i))) N)
        (i + 1)).
Proof.
  intros Hi Hnx.
  pose proof scratch_distinct as (? & ? & ? & ? & ? & ?).
  set (col := v2_column model ps N).
  destruct (lookup_lt_is_Some_2 ps (Z.to_nat i)) as [x Hx]; [lia |].
  rewrite (list_lookup_total_correct ps _ x Hx).
  set (dB := fit.perturbation x).
  unfold loop_state, fit.jacobian_v2_column.
  set (m := <[jb := partial_J col jold N i]> _).
  assert (m !! pb = Some (Some <$> ps)) as Hmp
    by (subst m; now rewrite !lookup_insert_ne by easy).
  assert (load (Ptr pb 0) i (State m (calls s0 ++ (Some <$> ps)
            :: ((fun k => Some <$> perturb ps k
                   (fit.perturbation (ps !!! Z.to_nat k))) <$> seqZ 0 i)))
          = Some (x, State m (calls s0 ++ (Some <$> ps)
            :: ((fun k => Some <$> perturb ps k
                   (fit.perturbation (ps !!! Z.to_nat k))) <$> seqZ 0 i)))) as Hload.
  { eapply load_ok; norm_state; [exact Hmp | lia |].
    now rewrite Z.add_0_l, list_lookup_fmap, Hx. }
  rewrite (bind_Some _ _ _ _ _ Hload). rewrite (bind_Some _ _ _ _ _ Hload).
  unfold fit.add_assign.
  erewrite bind_Some.
  2:{ rewrite (bind_Some _ _ _ _ _ Hload).
      eapply store_ok; norm_state; [exact Hmp |].
      rewrite length_fmap. lia. }
  norm_state. fold dB.
  rewrite Z.add_0_l, <- list_fmap_insert, <- (perturb_Some ps i dB x Hx).
  set (ps' := perturb ps i dB).
  pose proof (partial_J_length col jold N K i) as HPJ.
  assert (forall k, Z.of_nat (length (col k)) = N) as Hcol.
  { intros k. unfold col, v2_column. rewrite length_fmap.
    now apply difference_column_length. }
  rewrite (probe_ok f model N K jb pb b1 b2 Hf HN HNK scratch_distinct _ _ _ ps'
             (model_output model ps N) nx (partial_J col jold N i)); try easy.
  - set (diff := zip_with fsub (model_output model ps' N) (model_output model ps N)).
    assert (Z.of_nat (length diff) = N) as Hdiff
      by (apply (difference_column_length model ps N dB i HN)).
    replace (Z.to_nat N) with (length diff) by lia.
    destruct (overwrite_again (partial_J col jold N i) (Z.to_nat (i * N)) diff
                ((fun v => fmul v (fit.column_scale x)) <$> diff))
      as (HXlen & HXread & HXwrite).
    { assert (Z.of_nat (length (partial_J col jold N i)) = N * K) as HPJ'
        by (apply HPJ; try easy; lia).
      assert (0 <= i * N /\ i * N + N <= N * K) by nia. lia. }
    { now rewrite length_fmap. }
    unfold vector.mult.
    erewrite bind_Some.
    2:{ erewrite bind_Some.
        2:{ eapply (load_range_ok _ _ _ _ diff); norm_state.
            - now rewrite lookup_insert_eq.
            - nia.
            - lia.
            - rewrite HXlen. rewrite HPJ by (try easy; lia). nia.
            - rewrite Z.add_0_l. exact HXread. }
        eapply store_range_ok; norm_state.
        - now rewrite lookup_insert_eq.
        - nia.
        - rewrite HXlen, length_fmap, HPJ by (try easy; lia). nia. }
    norm_state. rewrite Z.add_0_l, HXwrite, insert_insert_eq.
    erewrite store_ok; norm_state.
    2:{ now rewrite !lookup_insert_ne, lookup_insert_eq by easy. }
    2:{ rewrite length_fmap. unfold ps'. rewrite perturb_length. lia. }
    do 3 f_equal.
    + rewrite Z.add_0_l.
      assert (<[Z.to_nat i := Some x]> (Some <$> ps') = Some <$> ps) as ->
        by (unfold ps'; rewrite (perturb_Some ps i dB x Hx);
            now apply restore_cell).
      assert ((fun v => fmul v (fit.column_scale x)) <$> diff = col i) as ->.
      { unfold col, v2_column. now rewrite (list_lookup_total_correct ps _ x Hx). }
      replace (length (col i)) with (Z.to_nat N) by (specialize (Hcol i); lia).
      replace (Z.to_nat N) with (length (col i)) by (specialize (Hcol i); lia).
      rewrite (partial_J_write col jold N K i); try easy.
      subst m. map_solve.
    + rewrite <- app_assoc. f_equal. simpl. f_equal.
      replace (i + 1) with (Z.of_nat (S (Z.to_nat i))) by lia.
      rewrite seqZ_S, fmap_app. simpl.
      replace (Z.of_nat (Z.to_nat i)) with i by lia.
      now rewrite (list_lookup_total_correct ps _ x Hx).
  - now rewrite lookup_insert_eq.
  - unfold ps'. rewrite perturb_length. lia.
  - subst m. now rewrite lookup_insert_ne, lookup_insert_ne, lookup_insert_eq by easy.
  - subst m. now rewrite !lookup_insert_ne, lookup_insert_eq by easy.
  - now apply model_output_length.
  - subst m. now rewrite lookup_insert_ne, lookup_insert_eq by easy.
  - apply HPJ; try easy; lia.
Qed.

(** The loop, for any body that takes [loop_state i] to
    [loop_state (i + 1)]. *)
Lemma loop_ok (body : Z -> Comp unit) col d (nx0 : list cell) :
  Z.of_nat (length nx0) = N ->
  (forall (nx : list cell) i, 0 <= i < K -> Z.of_nat (length nx) = N ->
     exists nx' : list cell, Z.of_nat (length nx') = N
       /\ body i (loop_state s0 jb b1 b2 model ps col d jold N nx i)
          = Some (tt, loop_state s0 jb b1 b2 model ps col d jold N nx' (i + 1))) ->
  exists nx : list cell, Z.of_nat (length nx) = N
    /\ for_range K body (loop_state s0 jb b1 b2 model ps col d jold N nx0 0)
       = Some (tt, loop_state s0 jb b1 b2 model ps col d jold N nx K).
Proof.
  intros Hnx0 Hbody.
  destruct (for_range_inv
              (fun i s => exists nx : list cell, Z.of_nat (length nx) = N
                 /\ s = loop_state s0 jb b1 b2 model ps col d jold N nx i)
              body K (loop_state s0 jb b1 b2 model ps col d jold N nx0 0))
    as (s' & Hrun & nx & Hnx & ->).
  - lia.
  - now exists nx0.
  - intros i s1 Hi (nx & Hnx & ->).
    destruct (Hbody nx i Hi Hnx) as (nx' & Hnx' & Hrun).
    exists (loop_state s0 jb b1 b2 model ps col d jold N nx' (i + 1)).
    split; [easy |]. now exists nx'.
  - now exists nx.
Qed.

(** The baseline evaluation, from the state the two allocations leave. *)
Lemma baseline_ok col d :
  fit.call f (Ptr b1 0) (Ptr pb 0) N
    (State (<[b2 := replicate (Z.to_nat N) None]>
              (<[b1 := replicate (Z.to_nat N) None]> (mem s0))) (calls s0))
  = Some (tt, loop_state s0 jb b1 b2 model ps col d jold N
                (replicate (Z.to_nat N) None) 0).
Proof.
  pose proof scratch_distinct as (? & ? & ? & ? & ? & ?).
  unfold fit.call. norm_state.
  rewrite !lookup_insert_ne, Hps by easy.
  rewrite (Hf _ (Ptr b1 0) (Ptr pb 0) ps (replicate (Z.to_nat N) None));
    norm_state; try easy.
  - unfold loop_state. rewrite partial_J_0. do 3 f_equal. map_solve.
  - now rewrite !lookup_insert_ne by easy.
  - now rewrite lookup_insert_ne, lookup_insert_eq by easy.
  - rewrite length_replicate. lia.
Qed.

(** [jacobian] from its two allocations to the end of the loop. *)
Lemma jacobian_fill_ok :
  exists nx : list cell,
    fit.jacobian_fill (Ptr jb 0) f (Ptr pb 0) N K fit.jacobian_eps
      (Ptr b1 0) (Ptr b2 0)
      (State (<[b2 := replicate (Z.to_nat N) None]>
                (<[b1 := replicate (Z.to_nat N) None]> (mem s0))) (calls s0))
    = Some (tt, loop_state s0 jb b1 b2 model ps
                  (difference_column model ps N fit.jacobian_eps)
                  (fun _ => fit.jacobian_eps) jold N nx K).
Proof.
  set (col := difference_column model ps N fit.jacobian_eps).
  set (d := fun _ : Z => fit.jacobian_eps).
  destruct (loop_ok (fit.jacobian_column (Ptr jb 0) f (Ptr pb 0) N fit.jacobian_eps
                       (Ptr b1 0) (Ptr b2 0)) col d (replicate (Z.to_nat N) None))
    as (nx & Hnx & Hloop).
  { rewrite length_replicate. lia. }
  { intros nx i Hi Hnx. eexists. split; [| now apply jacobian_column_ok].
    rewrite length_fmap. now apply model_output_length. }
  exists nx. unfold fit.jacobian_fill.
  rewrite (bind_Some _ _ _ _ _ (baseline_ok col d)). exact Hloop.
Qed.

(** The scaling pass and the two releases that end [jacobian]. *)
Lemma jacobian_finish_ok (nx : list cell) :
  (fit.jacobian_scale (Ptr jb 0) N K fit.jacobian_eps ;;
   cudaFree (Ptr b1 0) ;; cudaFree (Ptr b2 0) ;; ret tt)
    (loop_state s0 jb b1 b2 model ps
       (difference_column model ps N fit.jacobian_eps)
       (fun _ => fit.jacobian_eps) jold N nx K)
  = Some (tt,
      State (<[jb := Some <$> ((fun x => fmul x jacobian_factor)
                        <$> columns (difference_column model ps N fit.jacobian_eps) K)]>
               (mem s0))
            (calls s0 ++ (Some <$> ps)
               :: ((fun k => Some <$> perturb ps k fit.jacobian_eps) <$> seqZ 0 K))).
Proof.
  pose proof scratch_distinct as (? & ? & ? & ? & ? & ?).
  set (col := difference_column model ps N fit.jacobian_eps).
  unfold fit.jacobian_scale.
  erewrite bind_Some.
  2:{ rewrite (bind_Some _ _ _ tt _)
        by (apply assert_true; unfold int_ok, INT_MAX in *; nia).
      unfold vector.mult.
      erewrite bind_Some.
      2:{ apply (load_range_whole _ _ _ (columns col K)); norm_state; [| easy |].
          - unfold loop_state. norm_state. rewrite lookup_insert_eq.
            now rewrite (partial_J_all col jold N K) by (try easy; lia).
          - rewrite (columns_length col N K); try lia.
            intros; now apply difference_column_length. }
      eapply store_range_whole; norm_state; [| easy |].
      - unfold loop_state. norm_state. now rewrite lookup_insert_eq.
      - rewrite length_fmap.
        now rewrite (partial_J_all col jold N K), length_fmap by (try easy; lia). }
  unfold loop_state. norm_state. rewrite insert_insert_eq.
  erewrite bind_Some.
  2:{ eapply cudaFree_ok; norm_state; [easy |].
      now rewrite lookup_insert_ne, lookup_insert_ne, lookup_insert_eq by easy. }
  erewrite bind_Some.
  2:{ eapply cudaFree_ok; norm_state; [easy |].
      rewrite lookup_delete_ne by easy.
      now rewrite lookup_insert_ne, lookup_insert_eq by easy. }
  unfold ret. norm_state. do 3 f_equal. map_solve.
Qed.

(** [jacobian_v2] after its two allocations. *)
Lemma jacobian_v2_body_ok :
  (fit.call f (Ptr b1 0) (Ptr pb 0) N ;;
   for_range K (fit.jacobian_v2_column (Ptr jb 0) f (Ptr pb 0) N
                  (Ptr b1 0) (Ptr b2 0)) ;;
   cudaFree (Ptr b1 0) ;; cudaFree (Ptr b2 0) ;; ret tt)
    (State (<[b2 := replicate (Z.to_nat N) None]>
              (<[b1 := replicate (Z.to_nat N) None]> (mem s0))) (calls s0))
  = Some (tt,
      State (<[jb := Some <$> columns (v2_column model ps N) K]> (mem s0))
            (calls s0 ++ (Some <$> ps)
               :: ((fun k => Some <$> perturb ps k
                               (fit.perturbation (ps !!! Z.to_nat k)))
                     <$> seqZ 0 K))).
Proof.
  pose proof scratch_distinct as (? & ? & ? & ? & ? & ?).
  set (col := v2_column model ps N).
  set (d := fun k : Z => fit.perturbation (ps !!! Z.to_nat k)).
  destruct (loop_ok (fit.jacobian_v2_column (Ptr jb 0) f (Ptr pb 0) N
                       (Ptr b1 0) (Ptr b2 0)) col d (replicate (Z.to_nat N) None))
    as (nx & Hnx & Hloop).
  { rewrite length_replicate. lia. }
  { intros nx i Hi Hnx. eexists. split; [| now apply jacobian_v2_column_ok].
    rewrite length_fmap. now apply model_output_length. }
  rewrite (bind_Some _ _ _ _ _ (baseline_ok col d)).
  rewrite (bind_Some _ _ _ _ _ Hloop).
  unfold loop_state.
  erewrite bind_Some.
  2:{ eapply cudaFree_ok; norm_state; [easy |].
      now rewrite lookup_insert_ne, lookup_insert_ne, lookup_insert_eq by easy. }
  erewrite bind_Some.
  2:{ eapply cudaFree_ok; norm_state; [easy |].
      rewrite lookup_delete_ne by easy.
      now rewrite lookup_insert_ne, lookup_insert_eq by easy. }
  unfold ret. norm_state. do 3 f_equal.
  rewrite (partial_J_all col jold N K) by (try easy; lia).
  map_solve.
Qed.

End Runs.
Lemma model_output_lookup model ps N j :
  0 <= j < N -> model_output model ps N !! Z.to_nat j = Some (model ps j).
Proof.
  intros Hj. unfold model_output.
  rewrite list_lookup_fmap, lookup_seqZ_lt by lia. simpl. f_equal. f_equal. lia.
Qed.

Lemma difference_column_lookup model ps N d i j :
  0 <= j < N ->
  difference_column model ps N d i !! Z.to_nat j
  = Some (fsub (model (perturb ps i d) j) (model ps j)).
Proof.
  intros Hj. unfold difference_column.
  rewrite lookup_zip_with, !model_output_lookup by easy. reflexivity.
Qed.

Lemma peek_columns (m : gmap nat (list cell)) jb col N K i j v :
  m !! jb = Some (Some <$> columns col K) ->
  0 <= N -> (forall k, 0 <= k < K -> Z.of_nat (length (col k)) = N) ->
  0 <= i < K -> 0 <= j < N ->
  col i !! Z.to_nat j = Some v ->
  peek m (Ptr jb 0) (i * N + j) = Some v.
Proof.
  intros Hm HN Hcol Hi Hj Hv. unfold peek. norm_state. rewrite Hm. simpl.
  unfold block_load. rewrite decide_True by nia.
  rewrite Z.add_0_l, list_lookup_fmap.
  rewrite (columns_lookup col N K i j) by easy. now rewrite Hv.
Qed.

(** The two scratch blocks [jacobian] and [jacobian_v2] allocate. *)
Lemma scratch_blocks (s0 : state) (r : list cell) :
  let b1 := fresh (dom (mem s0)) in
  let b2 := fresh (dom (<[b1 := r]> (mem s0))) in
  mem s0 !! b1 = None /\ mem s0 !! b2 = None /\ b2 <> b1.
Proof.
  intros b1 b2.
  pose proof (fresh_block_free (mem s0)) as H1.
  pose proof (fresh_block_free (<[b1 := r]> (mem s0))) as H2.
  apply lookup_insert_None in H2 as [H2 H3]. repeat split; try easy.
Qed.

Lemma scratch_allocated N s0 :
  0 <= N ->
  let b1 := fresh (dom (mem s0)) in
  let b2 := fresh (dom (<[b1 := replicate (Z.to_nat N) None]> (mem s0))) in
  (let* r := cudaMalloc N in gpuErrchk (fst r) ;;
   let* r' := cudaMalloc N in gpuErrchk (fst r') ;; ret (snd r, snd r')) s0
  = Some ((Ptr b1 0, Ptr b2 0),
          State (<[b2 := replicate (Z.to_nat N) None]>
                   (<[b1 := replicate (Z.to_nat N) None]> (mem s0))) (calls s0)).
Proof.
  intros HN b1 b2.
  rewrite (bind_Some _ _ _ _ _ (cudaMalloc_ok N s0 HN)). norm_state.
  rewrite (bind_Some _ _ _ _ _ (gpuErrchk_ok _)).
  rewrite (bind_Some _ _ _ _ _ (cudaMalloc_ok N _ HN)). norm_state.
  now rewrite (bind_Some _ _ _ _ _ (gpuErrchk_ok _)).
Qed.

Section Estimators.

Variables (f : fit.evaluator) (model : list float -> Z -> float).
Variables (N K : Z) (s0 : state) (jb pb : nat).
Variables (ps : list float) (jold : list cell).
Hypothesis Hf : implements f K N model.
Hypothesis HN : 0 <= N.
Hypothesis HNK : N * K <= INT_MAX.
Hypothesis Hps : mem s0 !! pb = Some (Some <$> ps).
Hypothesis HK : Z.of_nat (length ps) = K.
Hypothesis HJ : mem s0 !! jb = Some jold.
Hypothesis HJlen : Z.of_nat (length jold) = N * K.
Hypothesis Hne : jb <> pb.

(** What [jacobian] leaves: the scaled differences in [J], one more
    recorded call per evaluation, and nothing else changed. *)
Lemma jacobian_run :
  fit.jacobian (Ptr jb 0) f (Ptr pb 0) N K s0
  = Some (tt,
      State (<[jb := Some <$> ((fun x => fmul x jacobian_factor)
                        <$> columns (difference_column model ps N fit.jacobian_eps) K)]>
               (mem s0))
            (calls s0 ++ (Some <$> ps)
               :: ((fun k => Some <$> perturb ps k fit.jacobian_eps) <$> seqZ 0 K))).
Proof.
  destruct (scratch_blocks s0 (replicate (Z.to_nat N) None)) as (Hb1 & Hb2 & Hb12).
  unfold fit.jacobian. cbv zeta.
  rewrite (bind_Some _ _ _ _ _ (cudaMalloc_ok N s0 HN)). norm_state.
  rewrite (bind_Some _ _ _ _ _ (gpuErrchk_ok _)).
  rewrite (bind_Some _ _ _ _ _ (cudaMalloc_ok N _ HN)). norm_state.
  rewrite (bind_Some _ _ _ _ _ (gpuErrchk_ok _)).
  destruct (jacobian_fill_ok f model N K s0 jb pb _ _ ps jold
              Hf HN HNK Hps HK HJ HJlen Hne Hb1 Hb2 Hb12) as (nx & Hfill).
  rewrite (bind_Some _ _ _ _ _ Hfill).
  eapply jacobian_finish_ok; eassumption.
Qed.

(** What [jacobian_v2] leaves. *)
Lemma jacobian_v2_run :
  fit.jacobian_v2 (Ptr jb 0) f (Ptr pb 0) N K s0
  = Some (tt,
      State (<[jb := Some <$> columns (v2_column model ps N) K]> (mem s0))
            (calls s0 ++ (Some <$> ps)
               :: ((fun k => Some <$> perturb ps k
                               (fit.perturbation (ps !!! Z.to_nat k)))
                     <$> seqZ 0 K))).
Proof.
  destruct (scratch_blocks s0 (replicate (Z.to_nat N) None)) as (Hb1 & Hb2 & Hb12).
  unfold fit.jacobian_v2.
  rewrite (bind_Some _ _ _ _ _ (cudaMalloc_ok N s0 HN)). norm_state.
  rewrite (bind_Some _ _ _ _ _ (gpuErrchk_ok _)).
  rewrite (bind_Some _ _ _ _ _ (cudaMalloc_ok N _ HN)). norm_state.
  rewrite (bind_Some _ _ _ _ _ (gpuErrchk_ok _)).
  eapply jacobian_v2_body_ok; eassumption.
Qed.

End Estimators.

Lemma v2_column_length model ps N i :
  0 <= N -> Z.of_nat (length (v2_column model ps N i)) = N.
Proof.
  intros HN. unfold v2_column. rewrite length_fmap.
  now apply difference_column_length.
Qed.

Lemma v2_column_lookup model (ps : list float) N i j :
  0 <= j < N ->
  v2_column model ps N i !! Z.to_nat j
  = Some (fmul (fsub (model (perturb ps i (fit.perturbation (ps !!! Z.to_nat i))) j)
                     (model ps j))
               (fit.column_scale (ps !!! Z.to_nat i))).
Proof.
  intros Hj. unfold v2_column.
  now rewrite list_lookup_fmap, difference_column_lookup.
Qed.

(** ** Claims about the Jacobian estimators *)

Lemma jacobian_eps_pow2 : fit.jacobian_eps = float_pow2 (-17).
Proof. reflexivity. Qed.

Lemma jacobian_factor_pow2 : jacobian_factor = float_pow2 17.
Proof. reflexivity. Qed.

(** C1: the fixed-epsilon estimator [jacobian(J, f, param, N, K)] uses the
    one perturbation [eps = 2^-17]; it calls [f] [K + 1] times, first on
    the parameters as given and then, for each [i], on the parameters
    with coordinate [i] alone moved by [eps]; at the end of the loop cell
    [i * N + j] of [J] holds [f(param + eps e_i)[j] - f(param)[j]], and
    the one scaling pass that follows multiplies every cell of the
    buffer by [float(1./eps) = 2^17]. *)
Theorem jacobian_fixed_epsilon
    (f : fit.evaluator) (model : list float -> Z -> float) (N K : Z)
    (s0 : state) (jb pb : nat) (ps : list float) (jold : list cell) :
  implements f K N model -> 0 <= N -> N * K <= INT_MAX ->
  mem s0 !! pb = Some (Some <$> ps) -> Z.of_nat (length ps) = K ->
  mem s0 !! jb = Some jold -> Z.of_nat (length jold) = N * K -> jb <> pb ->
  let eps := fit.jacobian_eps in
  let difference i j := fsub (model (perturb ps i eps) j) (model ps j) in
  eps = float_pow2 (-17) /\ jacobian_factor = float_pow2 17 /\
  exists (prev next : ptr) (s1 s2 s' : state),
    fit.jacobian (Ptr jb 0) f (Ptr pb 0) N K s0 = Some (tt, s')
    /\ mem s1 = <[p_blk next := replicate (Z.to_nat N) None]>
                  (<[p_blk prev := replicate (Z.to_nat N) None]> (mem s0))
    /\ calls s1 = calls s0
    /\ fit.jacobian_fill (Ptr jb 0) f (Ptr pb 0) N K eps prev next s1 = Some (tt, s2)
    /\ (fit.jacobian_scale (Ptr jb 0) N K eps ;;
        cudaFree prev ;; cudaFree next ;; ret tt) s2 = Some (tt, s')
    /\ calls s2 = calls s0 ++ (Some <$> ps)
                    :: ((fun i => Some <$> perturb ps i eps) <$> seqZ 0 K)
    /\ calls s' = calls s2
    /\ Z.of_nat (length (calls s')) = Z.of_nat (length (calls s0)) + (K + 1)
    /\ (forall i j, 0 <= i < K -> 0 <= j < N ->
          peek (mem s2) (Ptr jb 0) (i * N + j) = Some (difference i j))
    /\ (forall i j, 0 <= i < K -> 0 <= j < N ->
          peek (mem s') (Ptr jb 0) (i * N + j)
          = Some (fmul (difference i j) jacobian_factor)).
Proof.
  intros Hf HN HNK Hps HK HJ HJlen Hne eps difference.
  split; [reflexivity |]. split; [reflexivity |].
  destruct (scratch_blocks s0 (replicate (Z.to_nat N) None)) as (Hb1 & Hb2 & Hb12).
  set (b1 := fresh (dom (mem s0))) in *.
  set (b2 := fresh (dom (<[b1 := replicate (Z.to_nat N) None]> (mem s0)))) in *.
  set (col := difference_column model ps N eps).
  destruct (jacobian_fill_ok f model N K s0 jb pb b1 b2 ps jold
              Hf HN HNK Hps HK HJ HJlen Hne Hb1 Hb2 Hb12) as (nx & Hfill).
  pose proof (jacobian_run f model N K s0 jb pb ps jold
                Hf HN HNK Hps HK HJ HJlen Hne) as Hrun.
  assert (forall k, 0 <= k < K -> Z.of_nat (length (col k)) = N) as Hcol
    by (intros; now apply difference_column_length).
  exists (Ptr b1 0), (Ptr b2 0),
    (State (<[b2 := replicate (Z.to_nat N) None]>
              (<[b1 := replicate (Z.to_nat N) None]> (mem s0))) (calls s0)).
  eexists. eexists.
  split; [exact Hrun |]. split; [reflexivity |]. split; [reflexivity |].
  split; [exact Hfill |].
  split; [eapply jacobian_finish_ok; eassumption |].
  split; [reflexivity |]. split; [reflexivity |].
  split; [| split].
  - norm_state. rewrite length_app. simpl. rewrite length_fmap, length_seqZ. lia.
  - intros i j Hi Hj. unfold loop_state. norm_state.
    apply (peek_columns _ jb col N K i j); try easy.
    + rewrite lookup_insert_eq. f_equal. apply partial_J_all; try easy. lia.
    + now apply difference_column_lookup.
  - intros i j Hi Hj. norm_state.
    apply (peek_columns _ jb (fun k => (fun x => fmul x jacobian_factor) <$> col k)
             N K i j); try easy.
    + rewrite lookup_insert_eq. do 2 f_equal. unfold columns.
      fold col. generalize (seqZ 0 K) as l.
      induction l as [|a l IH]; [easy |]. simpl. rewrite fmap_app. now f_equal.
    + intros k Hk. rewrite length_fmap. now apply Hcol.
    + rewrite list_lookup_fmap.
      unfold col. now rewrite difference_column_lookup.
Qed.

Lemma jacobian_fixed_epsilon_witness :
  let eps := fit.jacobian_eps in
  let ps := [of_int 2; of_int 3] in
  let difference i j :=
    fsub (flinear_model (perturb ps i eps) j) (flinear_model ps j) in
  eps = float_pow2 (-17) /\ jacobian_factor = float_pow2 17 /\
  exists (prev next : ptr) (s1 s2 s' : state),
    fit.jacobian (Ptr 1 0) (fit.flinear 4) (Ptr 0 0) 5 2 affine_state = Some (tt, s')
    /\ mem s1 = <[p_blk next := replicate (Z.to_nat 5) None]>
                  (<[p_blk prev := replicate (Z.to_nat 5) None]> (mem affine_state))
    /\ calls s1 = calls affine_state
    /\ fit.jacobian_fill (Ptr 1 0) (fit.flinear 4) (Ptr 0 0) 5 2 eps prev next s1
       = Some (tt, s2)
    /\ (fit.jacobian_scale (Ptr 1 0) 5 2 eps ;;
        cudaFree prev ;; cudaFree next ;; ret tt) s2 = Some (tt, s')
    /\ calls s2 = calls affine_state ++ (Some <$> ps)
                    :: ((fun i => Some <$> perturb ps i eps) <$> seqZ 0 2)
    /\ calls s' = calls s2
    /\ Z.of_nat (length (calls s')) = Z.of_nat (length (calls affine_state)) + (2 + 1)
    /\ (forall i j, 0 <= i < 2 -> 0 <= j < 5 ->
          peek (mem s2) (Ptr 1 0) (i * 5 + j) = Some (difference i j))
    /\ (forall i j, 0 <= i < 2 -> 0 <= j < 5 ->
          peek (mem s') (Ptr 1 0) (i * 5 + j)
          = Some (fmul (difference i j) jacobian_factor)).
Proof.
  apply (jacobian_fixed_epsilon (fit.flinear 4) flinear_model 5 2 affine_state
           1%nat 0%nat [of_int 2; of_int 3] (replicate 10 None)).
  - apply flinear_implements; unfold INT_MAX; lia.
  - lia.
  - unfold INT_MAX; lia.
  - reflexivity.
  - reflexivity.
  - reflexivity.
  - reflexivity.
  - lia.
Defined.

(** C2: when either estimator returns, the parameter block is what it
    was at entry, cell for cell, although each probe of the evaluator saw
    it with one coordinate moved. *)
Theorem jacobian_restores_param
    (f : fit.evaluator) (model : list float -> Z -> float) (N K : Z)
    (s0 : state) (jb pb : nat) (ps : list float) (jold : list cell) :
  implements f K N model -> 0 <= N -> N * K <= INT_MAX ->
  mem s0 !! pb = Some (Some <$> ps) -> Z.of_nat (length ps) = K ->
  mem s0 !! jb = Some jold -> Z.of_nat (length jold) = N * K -> jb <> pb ->
  (exists s', fit.jacobian (Ptr jb 0) f (Ptr pb 0) N K s0 = Some (tt, s')
      /\ mem s' !! pb = mem s0 !! pb
      /\ (forall i, 0 <= i < K ->
            peek (mem s') (Ptr pb 0) i = peek (mem s0) (Ptr pb 0) i)
      /\ (forall i, 0 <= i < K ->
            calls s' !! (length (calls s0) + 1 + Z.to_nat i)%nat
            = Some (Some <$> perturb ps i fit.jacobian_eps)))
  /\
  (exists s', fit.jacobian_v2 (Ptr jb 0) f (Ptr pb 0) N K s0 = Some (tt, s')
      /\ mem s' !! pb = mem s0 !! pb
      /\ (forall i, 0 <= i < K ->
            peek (mem s') (Ptr pb 0) i = peek (mem s0) (Ptr pb 0) i)
      /\ (forall i, 0 <= i < K ->
            calls s' !! (length (calls s0) + 1 + Z.to_nat i)%nat
            = Some (Some <$> perturb ps i (fit.perturbation (ps !!! Z.to_nat i))))).
Proof.
  intros Hf HN HNK Hps HK HJ HJlen Hne.
  assert (forall (d : Z -> float) i, 0 <= i < K ->
            (calls s0 ++ (Some <$> ps)
               :: ((fun k => Some <$> perturb ps k (d k)) <$> seqZ 0 K))
              !! (length (calls s0) + 1 + Z.to_nat i)%nat
            = Some (Some <$> perturb ps i (d i))) as Hcalls.
  { intros d i Hi. rewrite <- Nat.add_assoc, lookup_app_r by lia.
    replace (length (calls s0) + (1 + Z.to_nat i) - length (calls s0))%nat
      with (S (Z.to_nat i)) by lia.
    simpl. rewrite list_lookup_fmap, lookup_seqZ_lt by lia. simpl.
    now replace (0 + Z.of_nat (Z.to_nat i)) with i by lia. }
  split.
  - eexists. split; [now apply (jacobian_run f model N K s0 jb pb ps jold) |].
    norm_state. split; [now rewrite lookup_insert_ne |]. split.
    + intros i Hi. unfold peek. norm_state. now rewrite lookup_insert_ne.
    + intros i Hi. apply (Hcalls (fun _ => fit.jacobian_eps) i Hi).
  - eexists. split; [now apply (jacobian_v2_run f model N K s0 jb pb ps jold) |].
    norm_state. split; [now rewrite lookup_insert_ne |]. split.
    + intros i Hi. unfold peek. norm_state. now rewrite lookup_insert_ne.
    + intros i Hi.
      apply (Hcalls (fun k => fit.perturbation (ps !!! Z.to_nat k)) i Hi).
Qed.

Lemma jacobian_restores_param_witness :
  let ps := [of_int 2; of_int 3] in
  (exists s', fit.jacobian (Ptr 1 0) (fit.flinear 4) (Ptr 0 0) 5 2 affine_state
              = Some (tt, s')
      /\ mem s' !! 0%nat = mem affine_state !! 0%nat
      /\ (forall i, 0 <= i < 2 ->
            peek (mem s') (Ptr 0 0) i = peek (mem affine_state) (Ptr 0 0) i)
      /\ (forall i, 0 <= i < 2 ->
            calls s' !! (length (calls affine_state) + 1 + Z.to_nat i)%nat
            = Some (Some <$> perturb ps i fit.jacobian_eps)))
  /\
  (exists s', fit.jacobian_v2 (Ptr 1 0) (fit.flinear 4) (Ptr 0 0) 5 2 affine_state
              = Some (tt, s')
      /\ mem s' !! 0%nat = mem affine_state !! 0%nat
      /\ (forall i, 0 <= i < 2 ->
            peek (mem s') (Ptr 0 0) i = peek (mem affine_state) (Ptr 0 0) i)
      /\ (forall i, 0 <= i < 2 ->
            calls s' !! (length (calls affine_state) + 1 + Z.to_nat i)%nat
            = Some (Some <$> perturb ps i (fit.perturbation (ps !!! Z.to_nat i))))).
Proof.
  apply (jacobian_restores_param (fit.flinear 4) flinear_model 5 2 affine_state
           1%nat 0%nat [of_int 2; of_int 3] (replicate 10 None)).
  - apply flinear_implements; unfold INT_MAX; lia.
  - lia.
  - unfold INT_MAX; lia.
  - reflexivity.
  - reflexivity.
  - reflexivity.
  - reflexivity.
  - lia.
Defined.
(** ** Claims the code does not meet *)

(** C9: [transpose] called in place on a [1 x 1] matrix returns with the
    snapshot block it allocated still live: the store has gained block 1,
    a copy of the input, and nothing released it.  (The two scratch
    blocks of the Jacobian estimators are released: [jacobian_run] and
    [jacobian_v2_run] leave the store of the entry with only [J]
    rewritten.) *)
Theorem transpose_in_place_keeps_snapshot :
  mem one_cell_state !! 1%nat = None
  /\ matrix.transpose 32 (Ptr 0 0) (Ptr 0 0) 1 1 one_cell_state
     = Some (tt, set_mem (<[1%nat := [Some (of_int 7)]]> (mem one_cell_state))
                   one_cell_state).
Proof. split; vm_compute; reflexivity. Qed.

(** C8, for any block size of at least two threads: with [N = 1] the
    second thread of [lincoef_] stores at [A[2]], outside the two cells
    of the output region; on a block of exactly two cells the store
    faults. *)
Lemma lincoef_one_sample_faults tpb (s : state) blk (old : list cell) :
  2 <= tpb <= INT_MAX ->
  mem s !! blk = Some old -> length old = 2%nat ->
  fit.lincoef tpb (Ptr blk 0) 1 s = None.
Proof.
  intros Htpb Hold Hlen. unfold fit.lincoef.
  rewrite (bind_Some _ _ _ tt s)
    by (apply assert_true; unfold int_ok, INT_MAX in *; lia).
  replace (Z.quot (1 + tpb - 1) tpb) with 1
    by (rewrite Z.quot_div_nonneg by lia;
        replace (1 + tpb - 1) with (1 * tpb) by lia;
        now rewrite Z.div_mul by lia).
  apply bind_None. unfold launch1, for_range.
  rewrite (seqZ_cons 0 1) by lia. rewrite (seqZ_nil _ (Z.pred 1)) by lia.
  unfold forM at 1. simpl foldM. apply bind_None.
  rewrite (seqZ_cons 0 tpb), (seqZ_cons (Z.succ 0) (Z.pred tpb)) by lia.
  unfold forM. simpl foldM.
  unfold fit.lincoef_.
  rewrite !thread_index_small by (unfold INT_MAX in *; lia).
  replace (tpb * 0 + 0) with 0 by lia.
  replace (tpb * 0 + Z.succ 0) with 1 by lia.
  rewrite decide_True by lia.
  destruct old as [|c0 [|c1 [|]]]; try discriminate.
  erewrite bind_Some.
  2:{ erewrite bind_Some.
      2:{ eapply store_ok; norm_state; [exact Hold | simpl; lia]. }
      eapply store_ok; norm_state; [now rewrite lookup_insert_eq | simpl; lia]. }
  apply bind_None. rewrite decide_False by lia.
  rewrite (bind_Some _ _ _ tt _) by reflexivity.
  unfold store, block_store. norm_state.
  rewrite lookup_insert_eq. simpl. reflexivity.
Qed.

(** C8: [lincoef] with [N = 1] and 256 threads per block.  On a block of
    the two cells of the output region it faults; on a larger block it
    returns with the 255 cells [A[2..256]] behind the region set to 1. *)
Theorem lincoef_writes_past_region :
  fit.lincoef 256 (Ptr 0 0) 1 (blank_state 2) = None
  /\ fit.lincoef 256 (Ptr 0 0) 1 (blank_state 300)
     = Some (tt, State (<[0%nat := Some (of_int 0) :: replicate 256 (Some (of_int 1))
                                     ++ replicate 43 None]> ∅) []).
Proof. split; vm_compute; reflexivity. Qed.

(** C5: [mult] on the [1 x 1] matrices [(3)] and [(5)] with [alpha = 1]
    and [beta = 2] leaves 15 in [C], whatever [C] held: [beta] multiplies
    the zeroed [C], not the product, which would be 30. *)
Theorem mult_beta_not_applied :
  matrix.mult (Ptr 0 0) (Ptr 1 0) (Ptr 2 0) (of_int 1) (of_int 2)
    false false 1 1 1 product_state
  = Some (tt, set_mem (<[2%nat := [Some (of_int 15)]]> (mem product_state))
                product_state)
  /\ fmul (of_int 2) (fmul (of_int 1) (fmul (of_int 3) (of_int 5))) = of_int 30
  /\ of_int 15 <> of_int 30.
Proof. repeat split; vm_compute; (reflexivity || discriminate). Qed.

(** C3: [jacobian_v2] on the affine model with both parameters [0.0].
    The step is the floor [(float)1e-30], as the two probes recorded
    show, but the scale of each column is [1/(0 * eps) = +infinity], and
    the four cells of [J] come out as NaN or infinite. *)
Theorem jacobian_v2_zero_parameter :
  fit.perturbation fzero = to_float (dec_lit 1 (-30))
  /\ fit.column_scale fzero = S754_infinity false
  /\ fit.jacobian_v2 (Ptr 1 0) (fit.flinear 256) (Ptr 0 0) 2 2 zero_param_state
     = Some (tt,
         State (<[1%nat := [Some S754_nan; Some (S754_infinity false);
                            Some (S754_infinity false); Some (S754_infinity false)]]>
                  (mem zero_param_state))
               [[Some fzero; Some fzero];
                [Some (to_float (dec_lit 1 (-30))); Some fzero];
                [Some fzero; Some (to_float (dec_lit 1 (-30)))]]).
Proof. repeat split; vm_compute; reflexivity. Qed.

(** The same for every model: the cells of the column of a parameter that
    is zero are NaN or infinite. *)
Lemma fmul_infinity x s :
  is_nan (fmul x (S754_infinity s)) || is_inf (fmul x (S754_infinity s)) = true.
Proof. now destruct x. Qed.

Lemma column_scale_zero s : fit.column_scale (S754_zero s) = S754_infinity s.
Proof. now destruct s. Qed.

Lemma v2_column_zero_parameter model (ps : list float) N i s :
  ps !! Z.to_nat i = Some (S754_zero s) ->
  Forall (fun v => is_nan v || is_inf v = true) (v2_column model ps N i).
Proof.
  intros Hp. unfold v2_column.
  rewrite (list_lookup_total_correct ps _ _ Hp), column_scale_zero.
  apply Forall_fmap, Forall_true. intros x. apply fmul_infinity.
Qed.

(** ** The step of the adaptive estimator *)

(** The step computed for a parameter of value [p]: the clamped one
    exactly when the guard holds, and never a zero. *)
Lemma perturbation_cases (p : float) :
  let dB := fmul p fit.jacobian_v2_eps in
  fit.perturbation p
  = (if dlt (to_double dB) (dec_lit 1 (-31))
        && dlt (SFopp (dec_lit 1 (-31))) (to_double dB)
     then to_float (dec_lit 1 (-30)) else dB)
  /\ is_zero (fit.perturbation p) = false.
Proof.
  intros dB. split; [reflexivity |].
  unfold fit.perturbation. fold dB.
  destruct (fit.too_small dB) eqn:Hsmall.
  - vm_compute. reflexivity.
  - destruct dB as [s | | |]; try reflexivity.
    destruct s; vm_compute in Hsmall; discriminate Hsmall.
Qed.

(** The probe of parameter [i] that [jacobian_v2] records. *)
Lemma jacobian_v2_probe (cs : list (list cell)) (ps : list float) K i p :
  0 <= i < K -> ps !! Z.to_nat i = Some p ->
  (cs ++ (Some <$> ps)
      :: ((fun k => Some <$> perturb ps k (fit.perturbation (ps !!! Z.to_nat k)))
            <$> seqZ 0 K))
    !! (length cs + 1 + Z.to_nat i)%nat
  = Some (Some <$> <[Z.to_nat i := fadd p (fit.perturbation p)]> ps).
Proof.
  intros Hi Hp. rewrite <- Nat.add_assoc, lookup_app_r by lia.
  replace (length cs + (1 + Z.to_nat i) - length cs)%nat
    with (S (Z.to_nat i)) by lia.
  simpl. rewrite list_lookup_fmap, lookup_seqZ_lt by lia. simpl.
  replace (0 + Z.of_nat (Z.to_nat i)) with i by lia.
  rewrite (list_lookup_total_correct _ _ _ Hp).
  now rewrite (perturb_Some ps i _ _ Hp).
Qed.

(** The claim as stated fails on a run: with the parameters [(2^-91, 3)]
    the product [param[0] * 2^-10 = 2^-101] is below [1e-30], and the
    probe of parameter 0 did not see [param[0] + 1e-30]. *)
Lemma jacobian_v2_not_clamped_below_1e30 :
  ~ (forall (s0 s' : state) (ps : list float) (p : float),
       mem s0 !! 0%nat = Some (Some <$> ps) -> ps !! 0%nat = Some p ->
       fit.jacobian_v2 (Ptr 1 0) (fit.flinear 4) (Ptr 0 0) 5 2 s0 = Some (tt, s') ->
       dlt (to_double (SFabs (fmul p fit.jacobian_v2_eps))) (dec_lit 1 (-30)) = true ->
       calls s' !! (length (calls s0) + 1)%nat
       = Some (Some <$> <[0%nat := fadd p (to_float (dec_lit 1 (-30)))]> ps)).
Proof.
  intros H.
  destruct (fit.jacobian_v2 (Ptr 1 0) (fit.flinear 4) (Ptr 0 0) 5 2 tiny_state)
    as [[[] s'] |] eqn:Hrun; [| vm_compute in Hrun; discriminate Hrun].
  assert (dlt (to_double (SFabs (fmul (float_pow2 (-91)) fit.jacobian_v2_eps)))
            (dec_lit 1 (-30)) = true) as Hbelow by (vm_compute; reflexivity).
  specialize (H tiny_state s' [float_pow2 (-91); of_int 3] (float_pow2 (-91))
                eq_refl eq_refl Hrun Hbelow).
  vm_compute in Hrun. injection Hrun as <-.
  vm_compute in H. discriminate H.
Qed.

(** C4, amended: in [jacobian_v2] the step of parameter [i] is
    [dB = param[i] * 2^-10], replaced by [(float)1e-30] when
    [-1e-31 < dB < 1e-31], both comparisons in double, and kept
    otherwise; the probe of parameter [i] evaluates the model on the
    parameters with [param[i] + step] in coordinate [i]; the step is
    never a zero. *)
Theorem jacobian_v2_step_clamp
    (f : fit.evaluator) (model : list float -> Z -> float) (N K : Z)
    (s0 : state) (jb pb : nat) (ps : list float) (jold : list cell) :
  implements f K N model -> 0 <= N -> N * K <= INT_MAX ->
  mem s0 !! pb = Some (Some <$> ps) -> Z.of_nat (length ps) = K ->
  mem s0 !! jb = Some jold -> Z.of_nat (length jold) = N * K -> jb <> pb ->
  fit.jacobian_v2_eps = float_pow2 (-10)
  /\ exists s' : state,
       fit.jacobian_v2 (Ptr jb 0) f (Ptr pb 0) N K s0 = Some (tt, s')
       /\ forall i p, 0 <= i < K -> ps !! Z.to_nat i = Some p ->
            let dB := fmul p fit.jacobian_v2_eps in
            let step :=
              if dlt (to_double dB) (dec_lit 1 (-31))
                 && dlt (SFopp (dec_lit 1 (-31))) (to_double dB)
              then to_float (dec_lit 1 (-30)) else dB in
            calls s' !! (length (calls s0) + 1 + Z.to_nat i)%nat
            = Some (Some <$> <[Z.to_nat i := fadd p step]> ps)
            /\ is_zero step = false.
Proof.
  intros Hf HN HNK Hps HK HJ HJlen Hne.
  split; [vm_compute; reflexivity |].
  eexists. split; [now apply (jacobian_v2_run f model N K s0 jb pb ps jold) |].
  intros i p Hi Hp dB step.
  destruct (perturbation_cases p) as [Hstep Hnz].
  fold dB in Hstep. fold step in Hstep.
  rewrite <- Hstep. split; [| exact Hnz].
  norm_state. now apply (jacobian_v2_probe (calls s0) ps K i p).
Qed.

Lemma jacobian_v2_step_clamp_witness :
  let ps := [float_pow2 (-91); of_int 3] in
  fit.jacobian_v2_eps = float_pow2 (-10)
  /\ exists s' : state,
       fit.jacobian_v2 (Ptr 1 0) (fit.flinear 4) (Ptr 0 0) 5 2 tiny_state = Some (tt, s')
       /\ forall i p, 0 <= i < 2 -> ps !! Z.to_nat i = Some p ->
            let dB := fmul p fit.jacobian_v2_eps in
            let step :=
              if dlt (to_double dB) (dec_lit 1 (-31))
                 && dlt (SFopp (dec_lit 1 (-31))) (to_double dB)
              then to_float (dec_lit 1 (-30)) else dB in
            calls s' !! (length (calls tiny_state) + 1 + Z.to_nat i)%nat
            = Some (Some <$> <[Z.to_nat i := fadd p step]> ps)
            /\ is_zero step = false.
Proof.
  apply (jacobian_v2_step_clamp (fit.flinear 4) flinear_model 5 2 tiny_state
           1%nat 0%nat [float_pow2 (-91); of_int 3] (replicate 10 None)).
  - apply flinear_implements; unfold INT_MAX; lia.
  - lia.
  - unfold INT_MAX; lia.
  - reflexivity.
  - reflexivity.
  - reflexivity.
  - reflexivity.
  - lia.
Defined.
(** ** Rounding *)

Lemma digits2_pos_size p : digits2_pos p = Pos.size p.
Proof. induction p; simpl; congruence. Qed.

Lemma Zdigits2_log2 m : 0 < m -> Zdigits2 m = Z.log2 m + 1.
Proof.
  destruct m as [|p|p]; try lia. intros _. simpl.
  rewrite digits2_pos_size. destruct p; simpl; lia.
Qed.

(** [d] is the number of binary digits of [m]. *)
Lemma Zdigits2_bounds m :
  0 < m -> 2 ^ (Zdigits2 m - 1) <= m < 2 ^ Zdigits2 m.
Proof.
  intros Hm. rewrite Zdigits2_log2 by easy.
  replace (Z.log2 m + 1 - 1) with (Z.log2 m) by lia.
  pose proof (Z.log2_spec m Hm). unfold Z.succ in *. lia.
Qed.

Lemma Zdigits2_unique m d :
  2 ^ (d - 1) <= m < 2 ^ d -> 0 < d -> Zdigits2 m = d.
Proof.
  intros Hb Hd.
  assert (0 < m) by (pose proof (Z.pow_pos_nonneg 2 (d - 1)); lia).
  rewrite Zdigits2_log2 by easy.
  assert (Z.log2 m = d - 1); [| lia].
  apply Z.log2_unique; [lia |]. now replace (Z.succ (d - 1)) with d by lia.
Qed.

Lemma Zdigits2_pos m : 0 < m -> 0 < Zdigits2 m.
Proof. intros Hm. rewrite Zdigits2_log2 by easy. pose proof (Z.log2_nonneg m). lia. Qed.

Lemma Zdigits2_le m n : 0 < m <= n -> Zdigits2 m <= Zdigits2 n.
Proof.
  intros H. rewrite !Zdigits2_log2 by lia.
  pose proof (Z.log2_le_mono m n). lia.
Qed.

(** The digits of [m / 2^n] when [n] is below the digits of [m]. *)
Lemma Zdigits2_div_pow2 m n :
  0 < m -> 0 <= n < Zdigits2 m ->
  0 < m / 2 ^ n /\ Zdigits2 (m / 2 ^ n) = Zdigits2 m - n.
Proof.
  intros Hm Hn. pose proof (Zdigits2_bounds m Hm) as [Hlo Hhi].
  set (d := Zdigits2 m) in *.
  assert (0 < 2 ^ n) by (apply Z.pow_pos_nonneg; lia).
  assert (2 ^ (d - n - 1) <= m / 2 ^ n < 2 ^ (d - n)) as Hq.
  { split.
    - apply Z.div_le_lower_bound; [easy |].
      rewrite <- Z.pow_add_r by lia. now replace (n + (d - n - 1)) with (d - 1) by lia.
    - apply Z.div_lt_upper_bound; [easy |].
      rewrite <- Z.pow_add_r by lia. now replace (n + (d - n)) with d by lia. }
  assert (0 < 2 ^ (d - n - 1)) by (apply Z.pow_pos_nonneg; lia).
  split; [lia |]. apply Zdigits2_unique; lia.
Qed.

(** Adding one to a mantissa adds at most one digit. *)
Lemma Zdigits2_succ m :
  0 < m -> Zdigits2 m <= Zdigits2 (m + 1) <= Zdigits2 m + 1.
Proof.
  intros Hm. split; [apply Zdigits2_le; lia |].
  pose proof (Zdigits2_bounds m Hm) as [_ Hhi].
  pose proof (Zdigits2_bounds (m + 1) ltac:(lia)) as [Hlo' _].
  destruct (Z.le_gt_cases (Zdigits2 (m + 1)) (Zdigits2 m + 1)) as [|Hgt]; [easy |].
  assert (2 ^ (Zdigits2 m + 1) <= 2 ^ (Zdigits2 (m + 1) - 1))
    by (apply Z.pow_le_mono_r; lia).
  pose proof (Zdigits2_pos m Hm).
  rewrite Z.pow_add_r in * by lia. lia.
Qed.

Lemma iter_pos_nat {A} (f : A -> A) p x :
  SpecFloat.iter_pos f p x = Nat.iter (Pos.to_nat p) f x.
Proof.
  revert x. induction p as [p IH | p IH |]; intros x; cbn [SpecFloat.iter_pos].
  - rewrite !IH, Pos2Nat.inj_xI.
    rewrite <- Nat.iter_succ_r, <- Nat.iter_add. f_equal. lia.
  - rewrite !IH, Pos2Nat.inj_xO.
    rewrite <- Nat.iter_add. f_equal. lia.
  - reflexivity.
Qed.

Lemma shr_1_m mrs : 0 <= shr_m mrs -> shr_m (shr_1 mrs) = shr_m mrs / 2.
Proof.
  destruct mrs as [m r s]. cbn [shr_m]. intros Hm.
  destruct m as [|[p|p|]|p]; cbn [shr_1 shr_m]; try lia; try reflexivity.
  - apply (Z.div_unique _ _ _ 1); lia.
  - apply (Z.div_unique _ _ _ 0); lia.
Qed.

Lemma iter_shr_1_m n mrs :
  0 <= shr_m mrs ->
  shr_m (Nat.iter n shr_1 mrs) = shr_m mrs / 2 ^ Z.of_nat n.
Proof.
  intros Hm. induction n as [|n IH].
  - simpl. now rewrite Z.div_1_r.
  - rewrite Nat.iter_succ, shr_1_m.
    + rewrite IH, Nat2Z.inj_succ, Z.pow_succ_r by lia.
      rewrite Z.div_div by lia. f_equal. lia.
    + rewrite IH. apply Z.div_pos; [easy |]. apply Z.pow_pos_nonneg; lia.
Qed.

(** What [shr] does to the mantissa and the exponent. *)
Lemma shr_spec mrs e n :
  0 <= shr_m mrs ->
  shr_m (fst (shr mrs e n)) = shr_m mrs / 2 ^ Z.max 0 n
  /\ snd (shr mrs e n) = e + Z.max 0 n.
Proof.
  intros Hm. destruct n as [|p|p]; simpl.
  - rewrite Z.div_1_r. lia.
  - rewrite iter_pos_nat, iter_shr_1_m by easy.
    rewrite positive_nat_Z. split; [reflexivity | lia].
  - rewrite Z.div_1_r. lia.
Qed.
Lemma shr_record_of_loc_m m l : shr_m (shr_record_of_loc m l) = m.
Proof. now destruct l as [|[]]. Qed.

Lemma round_nearest_even_bounds m l :
  m <= round_nearest_even m l <= m + 1.
Proof. destruct l as [|[]]; simpl; try lia. destruct (Z.even m); lia. Qed.

Section RoundingBounds.

Variables prec emax : Z.
Hypothesis Hprec : 0 < prec.

Lemma digits2_iter_xO k m :
  Zpos (digits2_pos (Nat.iter k xO m)) = Zpos (digits2_pos m) + Z.of_nat k.
Proof.
  induction k as [|k IH]; [simpl; lia |].
  rewrite Nat.iter_succ. cbn [digits2_pos]. rewrite Pos2Z.inj_succ, IH. lia.
Qed.

Lemma iter_shr_1_exact k m :
  Nat.iter k shr_1 (Build_shr_record (Zpos (Nat.iter k xO m)) false false)
  = Build_shr_record (Zpos m) false false.
Proof.
  induction k as [|k IH]; [reflexivity |].
  rewrite Nat.iter_succ_r. rewrite Nat.iter_succ. cbn [shr_1 orb]. exact IH.
Qed.

(** A number the format holds is rounded to itself, however many zero
    bits the mantissa handed to the rounding carries. *)
Lemma binary_round_aux_exact s m e k :
  bounded prec emax m e = true ->
  binary_round_aux prec emax s (Zpos (Nat.iter k xO m)) (e - Z.of_nat k) loc_Exact
  = S754_finite s m e.
Proof.
  intros Hb. apply andb_prop in Hb as [Hcan Hle].
  unfold canonical_mantissa in Hcan. apply Z.eqb_eq in Hcan.
  unfold binary_round_aux, shr_fexp at 1. cbn [Zdigits2].
  rewrite digits2_iter_xO.
  replace (Zpos (digits2_pos m) + Z.of_nat k + (e - Z.of_nat k))
    with (Zpos (digits2_pos m) + e) by lia.
  rewrite Hcan.
  replace (e - (e - Z.of_nat k)) with (Z.of_nat k) by lia.
  assert (shr (shr_record_of_loc (Zpos (Nat.iter k xO m)) loc_Exact)
            (e - Z.of_nat k) (Z.of_nat k)
          = (Build_shr_record (Zpos m) false false, e)) as ->.
  { destruct k as [|k].
    - simpl. f_equal. lia.
    - unfold shr. change (Z.of_nat (S k)) with (Zpos (Pos.of_succ_nat k)).
      cbv iota.
      rewrite iter_pos_nat, SuccNat2Pos.id_succ.
      cbn [shr_record_of_loc]. rewrite iter_shr_1_exact. f_equal. lia. }
  cbn [shr_m loc_of_shr_record round_nearest_even].
  unfold shr_fexp. cbn [Zdigits2]. rewrite Hcan, Z.sub_diag.
  cbn [shr shr_record_of_loc shr_m]. now rewrite Hle.
Qed.

End RoundingBounds.

Section RoundingSpec.

Variables prec emax : Z.
Hypothesis Hprec : 0 < prec.
Hypothesis Hemax : 2 <= emax.

(** Shifting to the exponent of the format keeps the position of the
    leading digit, unless the number is below the smallest subnormal,
    and leaves at most [prec] digits. *)
Lemma shr_fexp_spec m e l :
  0 < m -> emin prec emax < Zdigits2 m + e ->
  0 < shr_m (fst (shr_fexp prec emax m e l))
  /\ Zdigits2 (shr_m (fst (shr_fexp prec emax m e l)))
     + snd (shr_fexp prec emax m e l) = Zdigits2 m + e
  /\ Zdigits2 (shr_m (fst (shr_fexp prec emax m e l))) <= prec
  /\ snd (shr_fexp prec emax m e l) = Z.max e (fexp prec emax (Zdigits2 m + e)).
Proof.
  intros Hm Hno. unfold shr_fexp.
  set (n := fexp prec emax (Zdigits2 m + e) - e).
  destruct (shr_spec (shr_record_of_loc m l) e n) as [Hsm Hse].
  { rewrite shr_record_of_loc_m. lia. }
  rewrite Hsm, Hse, shr_record_of_loc_m.
  assert (0 <= Z.max 0 n < Zdigits2 m) as Hn.
  { pose proof (Zdigits2_pos m Hm). unfold n, fexp. lia. }
  destruct (Zdigits2_div_pow2 m (Z.max 0 n) Hm Hn) as [Hpos Hd].
  split; [easy |]. rewrite Hd. unfold n, fexp. lia.
Qed.

(** The sign, the magnitude and the mantissa width of a rounded number;
    it is finite when the magnitude is below the largest exponent. *)
Lemma binary_round_aux_spec s m e l :
  0 < m -> emin prec emax < Zdigits2 m + e ->
  match binary_round_aux prec emax s m e l with
  | S754_finite s' m' e' =>
      s' = s
      /\ Zdigits2 m + e <= Zdigits2 (Zpos m') + e' <= Zdigits2 m + e + 1
      /\ Zdigits2 (Zpos m') <= prec
  | S754_infinity s' =>
      s' = s /\ ~ (Zdigits2 m + e + 1 <= emax /\ e <= emax - prec)
  | _ => False
  end.
Proof.
  intros Hm Hno. unfold binary_round_aux.
  destruct (shr_fexp_spec m e l Hm Hno) as (H1 & H2 & _ & H1e).
  destruct (shr_fexp prec emax m e l) as [mrs1 e1]. cbn [fst snd] in H1, H2, H1e.
  set (m2 := round_nearest_even (shr_m mrs1) (loc_of_shr_record mrs1)).
  pose proof (round_nearest_even_bounds (shr_m mrs1) (loc_of_shr_record mrs1)) as Hr.
  fold m2 in Hr.
  assert (Zdigits2 (shr_m mrs1) <= Zdigits2 m2 <= Zdigits2 (shr_m mrs1) + 1) as Hd2.
  { destruct (Z.eq_dec m2 (shr_m mrs1)) as [-> | Hne]; [lia |].
    replace m2 with (shr_m mrs1 + 1) by lia. now apply Zdigits2_succ. }
  destruct (shr_fexp_spec m2 e1 loc_Exact) as (H3 & H4 & H5 & H3e); [lia | lia |].
  destruct (shr_fexp prec emax m2 e1 loc_Exact) as [mrs2 e2].
  cbn [fst snd] in H3, H4, H5, H3e.
  destruct (shr_m mrs2) as [|p|p]; try lia.
  destruct (e2 <=? emax - prec) eqn:Hle.
  - split; [reflexivity |]. split; lia.
  - split; [reflexivity |]. apply Z.leb_gt in Hle.
    unfold fexp, emin in *. lia.
Qed.

Lemma digits2_pos_iter_xO m p :
  Zpos (digits2_pos (Pos.iter xO m p)) = Zpos (digits2_pos m) + Zpos p.
Proof.
  rewrite Pos2Nat.inj_iter.
  change (nat_rect (fun _ => positive) m (fun _ => xO) (Pos.to_nat p))
    with (Nat.iter (Pos.to_nat p) xO m).
  rewrite digits2_iter_xO. lia.
Qed.

(** The same for [binary_round], which first widens a short mantissa. *)
Lemma binary_round_spec s m e :
  emin prec emax < Zpos (digits2_pos m) + e ->
  match binary_round prec emax s m e with
  | S754_finite s' m' e' =>
      s' = s
      /\ Zpos (digits2_pos m) + e <= Zdigits2 (Zpos m') + e'
         <= Zpos (digits2_pos m) + e + 1
      /\ Zdigits2 (Zpos m') <= prec
  | S754_infinity s' => s' = s /\ ~ (Zpos (digits2_pos m) + e + 1 <= emax)
  | _ => False
  end.
Proof.
  intros Hno. unfold binary_round, shl_align.
  set (D := Zpos (digits2_pos m) + e) in *.
  destruct (fexp prec emax D - e) as [|k|k] eqn:Hk.
  - pose proof (binary_round_aux_spec s (Zpos m) e loc_Exact ltac:(lia) Hno) as H.
    cbn [Zdigits2] in H. fold D in H.
    destruct (binary_round_aux prec emax s (Zpos m) e loc_Exact); try easy;
      destruct H as [-> H]; (split; [easy |]); unfold fexp, emin in *; lia.
  - pose proof (binary_round_aux_spec s (Zpos m) e loc_Exact ltac:(lia) Hno) as H.
    cbn [Zdigits2] in H. fold D in H.
    destruct (binary_round_aux prec emax s (Zpos m) e loc_Exact); try easy;
      destruct H as [-> H]; (split; [easy |]); unfold fexp, emin in *; lia.
  - assert (Zdigits2 (Zpos (Pos.iter xO m k)) + fexp prec emax D = D) as HD.
    { cbn [Zdigits2]. rewrite digits2_pos_iter_xO. unfold D in *. lia. }
    pose proof (binary_round_aux_spec s (Zpos (Pos.iter xO m k)) (fexp prec emax D)
                  loc_Exact ltac:(lia)) as H.
    rewrite HD in H. specialize (H Hno).
    destruct (binary_round_aux prec emax s (Zpos (Pos.iter xO m k))
                (fexp prec emax D) loc_Exact); try easy;
      destruct H as [-> H]; (split; [easy |]); unfold fexp, emin in *; lia.
Qed.

(** The quotient the division hands to the rounding. *)
Lemma SFdiv_core_binary_spec m1 e1 m2 e2 :
  0 < m1 -> 0 < m2 ->
  emin prec emax < Zdigits2 m1 + e1 - (Zdigits2 m2 + e2) ->
  let '(q, e', _) := SFdiv_core_binary prec emax m1 e1 m2 e2 in
  0 < q
  /\ Zdigits2 m1 + e1 - (Zdigits2 m2 + e2) <= Zdigits2 q + e'
     <= Zdigits2 m1 + e1 - (Zdigits2 m2 + e2) + 1
  /\ e' <= e1 - e2.
Proof.
  intros Hm1 Hm2 Hno. unfold SFdiv_core_binary.
  set (d1 := Zdigits2 m1) in *. set (d2 := Zdigits2 m2) in *.
  set (D := d1 + e1 - (d2 + e2)) in *.
  replace (d1 + e1 - (d2 + e2)) with D by reflexivity.
  set (e' := Z.min (fexp prec emax D) (e1 - e2)).
  set (sft := e1 - e2 - e').
  assert (0 <= sft) as Hs by (unfold sft, e'; lia).
  assert (0 <= d1 - 1 + sft - d2) as Hk.
  { unfold sft, e', fexp, D in *. lia. }
  set (m' := match sft with Z.pos _ => Z.shiftl m1 sft | 0 => m1 | Z.neg _ => 0 end).
  assert (m' = m1 * 2 ^ sft) as Hm'.
  { unfold m'. destruct sft as [|p|p] eqn:E; try lia.
    now rewrite Z.shiftl_mul_pow2 by lia. }
  pose proof (Zdigits2_bounds m1 Hm1) as [H1lo H1hi].
  pose proof (Zdigits2_bounds m2 Hm2) as [H2lo H2hi].
  fold d1 in H1lo, H1hi. fold d2 in H2lo, H2hi.
  pose proof (Zdigits2_pos m1 Hm1) as Hd1. pose proof (Zdigits2_pos m2 Hm2) as Hd2.
  fold d1 in Hd1. fold d2 in Hd2.
  assert (0 < 2 ^ sft) as Hp by (apply Z.pow_pos_nonneg; lia).
  assert (2 ^ (d1 - 1 + sft - d2) * m2 <= m') as Hlo.
  { rewrite Hm'.
    replace (2 ^ (d1 - 1 + sft - d2)) with (2 ^ (d1 - 1 + sft - d2)) by easy.
    assert (2 ^ (d1 - 1 + sft - d2) * 2 ^ d2 = 2 ^ (d1 - 1) * 2 ^ sft) as Heq.
    { rewrite <- !Z.pow_add_r by lia. f_equal. lia. }
    assert (0 < 2 ^ (d1 - 1 + sft - d2)) by (apply Z.pow_pos_nonneg; lia).
    nia. }
  assert (m' < 2 ^ (d1 + sft - d2 + 1) * m2) as Hhi.
  { rewrite Hm'.
    assert (2 ^ (d1 + sft - d2 + 1) * 2 ^ (d2 - 1) = 2 ^ d1 * 2 ^ sft) as Heq.
    { rewrite <- !Z.pow_add_r by lia. f_equal. lia. }
    assert (0 < 2 ^ (d1 + sft - d2 + 1)) by (apply Z.pow_pos_nonneg; lia).
    nia. }
  pose proof (Z_div_mod m' m2 ltac:(lia)) as Hdiv.
  destruct (Z.div_eucl m' m2) as [q r]. destruct Hdiv as [Hq Hr].
  assert (2 ^ (d1 - 1 + sft - d2) <= q < 2 ^ (d1 + sft - d2 + 1)) as Hqb.
  { split.
    - assert (2 ^ (d1 - 1 + sft - d2) * m2 < (q + 1) * m2) by lia. nia.
    - assert (q * m2 < 2 ^ (d1 + sft - d2 + 1) * m2) by lia. nia. }
  assert (0 < q).
  { assert (0 < 2 ^ (d1 - 1 + sft - d2)) by (apply Z.pow_pos_nonneg; lia). lia. }
  split; [easy |]. split; [| unfold e'; lia].
  assert (d1 + sft - d2 <= Zdigits2 q <= d1 + sft - d2 + 1) as Hdq.
  { pose proof (Zdigits2_bounds q ltac:(lia)) as [Hqlo Hqhi].
    split.
    - destruct (Z.le_gt_cases (d1 + sft - d2) (Zdigits2 q)) as [|Hgt]; [easy |].
      assert (2 ^ Zdigits2 q <= 2 ^ (d1 - 1 + sft - d2))
        by (apply Z.pow_le_mono_r; lia). lia.
    - destruct (Z.le_gt_cases (Zdigits2 q) (d1 + sft - d2 + 1)) as [|Hgt]; [easy |].
      assert (2 ^ (d1 + sft - d2 + 1) <= 2 ^ (Zdigits2 q - 1))
        by (apply Z.pow_le_mono_r; lia). lia. }
  unfold sft, D in *. lia.
Qed.

End RoundingSpec.
(** Multiplying by one changes nothing. *)
Lemma fmul_one_l x : valid32 x -> fmul fone x = x.
Proof.
  intros Hx. destruct x as [s | s | | s m e]; try (now destruct s); [reflexivity |].
  change fone with (S754_finite false 8388608 (-23)).
  unfold fmul, SFmul. cbn [xorb].
  change (8388608 * m)%positive with (Nat.iter 23 xO m).
  replace (-23 + e) with (e - Z.of_nat 23) by lia.
  now apply binary_round_aux_exact.
Qed.

(** ** cuBLAS on the store *)

Lemma tabulate_Some {A} n (g : Z -> option A) (h : Z -> A) :
  (forall i, 0 <= i < n -> g i = Some (h i)) ->
  tabulate n g = Some (h <$> seqZ 0 n).
Proof.
  intros Hg. unfold tabulate, seqZ. apply mapM_Some_2.
  rewrite <- list_fmap_compose.
  assert (Forall (fun i : nat => Z.of_nat i < n) (seq 0 (Z.to_nat n))) as Hall.
  { apply Forall_forall. intros i Hi. apply elem_of_seq in Hi. lia. }
  induction Hall as [|i l Hi Hl IH]; constructor; [| exact IH].
  simpl. rewrite (Hg (Z.of_nat i)) by (split; [apply Nat2Z.is_nonneg | exact Hi]).
  do 2 f_equal. apply Zplus_0_r_reverse.
Qed.

Lemma peek_ok (m : gmap nat (list cell)) blk (vs : list float) k v :
  m !! blk = Some (Some <$> vs) -> 0 <= k -> vs !! Z.to_nat k = Some v ->
  peek m (Ptr blk 0) k = Some v.
Proof.
  intros Hm Hk Hv. unfold peek. norm_state. rewrite Hm. simpl.
  unfold block_load. rewrite decide_True by lia.
  now rewrite Z.add_0_l, list_lookup_fmap, Hv.
Qed.

Lemma write_adjacent (b : list cell) off (vs ws : list float) :
  (off + length vs + length ws <= length b)%nat ->
  let b1 := take off b ++ (Some <$> vs) ++ drop (off + length vs) b in
  take (off + length vs) b1 ++ (Some <$> ws) ++ drop (off + length vs + length ws) b1
  = take off b ++ (Some <$> (vs ++ ws)) ++ drop (off + length (vs ++ ws)) b.
Proof.
  intros Hlen b1.
  assert (length (take off b) = off) as Ha by (rewrite length_take; lia).
  unfold b1.
  rewrite take_app_add' by easy.
  rewrite take_app_length' by (now rewrite length_fmap).
  rewrite <- Nat.add_assoc, drop_app_add' by easy.
  rewrite drop_app_add' by (now rewrite length_fmap).
  rewrite drop_drop, fmap_app, length_app, <- !app_assoc.
  now rewrite Nat.add_assoc.
Qed.

Lemma store_columns_ok cols (ld : Z) blk :
  0 <= ld -> Forall (fun col => Z.of_nat (length col) = ld) cols ->
  forall off (b : list cell) s,
    0 <= off -> mem s !! blk = Some b ->
    off + ld * Z.of_nat (length cols) <= Z.of_nat (length b) ->
    store_columns (Ptr blk off) ld cols s
    = Some (tt, set_mem (<[blk := take (Z.to_nat off) b ++ (Some <$> concat cols)
                                    ++ drop (Z.to_nat off + length (concat cols)) b]>
                           (mem s)) s).
Proof.
  intros Hld Hcols. induction Hcols as [|col rest Hcol Hrest IH];
    intros off b s Hoff Hb Hlen.
  - simpl. unfold ret. rewrite Nat.add_0_r, take_drop.
    now rewrite insert_id, set_mem_id.
  - cbn [store_columns length] in *.
    erewrite bind_Some.
    2:{ eapply store_range_ok; norm_state; [exact Hb | lia | nia]. }
    norm_state.
    change (ptr_add (Ptr blk off) ld) with (Ptr blk (off + ld)).
    erewrite (IH (off + ld)).
    2: lia.
    2:{ norm_state. now rewrite lookup_insert_eq. }
    2:{ rewrite !length_app, length_fmap, length_take, length_drop. nia. }
    norm_state. rewrite insert_insert_eq.
    replace (Z.to_nat (off + ld)) with (Z.to_nat off + length col)%nat by lia.
    rewrite (write_adjacent b (Z.to_nat off) col (concat rest)); [reflexivity |].
    assert (Z.of_nat (length (concat rest)) = ld * Z.of_nat (length rest)) as Hc.
    { clear -Hrest. induction Hrest as [|c r Hc Hr IH]; simpl; [lia |].
      rewrite length_app. lia. }
    nia.
Qed.

Lemma cudaMemset0_ok s blk (b : list cell) n :
  mem s !! blk = Some b -> Z.of_nat (length b) = n ->
  cudaMemset0 (Ptr blk 0) n s
  = Some (cudaSuccess,
          set_mem (<[blk := Some <$> replicate (Z.to_nat n) fzero]> (mem s)) s).
Proof.
  intros Hb Hn. unfold cudaMemset0, block_write_range. norm_state.
  rewrite Hb. rewrite decide_True by lia.
  rewrite decide_True by (rewrite length_replicate; lia).
  rewrite length_replicate. simpl.
  rewrite drop_ge by lia. now rewrite app_nil_r.
Qed.
Lemma diagonal_product_length d B M N :
  0 <= M -> 0 <= N -> Z.of_nat (length (diagonal_product d B M N)) = N * M.
Proof.
  intros HM HN. unfold diagonal_product.
  apply columns_length; try easy.
  intros k _. rewrite length_fmap, length_seqZ. lia.
Qed.

Lemma diagonal_product_lookup d B M N r c :
  0 <= r < M -> 0 <= c < N ->
  diagonal_product d B M N !! Z.to_nat (c * M + r)
  = Some (fmul (d !!! Z.to_nat r) (B !!! Z.to_nat (c * M + r))).
Proof.
  intros Hr Hc. unfold diagonal_product.
  rewrite (columns_lookup _ M N c r); try lia.
  - rewrite list_lookup_fmap, lookup_seqZ_lt by lia. simpl.
    now replace (0 + Z.of_nat (Z.to_nat r)) with r by lia.
  - intros k _. rewrite length_fmap, length_seqZ. lia.
Qed.

(** C7: [multD(diagVec, B, C, M, N)] leaves [diag(diagVec) B] in [C]:
    cell [(r, c)] of [C] is cell [(r, c)] of [B] times [diagVec[r]]; with
    a diagonal of ones [C] is [B], cell for cell. *)
Theorem multD_scales_rows (s : state) (ab bb cb : nat)
    (d B : list float) (cold : list cell) (M N : Z) :
  1 <= M -> 0 <= N -> M * N <= INT_MAX ->
  mem s !! ab = Some (Some <$> d) -> Z.of_nat (length d) = M ->
  mem s !! bb = Some (Some <$> B) -> Z.of_nat (length B) = M * N ->
  mem s !! cb = Some cold -> Z.of_nat (length cold) = M * N ->
  cb <> ab -> cb <> bb ->
  exists C : list float,
    matrix.multD (Ptr ab 0) (Ptr bb 0) (Ptr cb 0) M N s
    = Some (tt, set_mem (<[cb := Some <$> C]> (mem s)) s)
    /\ Z.of_nat (length C) = M * N
    /\ (forall r c, 0 <= r < M -> 0 <= c < N ->
          C !! Z.to_nat (c * M + r)
          = Some (fmul (d !!! Z.to_nat r) (B !!! Z.to_nat (c * M + r))))
    /\ (d = replicate (Z.to_nat M) fone -> Forall valid32 B -> C = B).
Proof.
  intros HM HN Hmax Hd Hdlen HB HBlen HC HClen Hca Hcb.
  exists (diagonal_product d B M N).
  split; [| split; [| split]].
  - unfold matrix.multD.
    rewrite (bind_Some _ _ _ CUBLAS_STATUS_SUCCESS s) by reflexivity.
    rewrite (bind_Some _ _ _ tt s) by reflexivity.
    rewrite (bind_Some _ _ _ tt s)
      by (apply assert_true; unfold int_ok, INT_MAX in *; nia).
    rewrite (bind_Some _ _ _ _ _ (cudaMemset0_ok s cb cold (M * N) HC HClen)).
    rewrite (bind_Some _ _ _ _ _ (gpuErrchk_ok _)).
    set (s1 := set_mem _ s).
    assert (mem s1 !! ab = Some (Some <$> d)) as Hd1
      by (unfold s1; norm_state; now rewrite lookup_insert_ne).
    assert (mem s1 !! bb = Some (Some <$> B)) as HB1
      by (unfold s1; norm_state; now rewrite lookup_insert_ne).
    erewrite bind_Some.
    2:{ unfold cublasSdgmm_left. rewrite decide_True by lia.
        erewrite (tabulate_Some N _
                    (fun c => (fun r => fmul (d !!! Z.to_nat r)
                                          (B !!! Z.to_nat (c * M + r))) <$> seqZ 0 M)).
        2:{ intros c Hc. apply tabulate_Some. intros r Hr.
            unfold dgmm_entry. rewrite decide_True by lia.
            destruct (lookup_lt_is_Some_2 d (Z.to_nat r)) as [x Hx]; [lia |].
            destruct (lookup_lt_is_Some_2 B (Z.to_nat (c * M + r))) as [y Hy]; [nia |].
            rewrite (peek_ok _ ab d (r * 1) x Hd1) by (try lia; now rewrite Z.mul_1_r).
            rewrite (peek_ok _ bb B (c * M + r) y HB1) by (try nia; easy).
            simpl. now rewrite (list_lookup_total_correct _ _ _ Hx),
                     (list_lookup_total_correct _ _ _ Hy). }
        erewrite bind_Some; [reflexivity |].
        eapply store_columns_ok.
        - lia.
        - apply Forall_fmap, Forall_true. intros c. simpl.
          rewrite length_fmap, length_seqZ. lia.
        - lia.
        - unfold s1. norm_state. now rewrite lookup_insert_eq.
        - rewrite !length_fmap, length_seqZ, length_replicate. nia. }
    rewrite assert_true by reflexivity.
    unfold s1. norm_state. rewrite insert_insert_eq. do 3 f_equal.
    fold (columns (fun c => (fun r => fmul (d !!! Z.to_nat r)
                                        (B !!! Z.to_nat (c * M + r))) <$> seqZ 0 M) N).
    fold (diagonal_product d B M N).
    rewrite drop_ge; [now rewrite app_nil_r |].
    pose proof (diagonal_product_length d B M N). rewrite length_fmap, length_replicate.
    nia.
  - rewrite diagonal_product_length; lia.
  - intros r c Hr Hc. now apply diagonal_product_lookup.
  - intros Hones Hvalid. apply list_eq. intros k.
    destruct (decide (Z.of_nat k < M * N)) as [Hk | Hk].
    + pose proof (Z.div_mod (Z.of_nat k) M ltac:(lia)) as Hdm.
      pose proof (Z.mod_pos_bound (Z.of_nat k) M ltac:(lia)) as Hmod.
      set (c := Z.of_nat k / M) in *. set (r := Z.of_nat k mod M) in *.
      assert (0 <= c < N) as Hc by nia.
      replace k with (Z.to_nat (c * M + r)) by lia.
      rewrite diagonal_product_lookup by easy.
      destruct (lookup_lt_is_Some_2 B (Z.to_nat (c * M + r))) as [y Hy]; [nia |].
      rewrite Hy, (list_lookup_total_correct _ _ _ Hy). f_equal.
      rewrite Hones, lookup_total_replicate_2 by lia.
      apply fmul_one_l.
      rewrite Forall_forall in Hvalid. apply Hvalid.
      eapply list_elem_of_lookup_2. exact Hy.
    + rewrite !lookup_ge_None_2; try easy; try lia.
      pose proof (diagonal_product_length d B M N). lia.
Qed.

Lemma multD_scales_rows_witness :
  exists C : list float,
    matrix.multD (Ptr 0 0) (Ptr 1 0) (Ptr 2 0) 3 2 diagonal_state
    = Some (tt, set_mem (<[2%nat := Some <$> C]> (mem diagonal_state)) diagonal_state)
    /\ C = [of_int 1; of_int 2; of_int 3; of_int 4; of_int 5; of_int 6].
Proof.
  destruct (multD_scales_rows diagonal_state 0%nat 1%nat 2%nat
              [fone; fone; fone]
              [of_int 1; of_int 2; of_int 3; of_int 4; of_int 5; of_int 6]
              (replicate 6 None) 3 2) as (C & Hrun & _ & _ & Hones).
  - lia.
  - lia.
  - unfold INT_MAX; lia.
  - reflexivity.
  - reflexivity.
  - reflexivity.
  - reflexivity.
  - reflexivity.
  - reflexivity.
  - lia.
  - lia.
  - exists C. split; [exact Hrun |].
    apply Hones; [reflexivity |]. repeat constructor.
Defined.
(** ** The transpose kernel *)

Lemma foldM_pure {A S} (f : A -> S -> Comp S) (g : S -> A -> S) l s :
  (forall a acc, a ∈ l -> f a acc s = Some (g acc a, s)) ->
  forall acc, foldM f l acc s = Some (foldl g acc l, s).
Proof.
  induction l as [|a l IH]; intros Hf acc; [reflexivity |].
  simpl. rewrite (bind_Some _ _ _ _ _ (Hf a acc ltac:(left))).
  apply IH. intros a' acc' Ha'. apply Hf. now right.
Qed.

(** A loop whose passes each rewrite one block of the store. *)
Lemma forM_update_block {A} (l : list A) (body : A -> Comp unit)
    (g : list cell -> A -> list cell) (P : list cell -> Prop) bb s :
  (forall a c, a ∈ l -> P c ->
     body a (set_mem (<[bb := c]> (mem s)) s)
     = Some (tt, set_mem (<[bb := g c a]> (mem s)) s) /\ P (g c a)) ->
  forall c0, P c0 ->
    forM l body (set_mem (<[bb := c0]> (mem s)) s)
    = Some (tt, set_mem (<[bb := foldl g c0 l]> (mem s)) s).
Proof.
  unfold forM. induction l as [|a l IH]; intros Hbody c0 HP; [reflexivity |].
  simpl. destruct (Hbody a c0 ltac:(left) HP) as [Hrun HP'].
  rewrite (bind_Some _ _ _ _ _ Hrun).
  apply IH; [| exact HP']. intros a' c Ha'. apply Hbody. now right.
Qed.

Lemma apply_write_length c w : length (apply_write c w) = length c.
Proof. destruct w as [[i v]|]; [apply length_insert | reflexivity]. Qed.

Lemma foldl_apply_write_length ws c :
  length (foldl apply_write c ws) = length c.
Proof.
  revert c. induction ws as [|w ws IH]; intros c; [reflexivity |].
  simpl. now rewrite IH, apply_write_length.
Qed.

(** After a run of stores in which the value stored depends on the index
    alone, a cell that some store hit holds the value of its index. *)
Lemma foldl_apply_write_lookup (F : Z -> float) ws (c : list cell) j :
  (forall i v, Some (i, v) ∈ ws -> 0 <= i /\ v = F i) ->
  (j < length c)%nat ->
  (exists v, Some (Z.of_nat j, v) ∈ ws) ->
  foldl apply_write c ws !! j = Some (Some (F (Z.of_nat j))).
Proof.
  induction ws as [|w ws IH] using rev_ind; intros HF Hj [v Hv].
  - now apply elem_of_nil in Hv.
  - rewrite foldl_app. simpl.
    destruct w as [[i x]|].
    + destruct (HF i x) as [Hi ->]; [apply elem_of_app; right; now left |].
      destruct (decide (Z.to_nat i = j)) as [<- | Hne].
      * cbn [apply_write]. rewrite list_lookup_insert_eq
          by (now rewrite foldl_apply_write_length).
        now rewrite Z2Nat.id.
      * cbn [apply_write]. rewrite list_lookup_insert_ne by easy.
        apply IH; try easy.
        -- intros i' v' Hin. apply HF. apply elem_of_app. now left.
        -- apply elem_of_app in Hv as [Hv | Hv]; [now exists v |].
           apply list_elem_of_singleton in Hv. injection Hv as Hij _. lia.
    + cbn [apply_write]. apply IH; try easy.
      * intros i' v' Hin. apply HF. apply elem_of_app. now left.
      * apply elem_of_app in Hv as [Hv | Hv]; [now exists v |].
        now apply list_elem_of_singleton in Hv.
Qed.

Lemma foldl_concat {A B} (g : A -> B -> A) (ls : list (list B)) a :
  foldl g a (concat ls) = foldl (fun acc l => foldl g acc l) a ls.
Proof.
  revert a. induction ls as [|l ls IH]; intros a; [reflexivity |].
  simpl. now rewrite foldl_app, IH.
Qed.
Lemma elem_of_pairs (a b n m : Z) :
  (a, b) ∈ (x ← seqZ 0 n; y ← seqZ 0 m; [(x, y)]) <-> 0 <= a < n /\ 0 <= b < m.
Proof.
  rewrite list_elem_of_bind. split.
  - intros (x & Hx & Hxn). apply list_elem_of_bind in Hx as (y & Hy & Hym).
    apply list_elem_of_singleton in Hy. injection Hy as -> ->.
    apply elem_of_seqZ in Hxn, Hym. lia.
  - intros [Ha Hb]. exists a. split; [| apply elem_of_seqZ; lia].
    apply list_elem_of_bind. exists b. split; [now left | apply elem_of_seqZ; lia].
Qed.

Lemma div_mod_index x y n :
  0 <= x < n -> 0 <= y -> (y * n + x) mod n = x /\ (y * n + x) / n = y.
Proof.
  intros Hx Hy. split.
  - symmetry. apply (Z.mod_unique _ _ y); lia.
  - symmetry. apply (Z.div_unique _ _ _ x); lia.
Qed.

Lemma u32_small z : 0 <= z <= INT_MAX -> u32 z = z.
Proof. intros H. unfold u32, INT_MAX in *. apply Z.mod_small. lia. Qed.

Section TransposeKernel.

Variables BLOCK_DIM M N : Z.
Hypothesis HBD : 0 < BLOCK_DIM.
Hypothesis HM : 0 <= M.
Hypothesis HN : 0 <= N.
Hypothesis HMN : M * N <= INT_MAX.
Hypothesis HMB : M - 1 + BLOCK_DIM <= INT_MAX.
Hypothesis HNB : N - 1 + BLOCK_DIM <= INT_MAX.

Variable la : list float.
Hypothesis Hla : Z.of_nat (length la) = M * N.

(** The blocks of the grid and the threads of a block. *)
Lemma in_threads ty tx :
  (ty, tx) ∈ matrix.threads BLOCK_DIM <-> 0 <= ty < BLOCK_DIM /\ 0 <= tx < BLOCK_DIM.
Proof. apply elem_of_pairs. Qed.

Lemma in_grid by_ bx :
  (by_, bx) ∈ matrix.grid_blocks (Z.quot (M - 1 + BLOCK_DIM) BLOCK_DIM)
                (Z.quot (N - 1 + BLOCK_DIM) BLOCK_DIM)
  <-> (0 <= by_ /\ by_ * BLOCK_DIM < N) /\ (0 <= bx /\ bx * BLOCK_DIM < M).
Proof.
  unfold matrix.grid_blocks. rewrite elem_of_pairs.
  assert (forall D b, 0 <= D -> D - 1 + BLOCK_DIM <= INT_MAX ->
            (0 <= b < Z.quot (D - 1 + BLOCK_DIM) BLOCK_DIM
             <-> 0 <= b /\ b * BLOCK_DIM < D)) as Hq.
  { intros D b HD _. rewrite Z.quot_div_nonneg by lia.
    pose proof (Z.div_mod (D - 1 + BLOCK_DIM) BLOCK_DIM ltac:(lia)) as Hdm.
    pose proof (Z.mod_pos_bound (D - 1 + BLOCK_DIM) BLOCK_DIM HBD) as Hmod.
    split; intros H; (split; [lia | nia]). }
  rewrite (Hq N by_ HN HNB), (Hq M bx HM HMB). reflexivity.
Qed.

(** Before the barrier. *)
Lemma transpose_read_ok s cb by_ bx ty tx block :
  mem s !! cb = Some (Some <$> la) ->
  (0 <= by_ /\ by_ * BLOCK_DIM < N) -> (0 <= bx /\ bx * BLOCK_DIM < M) ->
  0 <= ty < BLOCK_DIM -> 0 <= tx < BLOCK_DIM ->
  matrix.transpose_read BLOCK_DIM (Ptr cb 0) M N bx by_ (ty, tx) block s
  = Some (thread_read BLOCK_DIM la M N (by_, bx) block (ty, tx), s).
Proof.
  intros Hcb Hby Hbx Hty Htx. unfold matrix.transpose_read, thread_read.
  rewrite !(u32_small (_ * BLOCK_DIM + _)) by nia.
  rewrite (u32_small M), (u32_small N) by nia.
  destruct (decide (bx * BLOCK_DIM + tx < M /\ by_ * BLOCK_DIM + ty < N))
    as [[Hx Hy] | Hg]; [| reflexivity].
  rewrite u32_small by nia.
  destruct (lookup_lt_is_Some_2 la
              (Z.to_nat ((by_ * BLOCK_DIM + ty) * M + (bx * BLOCK_DIM + tx))))
    as [v Hv]; [nia |].
  erewrite bind_Some.
  2:{ eapply load_ok; norm_state; [exact Hcb | nia |].
      now rewrite Z.add_0_l, list_lookup_fmap, Hv. }
  now rewrite (list_lookup_total_correct _ _ _ Hv).
Qed.

Lemma tile_lookup b l block ty tx :
  (ty, tx) ∈ l ->
  snd b * BLOCK_DIM + tx < M /\ fst b * BLOCK_DIM + ty < N ->
  foldl (thread_read BLOCK_DIM la M N b) block l !! (ty, tx)
  = Some (la !!! Z.to_nat ((fst b * BLOCK_DIM + ty) * M + (snd b * BLOCK_DIM + tx))).
Proof.
  destruct b as [by_ bx]. cbn [fst snd].
  induction l as [|t l IH] using rev_ind; intros Hin Hg.
  - now apply elem_of_nil in Hin.
  - rewrite foldl_app. simpl. destruct t as [ty' tx'].
    destruct (decide ((ty', tx') = (ty, tx))) as [Heq | Hne].
    + injection Heq as -> ->. unfold thread_read.
      rewrite decide_True by easy. now rewrite lookup_insert_eq.
    + assert (foldl (thread_read BLOCK_DIM la M N (by_, bx)) block l !! (ty, tx)
              = Some (la !!! Z.to_nat ((by_ * BLOCK_DIM + ty) * M
                                       + (bx * BLOCK_DIM + tx)))) as Hrec.
      { apply IH; [| easy]. apply elem_of_app in Hin as [Hin | Hin]; [easy |].
        apply list_elem_of_singleton in Hin. congruence. }
      unfold thread_read at 1. case_decide; [| exact Hrec].
      now rewrite lookup_insert_ne.
Qed.

(** After the barrier. *)
Lemma transpose_write_ok s bb (c : list cell) by_ bx ty tx :
  Z.of_nat (length c) = M * N ->
  (0 <= by_ /\ by_ * BLOCK_DIM < N) -> (0 <= bx /\ bx * BLOCK_DIM < M) ->
  0 <= ty < BLOCK_DIM -> 0 <= tx < BLOCK_DIM ->
  matrix.transpose_write BLOCK_DIM (Ptr bb 0) M N bx by_
    (foldl (thread_read BLOCK_DIM la M N (by_, bx)) ∅ (matrix.threads BLOCK_DIM))
    (ty, tx) (set_mem (<[bb := c]> (mem s)) s)
  = Some (tt, set_mem (<[bb := apply_write c
                                  (thread_write BLOCK_DIM la M N (by_, bx) (ty, tx))]>
                         (mem s)) s).
Proof.
  intros Hc Hby Hbx Hty Htx. unfold matrix.transpose_write, thread_write.
  rewrite !(u32_small (_ * BLOCK_DIM + _)) by nia.
  rewrite (u32_small M), (u32_small N) by nia.
  destruct (decide (by_ * BLOCK_DIM + tx < N /\ bx * BLOCK_DIM + ty < M))
    as [[Hx Hy] | Hg]; [| reflexivity].
  rewrite u32_small by nia.
  rewrite (tile_lookup (by_, bx) _ _ tx ty); cbn [fst snd];
    [| now apply in_threads | easy].
  erewrite store_ok; norm_state.
  - rewrite insert_insert_eq, Z.add_0_l. reflexivity.
  - now rewrite lookup_insert_eq.
  - nia.
Qed.

(** One block of the grid. *)
Lemma transpose_block_ok s cb bb (c : list cell) by_ bx :
  mem s !! cb = Some (Some <$> la) -> cb <> bb ->
  Z.of_nat (length c) = M * N ->
  (0 <= by_ /\ by_ * BLOCK_DIM < N) -> (0 <= bx /\ bx * BLOCK_DIM < M) ->
  matrix.transpose_ BLOCK_DIM (Ptr cb 0) (Ptr bb 0) M N (by_, bx)
    (set_mem (<[bb := c]> (mem s)) s)
  = Some (tt, set_mem (<[bb := foldl apply_write c
                                  (thread_write BLOCK_DIM la M N (by_, bx)
                                     <$> matrix.threads BLOCK_DIM)]> (mem s)) s).
Proof.
  intros Hcb Hne Hc Hby Hbx. unfold matrix.transpose_.
  erewrite bind_Some.
  2:{ apply (foldM_pure _ (thread_read BLOCK_DIM la M N (by_, bx))).
      intros [ty tx] acc Hin. apply in_threads in Hin as [Hty Htx].
      apply (transpose_read_ok _ cb); try easy.
      norm_state. now rewrite lookup_insert_ne. }
  rewrite foldl_fmap.
  apply (forM_update_block _ _ _ (fun c => Z.of_nat (length c) = M * N)); [| easy].
  intros [ty tx] c' Hin Hc'. apply in_threads in Hin as [Hty Htx].
  split; [now apply transpose_write_ok |].
  now rewrite apply_write_length.
Qed.

End TransposeKernel.
Lemma transposed_length la M N :
  0 <= M * N -> Z.of_nat (length (transposed la M N)) = M * N.
Proof. intros H. unfold transposed. rewrite length_fmap, length_seqZ. lia. Qed.

Lemma transposed_lookup la M N j :
  0 <= j < M * N ->
  transposed la M N !! Z.to_nat j = Some (la !!! Z.to_nat ((j mod N) * M + j / N)).
Proof.
  intros Hj. unfold transposed.
  rewrite list_lookup_fmap, lookup_seqZ_lt by lia. simpl.
  now replace (0 + Z.of_nat (Z.to_nat j)) with j by lia.
Qed.

(** Transposing twice gives the matrix back. *)
Lemma transposed_involutive (la : list float) M N :
  0 <= M -> 0 <= N -> Z.of_nat (length la) = M * N ->
  transposed (transposed la M N) N M = la.
Proof.
  intros HM HN Hla. apply list_eq. intros k.
  destruct (decide (Z.of_nat k < M * N)) as [Hk | Hk].
  - assert (0 < M) by nia. assert (0 < N) by nia.
    replace k with (Z.to_nat (Z.of_nat k)) by lia.
    set (j := Z.of_nat k) in *.
    rewrite transposed_lookup by lia.
    pose proof (Z.div_mod j M ltac:(lia)) as Hdm.
    pose proof (Z.mod_pos_bound j M ltac:(lia)) as Hmod.
    assert (0 <= j / M < N) as Hq by (split; [apply Z.div_pos; lia | nia]).
    destruct (div_mod_index (j / M) (j mod M) N Hq ltac:(lia)) as [Hm Hd].
    assert (0 <= j mod M * N + j / M < M * N) as Hrange by nia.
    rewrite (list_lookup_total_correct _ _ _ (transposed_lookup la M N _ Hrange)).
    rewrite Hm, Hd.
    replace (j / M * M + j mod M) with j by lia.
    destruct (lookup_lt_is_Some_2 la (Z.to_nat j)) as [v Hv]; [lia |].
    now rewrite Hv, (list_lookup_total_correct _ _ _ Hv).
  - rewrite !lookup_ge_None_2; try easy; try lia.
    pose proof (transposed_length (transposed la M N) N M). lia.
Qed.

Section TransposeRun.

Variables BLOCK_DIM M N : Z.
Hypothesis HBD : 0 < BLOCK_DIM.
Hypothesis HM : 0 <= M.
Hypothesis HN : 0 <= N.
Hypothesis HMN : M * N <= INT_MAX.
Hypothesis HMB : M - 1 + BLOCK_DIM <= INT_MAX.
Hypothesis HNB : N - 1 + BLOCK_DIM <= INT_MAX.

Variable la : list float.
Hypothesis Hla : Z.of_nat (length la) = M * N.

(** All the stores of the grid, in the order of the model. *)
Lemma grid_writes (c0 : list cell) :
  Z.of_nat (length c0) = M * N ->
  foldl (fun c b => foldl apply_write c
                      (thread_write BLOCK_DIM la M N b <$> matrix.threads BLOCK_DIM))
    c0 (matrix.grid_blocks (Z.quot (M - 1 + BLOCK_DIM) BLOCK_DIM)
          (Z.quot (N - 1 + BLOCK_DIM) BLOCK_DIM))
  = Some <$> transposed la M N.
Proof.
  intros Hc0.
  set (grid := matrix.grid_blocks _ _).
  set (h := fun b => thread_write BLOCK_DIM la M N b <$> matrix.threads BLOCK_DIM).
  transitivity (foldl apply_write c0 (concat (h <$> grid))).
  { now rewrite foldl_concat, foldl_fmap. }
  assert (forall w, w ∈ concat (h <$> grid) <->
            exists by_ bx ty tx, (by_, bx) ∈ grid
              /\ (ty, tx) ∈ matrix.threads BLOCK_DIM
              /\ w = thread_write BLOCK_DIM la M N (by_, bx) (ty, tx)) as Hin.
  { intros w. rewrite list_elem_of_In, in_concat. split.
    - intros (l & Hl & Hw). apply list_elem_of_In, list_elem_of_fmap in Hl
        as ([by_ bx] & -> & Hb).
      apply list_elem_of_In, list_elem_of_fmap in Hw as ([ty tx] & -> & Ht).
      now exists by_, bx, ty, tx.
    - intros (by_ & bx & ty & tx & Hb & Ht & ->).
      exists (h (by_, bx)). split; apply list_elem_of_In.
      + now apply list_elem_of_fmap_2.
      + unfold h. now apply (list_elem_of_fmap_2 _ _ (ty, tx)). }
  apply list_eq. intros k.
  destruct (decide (Z.of_nat k < M * N)) as [Hk | Hk].
  - set (j := Z.of_nat k) in *.
    assert (0 < N) by nia.
    pose proof (Z.div_mod j N ltac:(lia)) as Hdm.
    pose proof (Z.mod_pos_bound j N ltac:(lia)) as Hmod.
    assert (0 <= j / N < M) as Hq by (split; [apply Z.div_pos; lia | nia]).
    rewrite (foldl_apply_write_lookup
               (fun i => la !!! Z.to_nat ((i mod N) * M + i / N))); [| | lia |].
    + rewrite list_lookup_fmap.
      change (Z.of_nat k) with j.
      replace k with (Z.to_nat j) by lia.
      now rewrite transposed_lookup by lia.
    + intros i v Hw. apply Hin in Hw as (by_ & bx & ty & tx & Hb & Ht & Hw).
      apply in_grid in Hb as [[Hby0 Hby] [Hbx0 Hbx]]; try easy.
      apply in_threads in Ht as [Hty Htx].
      unfold thread_write in Hw. case_decide as Hg; [| discriminate].
      injection Hw as -> ->. destruct Hg as [Hgx Hgy].
      destruct (div_mod_index (by_ * BLOCK_DIM + tx) (bx * BLOCK_DIM + ty) N)
        as [Hm Hd]; [nia | nia |].
      split; [nia |]. now rewrite Hm, Hd.
    + set (y := j / N) in *. set (x := j mod N) in *.
      pose proof (Z.div_mod y BLOCK_DIM ltac:(lia)).
      pose proof (Z.mod_pos_bound y BLOCK_DIM HBD).
      pose proof (Z.div_mod x BLOCK_DIM ltac:(lia)).
      pose proof (Z.mod_pos_bound x BLOCK_DIM HBD).
      assert (0 <= y / BLOCK_DIM) by (apply Z.div_pos; lia).
      assert (0 <= x / BLOCK_DIM) by (apply Z.div_pos; lia).
      eexists. apply Hin.
      exists (x / BLOCK_DIM), (y / BLOCK_DIM), (y mod BLOCK_DIM), (x mod BLOCK_DIM).
      split; [apply in_grid; try easy; nia |].
      split; [apply in_threads; lia |].
      unfold thread_write. rewrite decide_True by lia.
      f_equal. f_equal. nia.
  - rewrite !lookup_ge_None_2; try easy.
    + rewrite length_fmap. pose proof (transposed_length la M N). nia.
    + rewrite foldl_apply_write_length. lia.
Qed.

(** The launch of [transpose_] from block [cb] into block [bb]. *)
Lemma transpose_grid_ok s cb bb (c0 : list cell) :
  mem s !! cb = Some (Some <$> la) -> cb <> bb ->
  mem s !! bb = Some c0 -> Z.of_nat (length c0) = M * N ->
  forM (matrix.grid_blocks (Z.quot (M - 1 + BLOCK_DIM) BLOCK_DIM)
          (Z.quot (N - 1 + BLOCK_DIM) BLOCK_DIM))
    (matrix.transpose_ BLOCK_DIM (Ptr cb 0) (Ptr bb 0) M N) s
  = Some (tt, set_mem (<[bb := Some <$> transposed la M N]> (mem s)) s).
Proof.
  intros Hcb Hne Hbb Hc0.
  rewrite <- (grid_writes c0 Hc0).
  rewrite <- (set_mem_id s) at 1. rewrite <- (insert_id (mem s) bb c0 Hbb) at 1.
  apply (forM_update_block _ _ _ (fun c => Z.of_nat (length c) = M * N)); [| easy].
  intros [by_ bx] c Hin Hc. apply in_grid in Hin as [Hby Hbx]; try easy.
  split; [now apply transpose_block_ok |].
  now rewrite foldl_apply_write_length.
Qed.

(** [transpose(A, B, M, N)] with [A] and [B] in different blocks. *)
Lemma transpose_out_of_place s ab bb (c0 : list cell) :
  mem s !! ab = Some (Some <$> la) -> ab <> bb ->
  mem s !! bb = Some c0 -> Z.of_nat (length c0) = M * N ->
  matrix.transpose BLOCK_DIM (Ptr ab 0) (Ptr bb 0) M N s
  = Some (tt, set_mem (<[bb := Some <$> transposed la M N]> (mem s)) s).
Proof.
  intros Hab Hne Hbb Hc0. unfold matrix.transpose.
  rewrite decide_False by congruence.
  rewrite (bind_Some _ _ _ (Ptr ab 0) s) by reflexivity.
  rewrite (bind_Some _ _ _ tt s)
    by (apply assert_true; unfold int_ok, INT_MAX in *; lia).
  now apply (transpose_grid_ok s ab bb c0).
Qed.

(** [transpose(A, A, M, N)]: the input is copied to a fresh block, which
    stays in the store, and the kernel runs from the copy. *)
Lemma transpose_in_place s ab :
  mem s !! ab = Some (Some <$> la) ->
  matrix.transpose BLOCK_DIM (Ptr ab 0) (Ptr ab 0) M N s
  = Some (tt, set_mem (<[ab := Some <$> transposed la M N]>
                         (<[fresh (dom (mem s)) := Some <$> la]> (mem s))) s).
Proof.
  intros Hab. unfold matrix.transpose.
  pose proof (fresh_block_free (mem s)) as Hfresh.
  set (fb := fresh (dom (mem s))) in *.
  assert (fb <> ab) as Hne by congruence.
  assert (0 <= M * N) by nia.
  rewrite decide_True by reflexivity.
  erewrite bind_Some.
  2:{ rewrite (bind_Some _ _ _ tt s)
        by (apply assert_true; unfold int_ok, INT_MAX in *; lia).
      rewrite (bind_Some _ _ _ _ _ (cudaMalloc_ok (M * N) s ltac:(lia))).
      norm_state. rewrite (bind_Some _ _ _ _ _ (gpuErrchk_ok _)).
      unfold vector.copy.
      erewrite bind_Some.
      2:{ erewrite bind_Some.
          2:{ apply (load_range_whole _ _ _ la); norm_state; [| easy | lia].
              now rewrite lookup_insert_ne. }
          eapply store_range_whole; norm_state; [| easy |].
          - now rewrite lookup_insert_eq.
          - rewrite length_replicate. lia. }
      reflexivity. }
  norm_state. fold fb. rewrite insert_insert_eq.
  rewrite (bind_Some _ _ _ tt _)
    by (apply assert_true; unfold int_ok, INT_MAX in *; lia).
  rewrite (transpose_grid_ok _ fb ab (Some <$> la)); norm_state; try easy.
  - now rewrite lookup_insert_eq.
  - now rewrite lookup_insert_ne.
  - now rewrite length_fmap.
Qed.

End TransposeRun.
Lemma transposed_entry (la : list float) M N r c :
  0 <= r < M -> 0 <= c < N -> Z.of_nat (length la) = M * N ->
  transposed la M N !! Z.to_nat (r * N + c) = la !! Z.to_nat (c * M + r).
Proof.
  intros Hr Hc Hla. rewrite transposed_lookup by nia.
  destruct (div_mod_index c r N) as [-> ->]; [lia | lia |].
  destruct (lookup_lt_is_Some_2 la (Z.to_nat (c * M + r))) as [v Hv]; [nia |].
  now rewrite Hv, (list_lookup_total_correct _ _ _ Hv).
Qed.

(** C6: for all dimensions and every tile edge, [transpose] of an
    [M x N] matrix followed by [transpose] of the [N x M] result gives the
    matrix back, cell for cell, both between different buffers and in
    place; in place, each call first copies its input to a fresh block
    and transposes from the copy. *)
Theorem transpose_twice (BLOCK_DIM M N : Z) (s : state) (ab bb cb : nat)
    (la : list float) (b0 c0 : list cell) :
  0 < BLOCK_DIM -> 0 <= M -> 0 <= N -> M * N <= INT_MAX ->
  M - 1 + BLOCK_DIM <= INT_MAX -> N - 1 + BLOCK_DIM <= INT_MAX ->
  mem s !! ab = Some (Some <$> la) -> Z.of_nat (length la) = M * N ->
  mem s !! bb = Some b0 -> Z.of_nat (length b0) = M * N ->
  mem s !! cb = Some c0 -> Z.of_nat (length c0) = M * N ->
  ab <> bb -> bb <> cb ->
  (forall r c, 0 <= r < M -> 0 <= c < N ->
     transposed la M N !! Z.to_nat (r * N + c) = la !! Z.to_nat (c * M + r))
  /\
  (exists s1 s2,
      matrix.transpose BLOCK_DIM (Ptr ab 0) (Ptr bb 0) M N s = Some (tt, s1)
      /\ matrix.transpose BLOCK_DIM (Ptr bb 0) (Ptr cb 0) N M s1 = Some (tt, s2)
      /\ mem s1 !! bb = Some (Some <$> transposed la M N)
      /\ mem s2 !! cb = Some (Some <$> la))
  /\
  (exists s1 s2,
      matrix.transpose BLOCK_DIM (Ptr ab 0) (Ptr ab 0) M N s = Some (tt, s1)
      /\ matrix.transpose BLOCK_DIM (Ptr ab 0) (Ptr ab 0) N M s1 = Some (tt, s2)
      /\ mem s1 !! fresh (dom (mem s)) = Some (Some <$> la)
      /\ mem s1 !! ab = Some (Some <$> transposed la M N)
      /\ mem s2 !! fresh (dom (mem s1)) = Some (Some <$> transposed la M N)
      /\ mem s2 !! ab = Some (Some <$> la)).
Proof.
  intros HBD HM HN HMN HMB HNB Hab Hla Hbb Hb0 Hcb Hc0 Hne1 Hne2.
  assert (0 <= M * N) as Hpos by nia.
  pose proof (transposed_length la M N Hpos) as HT.
  pose proof (transposed_involutive la M N HM HN Hla) as Hinv.
  split; [intros r c Hr Hc; now apply transposed_entry |]. split.
  - eexists. eexists.
    split; [apply (transpose_out_of_place BLOCK_DIM M N HBD HM HN HMN HMB HNB
                     la Hla s ab bb b0); easy |].
    split; [| split].
    + apply (transpose_out_of_place BLOCK_DIM N M HBD HN HM ltac:(lia) HNB HMB
               (transposed la M N) ltac:(lia) _ bb cb c0); norm_state.
      * now rewrite lookup_insert_eq.
      * easy.
      * now rewrite lookup_insert_ne.
      * lia.
    + norm_state. now rewrite lookup_insert_eq.
    + norm_state. now rewrite lookup_insert_eq, Hinv.
  - pose proof (fresh_block_free (mem s)) as Hfresh.
    assert (fresh (dom (mem s)) <> ab) as Hfa by congruence.
    eexists. eexists.
    split; [apply (transpose_in_place BLOCK_DIM M N HBD HM HN HMN HMB HNB
                     la Hla s ab); easy |].
    split; [| split; [| split; [| split]]].
    + apply (transpose_in_place BLOCK_DIM N M HBD HN HM ltac:(lia) HNB HMB
               (transposed la M N) ltac:(lia)); norm_state.
      now rewrite lookup_insert_eq.
    + norm_state. now rewrite lookup_insert_ne, lookup_insert_eq by easy.
    + norm_state. now rewrite lookup_insert_eq.
    + norm_state. pose proof (fresh_block_free
        (<[ab := Some <$> transposed la M N]>
           (<[fresh (dom (mem s)) := Some <$> la]> (mem s)))) as Hf2.
      apply lookup_insert_None in Hf2 as [_ Hf2].
      now rewrite lookup_insert_ne, lookup_insert_eq by easy.
    + norm_state. now rewrite lookup_insert_eq, Hinv.
Qed.

Lemma transpose_twice_witness :
  let la := [of_int 1; of_int 2; of_int 3; of_int 4; of_int 5; of_int 6] in
  (forall r c, 0 <= r < 3 -> 0 <= c < 2 ->
     transposed la 3 2 !! Z.to_nat (r * 2 + c) = la !! Z.to_nat (c * 3 + r))
  /\
  (exists s1 s2,
      matrix.transpose 2 (Ptr 0 0) (Ptr 1 0) 3 2 matrix_state = Some (tt, s1)
      /\ matrix.transpose 2 (Ptr 1 0) (Ptr 0 0) 2 3 s1 = Some (tt, s2)
      /\ mem s1 !! 1%nat = Some (Some <$> transposed la 3 2)
      /\ mem s2 !! 0%nat = Some (Some <$> la))
  /\
  (exists s1 s2,
      matrix.transpose 2 (Ptr 0 0) (Ptr 0 0) 3 2 matrix_state = Some (tt, s1)
      /\ matrix.transpose 2 (Ptr 0 0) (Ptr 0 0) 2 3 s1 = Some (tt, s2)
      /\ mem s1 !! fresh (dom (mem matrix_state)) = Some (Some <$> la)
      /\ mem s1 !! 0%nat = Some (Some <$> transposed la 3 2)
      /\ mem s2 !! fresh (dom (mem s1)) = Some (Some <$> transposed la 3 2)
      /\ mem s2 !! 0%nat = Some (Some <$> la)).
Proof.
  apply (transpose_twice 2 3 2 matrix_state 0%nat 1%nat 0%nat
           [of_int 1; of_int 2; of_int 3; of_int 4; of_int 5; of_int 6]
           (replicate 6 None)
           (Some <$> [of_int 1; of_int 2; of_int 3; of_int 4; of_int 5; of_int 6])).
  - lia.
  - lia.
  - lia.
  - unfold INT_MAX; lia.
  - unfold INT_MAX; lia.
  - unfold INT_MAX; lia.
  - reflexivity.
  - reflexivity.
  - reflexivity.
  - reflexivity.
  - reflexivity.
  - reflexivity.
  - lia.
  - lia.
Defined.
(** ** The scale of a clamped column *)

Lemma Zdigits2_mul_pow2 a k :
  0 < a -> 0 <= k -> Zdigits2 (a * 2 ^ k) = Zdigits2 a + k.
Proof.
  intros Ha Hk.
  assert (0 < 2 ^ k) by (apply Z.pow_pos_nonneg; lia).
  rewrite !Zdigits2_log2 by nia. rewrite Z.log2_mul_pow2 by lia. lia.
Qed.

Lemma valid32_bounds s m e :
  valid32 (S754_finite s m e) ->
  Zpos (digits2_pos m) <= 24 /\ -149 <= e /\ -148 <= Zpos (digits2_pos m) + e.
Proof.
  unfold valid32, valid_binary, bounded, canonical_mantissa, fexp, emin,
    prec32, emax32.
  intros H. apply andb_prop in H as [H _]. apply Z.eqb_eq in H. lia.
Qed.

(** The constants of [jacobian_v2], evaluated. *)
Lemma jacobian_v2_eps_value :
  fit.jacobian_v2_eps = S754_finite false 8388608 (-33).
Proof. vm_compute. reflexivity. Qed.

Lemma jacobian_v2_eps_double :
  to_double fit.jacobian_v2_eps = S754_finite false 4503599627370496 (-62).
Proof. vm_compute. reflexivity. Qed.

Lemma threshold_value :
  dec_lit 1 (-31) = S754_finite false 4567192616659072 (-155).
Proof. vm_compute. reflexivity. Qed.

Lemma one_double_value :
  dec_lit 1 0 = S754_finite false 4503599627370496 (-52).
Proof. vm_compute. reflexivity. Qed.

Lemma step_value :
  to_float (dec_lit 1 (-30)) = S754_finite false 10633824 (-123).
Proof. vm_compute. reflexivity. Qed.

Lemma step_reciprocal_double :
  to_float (ddiv (dec_lit 1 0) (to_double (S754_finite false 10633824 (-123))))
  = S754_finite false 13234890 76.
Proof. vm_compute. reflexivity. Qed.

Lemma step_reciprocal_single :
  SFdiv prec32 emax32 fone (S754_finite false 10633824 (-123))
  = S754_finite false 13234890 76.
Proof. vm_compute. reflexivity. Qed.

Lemma too_small_infinity s : fit.too_small (S754_infinity s) = false.
Proof. destruct s; vm_compute; reflexivity. Qed.

Lemma too_small_nan : fit.too_small S754_nan = false.
Proof. vm_compute. reflexivity. Qed.

(** A number the guard of [jacobian_v2] finds too small is below
    [2^-102]. *)
Lemma too_small_finite s m e :
  -1074 < Zpos (digits2_pos m) + e ->
  fit.too_small (S754_finite s m e) = true ->
  Zpos (digits2_pos m) + e <= -102.
Proof.
  intros Hno. unfold fit.too_small, to_double.
  pose proof (binary_round_spec prec64 emax64 ltac:(unfold prec64; lia) ltac:(unfold emax64; lia) s m e Hno) as H.
  rewrite threshold_value.
  destruct (binary_round prec64 emax64 s m e) as [| s' | | s' M E].
  - contradiction.
  - intros Hc. destruct s'; discriminate Hc.
  - contradiction.
  - destruct H as (-> & Hmag & Hdig). cbn [Zdigits2] in *. unfold prec64 in *.
    unfold dlt, SFltb, SFopp, SFcompare. cbn [negb].
    destruct s.
    + rewrite andb_true_l.
      destruct (Z.compare_spec (-155) E) as [HE | HE | HE]; intros Hc;
        [lia | discriminate Hc | lia].
    + rewrite andb_true_r.
      destruct (Z.compare_spec E (-155)) as [HE | HE | HE]; intros Hc;
        [lia | lia | discriminate Hc].
Qed.

Lemma too_small_magnitude s m e :
  valid32 (S754_finite s m e) ->
  fit.too_small (fmul (S754_finite s m e) fit.jacobian_v2_eps) = true ->
  Zpos (digits2_pos m) + e <= -92.
Proof.
  intros Hv Hsmall. apply valid32_bounds in Hv as (Hd & He & Hde).
  rewrite jacobian_v2_eps_value in Hsmall.
  unfold fmul, SFmul in Hsmall.
  destruct (Z.le_gt_cases (Zpos (digits2_pos m) + e - 10) (-149)) as [|Hno]; [lia |].
  assert (Zdigits2 (Zpos (m * 8388608)) = Zpos (digits2_pos m) + 23) as Hdig.
  { rewrite Pos2Z.inj_mul. change (Zpos 8388608) with (2 ^ 23).
    rewrite Zdigits2_mul_pow2 by lia. reflexivity. }
  pose proof (binary_round_aux_spec prec32 emax32 ltac:(unfold prec32; lia) ltac:(unfold emax32; lia)
                (xorb s false) (Zpos (m * 8388608)) (e + -33) loc_Exact
                ltac:(lia)) as H.
  rewrite Hdig in H. specialize (H ltac:(unfold emin, prec32, emax32; lia)).
  destruct (binary_round_aux prec32 emax32 (xorb s false) (Zpos (m * 8388608))
              (e + -33) loc_Exact) as [| s' | | s' m' e'].
  - contradiction.
  - rewrite too_small_infinity in Hsmall. discriminate Hsmall.
  - contradiction.
  - destruct H as (_ & Hmag & _). cbn [Zdigits2] in Hmag.
    apply too_small_finite in Hsmall; lia.
Qed.

(** The scale [jacobian_v2] computes for such a parameter has the sign of
    the parameter and is infinite or at least [2^100]. *)
Lemma column_scale_magnitude s m e :
  valid32 (S754_finite s m e) ->
  Zpos (digits2_pos m) + e <= -92 ->
  match fit.column_scale (S754_finite s m e) with
  | S754_finite s' m' e' => s' = s /\ 101 <= Zpos (digits2_pos m') + e'
  | S754_infinity s' => s' = s
  | _ => False
  end.
Proof.
  intros Hv Hmag. apply valid32_bounds in Hv as (Hd & He & Hde).
  unfold fit.column_scale.
  rewrite jacobian_v2_eps_double, one_double_value.
  (* (double) temp *)
  unfold to_double.
  pose proof (binary_round_spec prec64 emax64 ltac:(unfold prec64; lia) ltac:(unfold emax64; lia) s m e
                ltac:(unfold emin, prec64, emax64; lia)) as HP.
  destruct (binary_round prec64 emax64 s m e) as [| sp | | sp Mp Ep];
    [contradiction | | contradiction |].
  { destruct HP as [_ HP]. unfold emax64 in HP. lia. }
  destruct HP as (-> & HPmag & HPdig). cbn [Zdigits2] in HPmag, HPdig.
  (* (double) temp * eps *)
  unfold dmul, SFmul.
  assert (Zdigits2 (Zpos (Mp * 4503599627370496)) = Zpos (digits2_pos Mp) + 52) as Hdig.
  { rewrite Pos2Z.inj_mul. change (Zpos 4503599627370496) with (2 ^ 52).
    rewrite Zdigits2_mul_pow2 by lia. reflexivity. }
  pose proof (binary_round_aux_spec prec64 emax64 ltac:(unfold prec64; lia) ltac:(unfold emax64; lia)
                (xorb s false) (Zpos (Mp * 4503599627370496)) (Ep + -62) loc_Exact
                ltac:(lia)) as HX.
  rewrite Hdig in HX. specialize (HX ltac:(unfold emin, prec64, emax64; lia)).
  destruct (binary_round_aux prec64 emax64 (xorb s false)
              (Zpos (Mp * 4503599627370496)) (Ep + -62) loc_Exact)
    as [| sx | | sx Mx Ex]; [contradiction | | contradiction |].
  { destruct HX as [_ HX]. unfold prec64, emax64 in *.
    pose proof (Zdigits2_pos (Zpos Mp) ltac:(lia)) as Hp. cbn [Zdigits2] in Hp. lia. }
  destruct HX as (-> & HXmag & HXdig). cbn [Zdigits2] in HXmag, HXdig.
  rewrite xorb_false_r.
  (* 1. / ((double) temp * eps) *)
  unfold ddiv, SFdiv.
  pose proof (SFdiv_core_binary_spec prec64 emax64 ltac:(unfold prec64; lia)
                (Zpos 4503599627370496) (-52) (Zpos Mx) Ex
                ltac:(lia) ltac:(lia)) as HQ.
  change (Zdigits2 (Zpos 4503599627370496)) with 53 in HQ.
  cbn [Zdigits2] in HQ.
  specialize (HQ ltac:(unfold emin, prec64, emax64 in *; lia)).
  destruct (SFdiv_core_binary prec64 emax64 (Zpos 4503599627370496) (-52) (Zpos Mx) Ex)
    as [[q e'] l].
  destruct HQ as (Hq & HQmag & HQe).
  pose proof (binary_round_aux_spec prec64 emax64 ltac:(unfold prec64; lia) ltac:(unfold emax64; lia)
                (xorb false s) q e' l Hq
                ltac:(unfold emin, prec64, emax64 in *; lia)) as HY.
  rewrite xorb_false_l in *.
  destruct (binary_round_aux prec64 emax64 s q e' l) as [| sy | | sy My Ey];
    [contradiction | | contradiction |].
  { destruct HY as [_ HY]. unfold prec64, emax64 in *.
    pose proof (Zdigits2_pos (Zpos Mx) ltac:(lia)) as Hp. cbn [Zdigits2] in Hp. lia. }
  destruct HY as (-> & HYmag & HYdig). cbn [Zdigits2] in HYmag, HYdig.
  (* (float) *)
  unfold to_float.
  pose proof (binary_round_spec prec32 emax32 ltac:(unfold prec32; lia) ltac:(unfold emax32; lia) s My Ey
                ltac:(unfold emin, prec32, emax32 in *; lia)) as HS.
  destruct (binary_round prec32 emax32 s My Ey) as [| ss | | ss Ms Es];
    [contradiction | | contradiction |].
  { destruct HS as [HS _]. exact HS. }
  destruct HS as (-> & HSmag & _). cbn [Zdigits2] in HSmag. split; [reflexivity | lia].
Qed.

(** The step and the scale for a nonzero parameter [p] whose product with
    [2^-10] the guard replaces, the product that underflows to a zero
    included. *)
Lemma clamped_scale (p : float) :
  valid32 p -> is_zero p = false ->
  fit.too_small (fmul p fit.jacobian_v2_eps) = true ->
  fit.perturbation p = to_float (dec_lit 1 (-30))
  /\ sign_of (to_float (dec_lit 1 (-30))) = Some false
  /\ fit.column_scale p
     <> to_float (ddiv (dec_lit 1 0) (to_double (to_float (dec_lit 1 (-30)))))
  /\ fit.column_scale p <> SFdiv prec32 emax32 fone (to_float (dec_lit 1 (-30)))
  /\ sign_of (fit.column_scale p) = sign_of p
  /\ (sign_of p = Some true ->
      sign_of (fit.column_scale p) <> sign_of (to_float (dec_lit 1 (-30)))).
Proof.
  intros Hv Hnz Hsmall.
  split; [unfold fit.perturbation; rewrite Hsmall; reflexivity |].
  rewrite step_value, step_reciprocal_double, step_reciprocal_single.
  split; [reflexivity |].
  destruct p as [s | s | | s m e].
  - discriminate Hnz.
  - rewrite jacobian_v2_eps_value in Hsmall.
    change (fmul (S754_infinity s) (S754_finite false 8388608 (-33)))
      with (S754_infinity (xorb s false)) in Hsmall.
    rewrite too_small_infinity in Hsmall. discriminate Hsmall.
  - rewrite jacobian_v2_eps_value in Hsmall.
    change (fmul S754_nan (S754_finite false 8388608 (-33)))
      with S754_nan in Hsmall.
    rewrite too_small_nan in Hsmall. discriminate Hsmall.
  - pose proof (too_small_magnitude s m e Hv Hsmall) as Hmag.
    pose proof (column_scale_magnitude s m e Hv Hmag) as H.
    cbn [sign_of].
    destruct (fit.column_scale (S754_finite s m e)) as [| s' | | s' m' e'].
    + contradiction.
    + subst s'. cbn [sign_of].
      split; [intros Heq; discriminate Heq |].
      split; [intros Heq; discriminate Heq |].
      split; [reflexivity |].
      intros Hs Heq. rewrite Hs in Heq. discriminate Heq.
    + contradiction.
    + destruct H as [-> H]. cbn [sign_of].
      split.
      { intros Heq. injection Heq as _ -> ->.
        change (Zpos (digits2_pos 13234890)) with 24 in H. lia. }
      split.
      { intros Heq. injection Heq as _ -> ->.
        change (Zpos (digits2_pos 13234890)) with 24 in H. lia. }
      split; [reflexivity |].
      intros Hs Heq. rewrite Hs in Heq. discriminate Heq.
Qed.

(** C10: when the guard of [jacobian_v2] replaces the step of a nonzero
    parameter [param[i]], the probe of that parameter is taken at
    [param[i] + (float)1e-30], a positive step whatever the sign of the
    parameter, while column [i] of [J] is the difference of the outputs
    times the scale [(float)(1 / ((double)param[i] * 2^-10))], computed
    from the product that was replaced: the scale has the sign of the
    parameter and is not the reciprocal of the step applied, be the
    reciprocal taken in double or in single precision. *)
Theorem jacobian_v2_clamped_scale_mismatch
    (f : fit.evaluator) (model : list float -> Z -> float) (N K : Z)
    (s0 : state) (jb pb : nat) (ps : list float) (jold : list cell)
    (i : Z) (p : float) :
  implements f K N model -> 0 <= N -> N * K <= INT_MAX ->
  mem s0 !! pb = Some (Some <$> ps) -> Z.of_nat (length ps) = K ->
  mem s0 !! jb = Some jold -> Z.of_nat (length jold) = N * K -> jb <> pb ->
  0 <= i < K -> ps !! Z.to_nat i = Some p ->
  valid32 p -> is_zero p = false ->
  fit.too_small (fmul p fit.jacobian_v2_eps) = true ->
  let step := to_float (dec_lit 1 (-30)) in
  let scale :=
    to_float (ddiv (dec_lit 1 0)
                (dmul (to_double p) (to_double fit.jacobian_v2_eps))) in
  let moved := <[Z.to_nat i := fadd p step]> ps in
  exists s' : state,
    fit.jacobian_v2 (Ptr jb 0) f (Ptr pb 0) N K s0 = Some (tt, s')
    /\ calls s' !! (length (calls s0) + 1 + Z.to_nat i)%nat = Some (Some <$> moved)
    /\ sign_of step = Some false
    /\ (forall j, 0 <= j < N ->
          peek (mem s') (Ptr jb 0) (i * N + j)
          = Some (fmul (fsub (model moved j) (model ps j)) scale))
    /\ scale <> to_float (ddiv (dec_lit 1 0) (to_double step))
    /\ scale <> SFdiv prec32 emax32 fone step
    /\ sign_of scale = sign_of p
    /\ (sign_of p = Some true -> sign_of scale <> sign_of step).
Proof.
  intros Hf HN HNK Hps HK HJ HJlen Hne Hi Hp Hv Hnz Hsmall step scale moved.
  destruct (clamped_scale p Hv Hnz Hsmall)
    as (Hstep & Hpos & Hdouble & Hsingle & Hsign & Hopp).
  fold step in Hstep, Hpos, Hdouble, Hsingle, Hopp.
  change (fit.column_scale p) with scale in Hdouble, Hsingle, Hsign, Hopp.
  eexists. split; [now apply (jacobian_v2_run f model N K s0 jb pb ps jold) |].
  norm_state.
  split.
  { unfold moved. rewrite <- Hstep.
    now apply (jacobian_v2_probe (calls s0) ps K i p). }
  split; [exact Hpos |].
  split; [| now repeat split].
  intros j Hj.
  apply (peek_columns _ jb (v2_column model ps N) N K i j).
  - now rewrite lookup_insert_eq.
  - exact HN.
  - intros k _. now apply v2_column_length.
  - exact Hi.
  - exact Hj.
  - rewrite (v2_column_lookup model ps N i j Hj).
    rewrite (list_lookup_total_correct _ _ _ Hp).
    rewrite (perturb_Some ps i _ _ Hp), Hstep. reflexivity.
Qed.

Lemma jacobian_v2_clamped_scale_mismatch_witness :
  let ps := [S754_finite true 1 (-149); of_int 3] in
  let p := S754_finite true 1 (-149) in
  let step := to_float (dec_lit 1 (-30)) in
  let scale :=
    to_float (ddiv (dec_lit 1 0)
                (dmul (to_double p) (to_double fit.jacobian_v2_eps))) in
  let moved := <[Z.to_nat 0 := fadd p step]> ps in
  exists s' : state,
    fit.jacobian_v2 (Ptr 1 0) (fit.flinear 4) (Ptr 0 0) 5 2 subnormal_state
    = Some (tt, s')
    /\ calls s' !! (length (calls subnormal_state) + 1 + Z.to_nat 0)%nat
       = Some (Some <$> moved)
    /\ sign_of step = Some false
    /\ (forall j, 0 <= j < 5 ->
          peek (mem s') (Ptr 1 0) (0 * 5 + j)
          = Some (fmul (fsub (flinear_model moved j) (flinear_model ps j)) scale))
    /\ scale <> to_float (ddiv (dec_lit 1 0) (to_double step))
    /\ scale <> SFdiv prec32 emax32 fone step
    /\ sign_of scale = sign_of p
    /\ (sign_of p = Some true -> sign_of scale <> sign_of step).
Proof.
  apply (jacobian_v2_clamped_scale_mismatch (fit.flinear 4) flinear_model 5 2
           subnormal_state 1%nat 0%nat [S754_finite true 1 (-149); of_int 3]
           (replicate 10 None) 0 (S754_finite true 1 (-149))).
  - apply flinear_implements; unfold INT_MAX; lia.
  - lia.
  - unfold INT_MAX; lia.
  - reflexivity.
  - reflexivity.
  - reflexivity.
  - reflexivity.
  - lia.
  - lia.
  - reflexivity.
  - vm_compute. reflexivity.
  - reflexivity.
  - vm_compute. reflexivity.
Defined.

(* ================================================================== *)
(** * Further properties of the kernels and wrappers *)

(** ** Element-wise kernels on a block longer than the output *)

Lemma filled_length_le g (old : list cell) N c :
  0 <= c -> 0 <= N <= Z.of_nat (length old) ->
  length (filled g old N c) = length old.
Proof.
  intros Hc Hlen. unfold filled.
  rewrite length_app, !length_fmap, length_seqZ, length_drop. lia.
Qed.

Lemma filled_all_le g (old : list cell) N c :
  0 <= N <= c -> filled g old N c = prefix_filled g old N.
Proof. intros Hc. unfold filled, prefix_filled. now rewrite Z.min_r by lia. Qed.

Lemma filled_step_le g (old : list cell) N c :
  0 <= c < N -> N <= Z.of_nat (length old) ->
  <[Z.to_nat c := Some (g c)]> (filled g old N c) = filled g old N (c + 1).
Proof.
  intros Hc Hlen. unfold filled. rewrite !Z.min_l by lia.
  destruct (lookup_lt_is_Some_2 old (Z.to_nat c)) as [x Hx]; [lia |].
  rewrite (drop_S old x (Z.to_nat c)) by exact Hx.
  replace (c + 1) with (Z.of_nat (S (Z.to_nat c))) by lia.
  rewrite seqZ_S, !fmap_app. simpl.
  replace (Z.to_nat (Z.of_nat (S (Z.to_nat c)))) with (S (Z.to_nat c)) by lia.
  rewrite <- app_assoc. simpl.
  replace (Z.of_nat (Z.to_nat c)) with c by lia.
  set (pre := Some <$> (g <$> seqZ 0 c)).
  assert (Z.to_nat c = length pre + 0)%nat as ->.
  { unfold pre. rewrite !length_fmap, length_seqZ. lia. }
  now rewrite insert_app_r.
Qed.

(** A grid of [nb] blocks of [tpb] threads that covers [N], running a
    kernel that stores [g i] under the guard [i < N]. *)
Lemma launch1_store_prefix (tpb : Z) (g : Z -> float) blk (old : list cell) N nb s :
  0 < tpb -> 0 <= N -> 0 <= nb -> N <= nb * tpb <= INT_MAX ->
  mem s !! blk = Some old -> N <= Z.of_nat (length old) ->
  launch1 nb tpb (fun bd bi ti =>
      let i := fit.thread_index bd bi ti in
      if decide (i < N) then store (Ptr blk 0) i (g i) else ret tt) s
  = Some (tt, set_mem (<[blk := prefix_filled g old N]> (mem s)) s).
Proof.
  intros Htpb HN Hnb Hcover Hold Hlen. unfold launch1.
  set (St := fun c => set_mem (<[blk := filled g old N c]> (mem s)) s).
  destruct (for_range_inv (fun b s1 => s1 = St (tpb * b))
              (fun b => for_range tpb (fun t =>
                 let i := fit.thread_index tpb b t in
                 if decide (i < N) then store (Ptr blk 0) i (g i) else ret tt))
              nb s) as (s' & Hrun & Hs').
  - exact Hnb.
  - unfold St. rewrite Z.mul_0_r, filled_0 by exact HN.
    rewrite insert_id by exact Hold. now rewrite set_mem_id.
  - intros b s1 Hb ->.
    destruct (for_range_inv (fun t s1 => s1 = St (tpb * b + t))
                (fun t => let i := fit.thread_index tpb b t in
                   if decide (i < N) then store (Ptr blk 0) i (g i) else ret tt)
                tpb (St (tpb * b))) as (s2 & Hrun2 & Hs2).
    + lia.
    + now rewrite Z.add_0_r.
    + intros t s1 Ht ->. cbv zeta.
      rewrite thread_index_small by nia.
      set (c := tpb * b + t).
      replace (tpb * b + (t + 1)) with (c + 1) by lia.
      destruct (decide (c < N)) as [Hc | Hc].
      * exists (St (c + 1)). split; [| reflexivity].
        rewrite (store_ok _ _ _ (filled g old N c)).
        -- simpl. rewrite insert_insert_eq. unfold St.
           rewrite filled_step_le by nia. reflexivity.
        -- simpl. now rewrite lookup_insert_eq.
        -- simpl. rewrite filled_length_le by nia. nia.
      * exists (St c). split; [reflexivity |]. unfold St.
        now rewrite filled_skip by lia.
    + exists s2. split; [exact Hrun2 |]. subst s2. f_equal. lia.
  - transitivity (Some (tt, s')); [exact Hrun |].
    subst s'. unfold St. do 2 f_equal.
    now rewrite filled_all_le by nia.
Qed.

Lemma prefix_filled_length g (old : list cell) N :
  0 <= N <= Z.of_nat (length old) -> length (prefix_filled g old N) = length old.
Proof.
  intros HN. unfold prefix_filled.
  rewrite length_app, !length_fmap, length_seqZ, length_drop. lia.
Qed.

Lemma prefix_filled_lookup g (old : list cell) N t :
  0 <= t < N -> prefix_filled g old N !! Z.to_nat t = Some (Some (g t)).
Proof.
  intros Ht. unfold prefix_filled.
  rewrite lookup_app_l by (rewrite !length_fmap, length_seqZ; lia).
  rewrite !list_lookup_fmap, lookup_seqZ_lt by lia. simpl.
  now replace (0 + Z.of_nat (Z.to_nat t)) with t by lia.
Qed.

Lemma prefix_filled_beyond g (old : list cell) N (n : nat) :
  0 <= N <= Z.of_nat (length old) -> N <= Z.of_nat n ->
  prefix_filled g old N !! n = old !! n.
Proof.
  intros HN Hn. unfold prefix_filled.
  rewrite lookup_app_r by (rewrite !length_fmap, length_seqZ; lia).
  rewrite !length_fmap, length_seqZ, lookup_drop. f_equal. lia.
Qed.

(** X1: [flinear(A, param, N)] stores [a t + b], computed as one fused
    multiply-add, in the cells [0 .. N-1] of [A], for every [N >= 0] and
    every block size, be [N] a multiple of it or not; the cells of [A]
    from [N] on, the other blocks and the record of calls are left as
    they were.  [A] may even be the
    parameter block: the parameters are read before the launch. *)
Theorem flinear_fills (tpb N : Z) (s : state) (ab pb : nat)
    (pblock old : list cell) (a b : float) :
  0 < tpb -> 0 <= N -> N + tpb - 1 <= INT_MAX ->
  mem s !! pb = Some pblock ->
  pblock !! 0%nat = Some (Some a) -> pblock !! 1%nat = Some (Some b) ->
  mem s !! ab = Some old -> N <= Z.of_nat (length old) ->
  exists out : list cell,
    fit.flinear tpb (Ptr ab 0) (Ptr pb 0) N s
    = Some (tt, set_mem (<[ab := out]> (mem s)) s)
    /\ length out = length old
    /\ (forall t, 0 <= t < N ->
          out !! Z.to_nat t = Some (Some (ffma a (of_int t) b)))
    /\ (forall n : nat, N <= Z.of_nat n -> out !! n = old !! n).
Proof.
  intros Htpb HN Hmax Hp Ha Hb Hold Hlen.
  destruct (blocks_cover N tpb Htpb HN) as (Hnb & Hlo & Hhi).
  exists (prefix_filled (flinear_value a b) old N).
  split; [| split; [| split]].
  - unfold fit.flinear.
    rewrite (bind_Some _ _ s tt s)
      by (apply assert_true; unfold int_ok, INT_MAX in *; lia).
    rewrite (bind_Some _ _ s a s)
      by (eapply load_ok; [exact Hp | simpl; lia | exact Ha]).
    rewrite (bind_Some _ _ s b s)
      by (eapply load_ok; [exact Hp | simpl; lia | exact Hb]).
    erewrite bind_Some.
    2:{ apply (launch1_store_prefix tpb (flinear_value a b) ab old N);
          try assumption; lia. }
    reflexivity.
  - apply prefix_filled_length. lia.
  - intros t Ht. now rewrite prefix_filled_lookup.
  - intros n Hn. apply prefix_filled_beyond; lia.
Qed.

Lemma flinear_fills_witness :
  exists out : list cell,
    fit.flinear 4 (Ptr 1 0) (Ptr 0 0) 5 affine_state
    = Some (tt, set_mem (<[1%nat := out]> (mem affine_state)) affine_state)
    /\ length out = 10%nat
    /\ (forall t, 0 <= t < 5 ->
          out !! Z.to_nat t
          = Some (Some (ffma (of_int 2) (of_int t) (of_int 3))))
    /\ (forall n : nat, 5 <= Z.of_nat n -> out !! n = replicate 10 None !! n).
Proof.
  apply (flinear_fills 4 5 affine_state 1%nat 0%nat
           [Some (of_int 2); Some (of_int 3)] (replicate 10 None)
           (of_int 2) (of_int 3)).
  - lia.
  - lia.
  - unfold INT_MAX; lia.
  - reflexivity.
  - reflexivity.
  - reflexivity.
  - reflexivity.
  - simpl; lia.
Defined.

(** ** The exponential models *)

Lemma SFabs_SFopp (k : float) : SFabs (SFopp k) = SFabs k.
Proof. now destruct k. Qed.

Lemma fexp_run (tpb : Z) (expf : float -> float) (N : Z) (s : state)
    (ab pb : nat) (pblock old : list cell) (a b k : float) :
  0 < tpb -> 0 <= N -> N + tpb - 1 <= INT_MAX ->
  mem s !! pb = Some pblock ->
  pblock !! 0%nat = Some (Some a) -> pblock !! 1%nat = Some (Some b) ->
  pblock !! 2%nat = Some (Some k) ->
  mem s !! ab = Some old -> N <= Z.of_nat (length old) ->
  fit.fexp tpb expf (Ptr ab 0) (Ptr pb 0) N s
  = Some (tt, set_mem (<[ab := prefix_filled (fexp_value expf a b k) old N]> (mem s)) s).
Proof.
  intros Htpb HN Hmax Hp Ha Hb Hk Hold Hlen.
  destruct (blocks_cover N tpb Htpb HN) as (Hnb & Hlo & Hhi).
  unfold fit.fexp.
  rewrite (bind_Some _ _ s tt s)
    by (apply assert_true; unfold int_ok, INT_MAX in *; lia).
  rewrite (bind_Some _ _ s a s)
    by (eapply load_ok; [exact Hp | simpl; lia | exact Ha]).
  rewrite (bind_Some _ _ s b s)
    by (eapply load_ok; [exact Hp | simpl; lia | exact Hb]).
  rewrite (bind_Some _ _ s k s)
    by (eapply load_ok; [exact Hp | simpl; lia | exact Hk]).
  erewrite bind_Some.
  2:{ apply (launch1_store_prefix tpb (fexp_value expf a b k) ab old N);
        try assumption; lia. }
  reflexivity.
Qed.

Lemma fdoubleExp_run (tpb : Z) (expf : float -> float) (N : Z) (s : state)
    (ab pb : nat) (pblock old : list cell) (a b c k q : float) :
  0 < tpb -> 0 <= N -> N + tpb - 1 <= INT_MAX ->
  mem s !! pb = Some pblock ->
  pblock !! 0%nat = Some (Some a) -> pblock !! 1%nat = Some (Some b) ->
  pblock !! 2%nat = Some (Some c) -> pblock !! 3%nat = Some (Some k) ->
  pblock !! 4%nat = Some (Some q) ->
  mem s !! ab = Some old -> N <= Z.of_nat (length old) ->
  fit.fdoubleExp tpb expf (Ptr ab 0) (Ptr pb 0) N s
  = Some (tt, set_mem (<[ab := prefix_filled (fdoubleExp_value expf a b c k q) old N]>
                         (mem s)) s).
Proof.
  intros Htpb HN Hmax Hp Ha Hb Hc Hk Hq Hold Hlen.
  destruct (blocks_cover N tpb Htpb HN) as (Hnb & Hlo & Hhi).
  unfold fit.fdoubleExp.
  rewrite (bind_Some _ _ s tt s)
    by (apply assert_true; unfold int_ok, INT_MAX in *; lia).
  rewrite (bind_Some _ _ s a s)
    by (eapply load_ok; [exact Hp | simpl; lia | exact Ha]).
  rewrite (bind_Some _ _ s b s)
    by (eapply load_ok; [exact Hp | simpl; lia | exact Hb]).
  rewrite (bind_Some _ _ s c s)
    by (eapply load_ok; [exact Hp | simpl; lia | exact Hc]).
  rewrite (bind_Some _ _ s k s)
    by (eapply load_ok; [exact Hp | simpl; lia | exact Hk]).
  rewrite (bind_Some _ _ s q s)
    by (eapply load_ok; [exact Hp | simpl; lia | exact Hq]).
  erewrite bind_Some.
  2:{ apply (launch1_store_prefix tpb (fdoubleExp_value expf a b c k q) ab old N);
        try assumption; lia. }
  reflexivity.
Qed.

(** X2: [fexp(A, param, N)] stores [a expf(-|k| t) + b], the product and
    the sum computed as one fused multiply-add, in the cells [0 .. N-1]
    of [A], whatever [expf] computes, for every [N >= 0] and every block
    size; the cells from [N] on and everything else are left as they
    were. *)
Theorem fexp_fills (tpb : Z) (expf : float -> float) (N : Z) (s : state)
    (ab pb : nat) (pblock old : list cell) (a b k : float) :
  0 < tpb -> 0 <= N -> N + tpb - 1 <= INT_MAX ->
  mem s !! pb = Some pblock ->
  pblock !! 0%nat = Some (Some a) -> pblock !! 1%nat = Some (Some b) ->
  pblock !! 2%nat = Some (Some k) ->
  mem s !! ab = Some old -> N <= Z.of_nat (length old) ->
  exists out : list cell,
    fit.fexp tpb expf (Ptr ab 0) (Ptr pb 0) N s
    = Some (tt, set_mem (<[ab := out]> (mem s)) s)
    /\ length out = length old
    /\ (forall t, 0 <= t < N ->
          out !! Z.to_nat t
          = Some (Some (ffma a (expf (fmul (SFopp (SFabs k)) (of_int t))) b)))
    /\ (forall n : nat, N <= Z.of_nat n -> out !! n = old !! n).
Proof.
  intros Htpb HN Hmax Hp Ha Hb Hk Hold Hlen.
  exists (prefix_filled (fexp_value expf a b k) old N).
  split; [| split; [| split]].
  - now apply (fexp_run tpb expf N s ab pb pblock old a b k).
  - apply prefix_filled_length. lia.
  - intros t Ht. now rewrite prefix_filled_lookup.
  - intros n Hn. apply prefix_filled_beyond; lia.
Qed.

Lemma fexp_fills_witness :
  exists out : list cell,
    fit.fexp 4 (fun x => x) (Ptr 1 0) (Ptr 0 0) 5 decay_state
    = Some (tt, set_mem (<[1%nat := out]> (mem decay_state)) decay_state)
    /\ length out = 7%nat
    /\ (forall t, 0 <= t < 5 ->
          out !! Z.to_nat t
          = Some (Some (ffma (of_int 2)
                          (fmul (SFopp (SFabs (of_int 1))) (of_int t))
                          (of_int 3))))
    /\ (forall n : nat, 5 <= Z.of_nat n -> out !! n = replicate 7 None !! n).
Proof.
  apply (fexp_fills 4 (fun x => x) 5 decay_state 1%nat 0%nat
           [Some (of_int 2); Some (of_int 3); Some (of_int 1)]
           (replicate 7 None) (of_int 2) (of_int 3) (of_int 1)).
  - lia.
  - lia.
  - unfold INT_MAX; lia.
  - reflexivity.
  - reflexivity.
  - reflexivity.
  - reflexivity.
  - reflexivity.
  - simpl; lia.
Defined.

(** X3: [fexp] sees the rate only through its magnitude: with [param[2] = k]
    and with [param[2] = -k] it stores the same values. *)
Theorem fexp_rate_sign (tpb : Z) (expf : float -> float) (N : Z) (s : state)
    (ab pb : nat) (old : list cell) (a b k : float) :
  0 < tpb -> 0 <= N -> N + tpb - 1 <= INT_MAX ->
  mem s !! ab = Some old -> N <= Z.of_nat (length old) -> ab <> pb ->
  let given rate :=
    set_mem (<[pb := [Some a; Some b; Some rate]]> (mem s)) s in
  exists out : list cell,
    fit.fexp tpb expf (Ptr ab 0) (Ptr pb 0) N (given k)
    = Some (tt, set_mem (<[ab := out]> (mem (given k))) s)
    /\ fit.fexp tpb expf (Ptr ab 0) (Ptr pb 0) N (given (SFopp k))
       = Some (tt, set_mem (<[ab := out]> (mem (given (SFopp k)))) s).
Proof.
  intros Htpb HN Hmax Hold Hlen Hne given.
  exists (prefix_filled (fexp_value expf a b k) old N). split.
  - apply (fexp_run tpb expf N (given k) ab pb [Some a; Some b; Some k] old a b k);
      try assumption; try reflexivity; unfold given; norm_state.
    + now rewrite lookup_insert_eq.
    + now rewrite lookup_insert_ne by congruence.
  - replace (prefix_filled (fexp_value expf a b k) old N)
      with (prefix_filled (fexp_value expf a b (SFopp k)) old N)
      by (unfold fexp_value; now rewrite SFabs_SFopp).
    apply (fexp_run tpb expf N (given (SFopp k)) ab pb
             [Some a; Some b; Some (SFopp k)] old a b (SFopp k));
      try assumption; try reflexivity; unfold given; norm_state.
    + now rewrite lookup_insert_eq.
    + now rewrite lookup_insert_ne by congruence.
Qed.

Lemma fexp_rate_sign_witness :
  let given rate :=
    set_mem (<[1%nat := [Some (of_int 2); Some (of_int 3); Some rate]]>
               (mem (blank_state 5))) (blank_state 5) in
  exists out : list cell,
    fit.fexp 4 (fun x => x) (Ptr 0 0) (Ptr 1 0) 5 (given (of_int 1))
    = Some (tt, set_mem (<[0%nat := out]> (mem (given (of_int 1)))) (blank_state 5))
    /\ fit.fexp 4 (fun x => x) (Ptr 0 0) (Ptr 1 0) 5 (given (SFopp (of_int 1)))
       = Some (tt, set_mem (<[0%nat := out]> (mem (given (SFopp (of_int 1)))))
                     (blank_state 5)).
Proof.
  apply (fexp_rate_sign 4 (fun x => x) 5 (blank_state 5) 0%nat 1%nat
           (replicate 5 None) (of_int 2) (of_int 3) (of_int 1)).
  - lia.
  - lia.
  - unfold INT_MAX; lia.
  - reflexivity.
  - simpl; lia.
  - lia.
Defined.

(** X4: [fdoubleExp(A, param, N)] stores [a expf(-|k| t) + b expf(-|q| t) + c]
    in the cells [0 .. N-1] of [A], for every [N >= 0] and every block
    size, and leaves the cells from [N] on as they were.  The first
    product is fused with the sum of the two products, the second
    product and the sum with [c] are rounded on their own. *)
Theorem fdoubleExp_fills (tpb : Z) (expf : float -> float) (N : Z) (s : state)
    (ab pb : nat) (pblock old : list cell) (a b c k q : float) :
  0 < tpb -> 0 <= N -> N + tpb - 1 <= INT_MAX ->
  mem s !! pb = Some pblock ->
  pblock !! 0%nat = Some (Some a) -> pblock !! 1%nat = Some (Some b) ->
  pblock !! 2%nat = Some (Some c) -> pblock !! 3%nat = Some (Some k) ->
  pblock !! 4%nat = Some (Some q) ->
  mem s !! ab = Some old -> N <= Z.of_nat (length old) ->
  exists out : list cell,
    fit.fdoubleExp tpb expf (Ptr ab 0) (Ptr pb 0) N s
    = Some (tt, set_mem (<[ab := out]> (mem s)) s)
    /\ length out = length old
    /\ (forall t, 0 <= t < N ->
          out !! Z.to_nat t
          = Some (Some (fadd (ffma a (expf (fmul (SFopp (SFabs k)) (of_int t)))
                                (fmul b (expf (fmul (SFopp (SFabs q)) (of_int t)))))
                             c)))
    /\ (forall n : nat, N <= Z.of_nat n -> out !! n = old !! n).
Proof.
  intros Htpb HN Hmax Hp Ha Hb Hc Hk Hq Hold Hlen.
  exists (prefix_filled (fdoubleExp_value expf a b c k q) old N).
  split; [| split; [| split]].
  - now apply (fdoubleExp_run tpb expf N s ab pb pblock old a b c k q).
  - apply prefix_filled_length. lia.
  - intros t Ht. now rewrite prefix_filled_lookup.
  - intros n Hn. apply prefix_filled_beyond; lia.
Qed.

Lemma fdoubleExp_fills_witness :
  exists out : list cell,
    fit.fdoubleExp 4 (fun x => x) (Ptr 1 0) (Ptr 0 0) 5 double_decay_state
    = Some (tt, set_mem (<[1%nat := out]> (mem double_decay_state)) double_decay_state)
    /\ length out = 6%nat
    /\ (forall t, 0 <= t < 5 ->
          out !! Z.to_nat t
          = Some (Some (fadd (ffma (of_int 2)
                                (fmul (SFopp (SFabs (of_int 1))) (of_int t))
                                (fmul (of_int 3)
                                   (fmul (SFopp (SFabs (of_int 5))) (of_int t))))
                             (of_int 4))))
    /\ (forall n : nat, 5 <= Z.of_nat n -> out !! n = replicate 6 None !! n).
Proof.
  apply (fdoubleExp_fills 4 (fun x => x) 5 double_decay_state 1%nat 0%nat
           [Some (of_int 2); Some (of_int 3); Some (of_int 4);
            Some (of_int 1); Some (of_int 5)]
           (replicate 6 None) (of_int 2) (of_int 3) (of_int 4) (of_int 1) (of_int 5)).
  - lia.
  - lia.
  - unfold INT_MAX; lia.
  - reflexivity.
  - reflexivity.
  - reflexivity.
  - reflexivity.
  - reflexivity.
  - reflexivity.
  - reflexivity.
  - simpl; lia.
Defined.

(** X5: [fdoubleExp] sees each of its two rates only through its magnitude:
    changing the sign of [param[3]] and of [param[4]] changes nothing in
    what it stores. *)
Theorem fdoubleExp_rate_signs (tpb : Z) (expf : float -> float) (N : Z)
    (s : state) (ab pb : nat) (old : list cell) (a b c k q : float) :
  0 < tpb -> 0 <= N -> N + tpb - 1 <= INT_MAX ->
  mem s !! ab = Some old -> N <= Z.of_nat (length old) -> ab <> pb ->
  let given k' q' :=
    set_mem (<[pb := [Some a; Some b; Some c; Some k'; Some q']]> (mem s)) s in
  exists out : list cell,
    fit.fdoubleExp tpb expf (Ptr ab 0) (Ptr pb 0) N (given k q)
    = Some (tt, set_mem (<[ab := out]> (mem (given k q))) s)
    /\ fit.fdoubleExp tpb expf (Ptr ab 0) (Ptr pb 0) N (given (SFopp k) (SFopp q))
       = Some (tt, set_mem (<[ab := out]> (mem (given (SFopp k) (SFopp q)))) s).
Proof.
  intros Htpb HN Hmax Hold Hlen Hne given.
  exists (prefix_filled (fdoubleExp_value expf a b c k q) old N). split.
  - apply (fdoubleExp_run tpb expf N (given k q) ab pb
             [Some a; Some b; Some c; Some k; Some q] old a b c k q);
      try assumption; try reflexivity; unfold given; norm_state.
    + now rewrite lookup_insert_eq.
    + now rewrite lookup_insert_ne by congruence.
  - replace (prefix_filled (fdoubleExp_value expf a b c k q) old N)
      with (prefix_filled (fdoubleExp_value expf a b c (SFopp k) (SFopp q)) old N)
      by (unfold fdoubleExp_value; now rewrite !SFabs_SFopp).
    apply (fdoubleExp_run tpb expf N (given (SFopp k) (SFopp q)) ab pb
             [Some a; Some b; Some c; Some (SFopp k); Some (SFopp q)] old
             a b c (SFopp k) (SFopp q));
      try assumption; try reflexivity; unfold given; norm_state.
    + now rewrite lookup_insert_eq.
    + now rewrite lookup_insert_ne by congruence.
Qed.

Lemma fdoubleExp_rate_signs_witness :
  let given k' q' :=
    set_mem (<[1%nat := [Some (of_int 2); Some (of_int 3); Some (of_int 4);
                         Some k'; Some q']]> (mem (blank_state 5))) (blank_state 5) in
  exists out : list cell,
    fit.fdoubleExp 4 (fun x => x) (Ptr 0 0) (Ptr 1 0) 5 (given (of_int 1) (of_int 5))
    = Some (tt, set_mem (<[0%nat := out]> (mem (given (of_int 1) (of_int 5))))
                  (blank_state 5))
    /\ fit.fdoubleExp 4 (fun x => x) (Ptr 0 0) (Ptr 1 0) 5
         (given (SFopp (of_int 1)) (SFopp (of_int 5)))
       = Some (tt, set_mem (<[0%nat := out]>
                              (mem (given (SFopp (of_int 1)) (SFopp (of_int 5)))))
                     (blank_state 5)).
Proof.
  apply (fdoubleExp_rate_signs 4 (fun x => x) 5 (blank_state 5) 0%nat 1%nat
           (replicate 5 None) (of_int 2) (of_int 3) (of_int 4) (of_int 1) (of_int 5)).
  - lia.
  - lia.
  - unfold INT_MAX; lia.
  - reflexivity.
  - simpl; lia.
  - lia.
Defined.

(** ** The design matrix of [lincoef] *)

Lemma lincoef_cells_0 (old : list cell) N :
  0 <= N -> lincoef_cells old N 0 = old.
Proof.
  intros HN. unfold lincoef_cells.
  rewrite filled_0 by exact HN. rewrite Z.add_0_r. simpl. apply take_drop.
Qed.

Lemma lincoef_cells_length (old : list cell) N c :
  0 <= c -> 0 <= N -> N + c <= Z.of_nat (length old) ->
  length (lincoef_cells old N c) = length old.
Proof.
  intros Hc HN Hlen. unfold lincoef_cells.
  rewrite !length_app, filled_length_le, length_take, length_replicate, length_drop;
    try lia.
  rewrite length_take. lia.
Qed.

(** The two stores of thread [c]. *)
Lemma lincoef_cells_step (old : list cell) N c :
  0 <= c -> 0 <= N -> N + c < Z.of_nat (length old) ->
  <[Z.to_nat (N + c) := Some (of_int 1)]>
    (if decide (c < N)
     then <[Z.to_nat c := Some (of_int c)]> (lincoef_cells old N c)
     else lincoef_cells old N c)
  = lincoef_cells old N (c + 1).
Proof.
  intros Hc HN Hlen. unfold lincoef_cells.
  set (col0 := take (Z.to_nat N) old).
  assert (Z.of_nat (length col0) = N) as Hcol0
    by (unfold col0; rewrite length_take; lia).
  assert (length (filled of_int col0 N c) = Z.to_nat N) as HF
    by (rewrite filled_length_le; lia).
  assert ((if decide (c < N)
           then <[Z.to_nat c := Some (of_int c)]>
                  (filled of_int col0 N c
                   ++ replicate (Z.to_nat c) (Some (of_int 1))
                   ++ drop (Z.to_nat (N + c)) old)
           else filled of_int col0 N c
                ++ replicate (Z.to_nat c) (Some (of_int 1))
                ++ drop (Z.to_nat (N + c)) old)
          = filled of_int col0 N (c + 1)
            ++ replicate (Z.to_nat c) (Some (of_int 1))
            ++ drop (Z.to_nat (N + c)) old) as ->.
  { destruct (decide (c < N)) as [Hlt | Hge].
    - rewrite insert_app_l by lia. now rewrite filled_step_le by lia.
    - now rewrite filled_skip by lia. }
  assert (length (filled of_int col0 N (c + 1)) = Z.to_nat N) as HF'
    by (rewrite filled_length_le; lia).
  replace (Z.to_nat (N + c))
    with (length (filled of_int col0 N (c + 1))
          + (length (replicate (Z.to_nat c) (Some (of_int 1) : cell)) + 0))%nat
    by (rewrite HF', length_replicate; lia).
  rewrite !insert_app_r.
  rewrite HF', length_replicate, Nat.add_0_r.
  replace (Z.to_nat N + Z.to_nat c)%nat with (Z.to_nat (N + c)) by lia.
  destruct (lookup_lt_is_Some_2 old (Z.to_nat (N + c))) as [x Hx]; [lia |].
  rewrite (drop_S old x _ Hx). cbn [insert list_insert].
  replace (Z.to_nat (c + 1)) with (S (Z.to_nat c)) by lia.
  rewrite replicate_S_end, <- app_assoc. cbn [app].
  now replace (Z.to_nat (N + (c + 1))) with (S (Z.to_nat (N + c))) by lia.
Qed.

Lemma lincoef_launch (tpb N nb : Z) (s : state) blk (old : list cell) :
  0 < tpb -> 0 <= N -> 0 <= nb -> nb * tpb <= INT_MAX ->
  mem s !! blk = Some old -> N + nb * tpb <= Z.of_nat (length old) ->
  launch1 nb tpb (fit.lincoef_ (Ptr blk 0) N) s
  = Some (tt, set_mem (<[blk := lincoef_cells old N (nb * tpb)]> (mem s)) s).
Proof.
  intros Htpb HN Hnb Hmax Hold Hlen. unfold launch1.
  set (St := fun c => set_mem (<[blk := lincoef_cells old N c]> (mem s)) s).
  destruct (for_range_inv (fun b s1 => s1 = St (tpb * b))
              (fun b => for_range tpb (fun t => fit.lincoef_ (Ptr blk 0) N tpb b t))
              nb s) as (s' & Hrun & Hs').
  - exact Hnb.
  - unfold St. rewrite Z.mul_0_r, lincoef_cells_0 by exact HN.
    rewrite insert_id by exact Hold. now rewrite set_mem_id.
  - intros b s1 Hb ->.
    destruct (for_range_inv (fun t s1 => s1 = St (tpb * b + t))
                (fun t => fit.lincoef_ (Ptr blk 0) N tpb b t)
                tpb (St (tpb * b))) as (s2 & Hrun2 & Hs2).
    + lia.
    + now rewrite Z.add_0_r.
    + intros t s1 Ht ->. unfold fit.lincoef_. cbv zeta.
      rewrite thread_index_small by nia.
      set (c := tpb * b + t).
      replace (tpb * b + (t + 1)) with (c + 1) by lia.
      assert (0 <= c /\ N + c < Z.of_nat (length old)) as [Hc0 Hc] by (unfold c; nia).
      exists (St (c + 1)). split; [| reflexivity].
      destruct (decide (c < N)) as [Hlt | Hge].
      * erewrite bind_Some.
        2:{ apply (store_ok _ _ _ (lincoef_cells old N c)); simpl.
            - now rewrite lookup_insert_eq.
            - rewrite lincoef_cells_length by lia. lia. }
        rewrite (store_ok _ _ _ (<[Z.to_nat c := Some (of_int c)]>
                                   (lincoef_cells old N c))).
        -- simpl. rewrite !insert_insert_eq. unfold St.
           rewrite <- (lincoef_cells_step old N c) by lia.
           now rewrite decide_True by exact Hlt.
        -- simpl. now rewrite lookup_insert_eq.
        -- simpl. rewrite length_insert, lincoef_cells_length by lia. lia.
      * rewrite (bind_Some _ _ _ tt (St c)) by reflexivity.
        rewrite (store_ok _ _ _ (lincoef_cells old N c)).
        -- simpl. rewrite insert_insert_eq. unfold St.
           rewrite <- (lincoef_cells_step old N c) by lia.
           now rewrite decide_False by exact Hge.
        -- simpl. now rewrite lookup_insert_eq.
        -- simpl. rewrite lincoef_cells_length by lia. lia.
    + exists s2. split; [exact Hrun2 |]. subst s2. f_equal. lia.
  - transitivity (Some (tt, s')); [exact Hrun |].
    subst s'. unfold St. now rewrite (Z.mul_comm tpb nb).
Qed.

Lemma grid_threads N tpb :
  0 < tpb -> 0 <= N ->
  let threads := Z.quot (N + tpb - 1) tpb * tpb in
  N <= threads < N + tpb /\ (threads = N <-> N mod tpb = 0).
Proof.
  intros Htpb HN threads. unfold threads.
  rewrite Z.quot_div_nonneg by lia.
  pose proof (Z.div_mod (N + tpb - 1) tpb ltac:(lia)) as Hdm.
  pose proof (Z.mod_pos_bound (N + tpb - 1) tpb Htpb) as Hmod.
  pose proof (Z.div_mod N tpb ltac:(lia)) as HdmN.
  pose proof (Z.mod_pos_bound N tpb Htpb) as HmodN.
  split; [lia |]. split.
  - intros Heq. rewrite <- Heq. apply Z_mod_mult.
  - intros H0.
    assert ((N + tpb - 1) / tpb = N / tpb) as ->; [| lia].
    symmetry. apply (Z.div_unique _ _ _ (tpb - 1)); lia.
Qed.

(** X6: [lincoef(A, N)] on a block with room for one cell per thread behind
    the first column: the cells [0 .. N-1] get [0, 1, ..., N-1], and
    every thread of the grid, guarded or not, sets one of the cells that
    follow to 1.  The grid has between [N] and [N + threadsPerBlock - 1]
    threads, and exactly [N] when the block size divides [N]: only then
    are the cells written the [2 N] cells of the design matrix. *)
Theorem lincoef_fills (tpb N : Z) (s : state) (ab : nat) (old : list cell) :
  0 < tpb -> 0 <= N -> 2 * N + tpb - 1 <= INT_MAX ->
  mem s !! ab = Some old ->
  let threads := Z.quot (N + tpb - 1) tpb * tpb in
  N + threads <= Z.of_nat (length old) ->
  fit.lincoef tpb (Ptr ab 0) N s
  = Some (tt, set_mem (<[ab := (Some <$> (of_int <$> seqZ 0 N))
                               ++ replicate (Z.to_nat threads) (Some (of_int 1))
                               ++ drop (Z.to_nat (N + threads)) old]> (mem s)) s)
  /\ N <= threads < N + tpb
  /\ (threads = N <-> N mod tpb = 0).
Proof.
  intros Htpb HN Hmax Hold threads Hlen.
  destruct (grid_threads N tpb Htpb HN) as [Hthreads Hexact].
  fold threads in Hthreads, Hexact.
  split; [| split; assumption].
  destruct (blocks_cover N tpb Htpb HN) as (Hnb & Hlo & Hhi).
  unfold fit.lincoef.
  rewrite (bind_Some _ _ s tt s)
    by (apply assert_true; unfold int_ok, INT_MAX in *; lia).
  erewrite bind_Some.
  2:{ apply (lincoef_launch tpb N _ s ab old); try assumption; lia. }
  fold threads. unfold lincoef_cells.
  rewrite filled_all_le by lia. unfold prefix_filled.
  rewrite drop_ge by (rewrite length_take; lia). rewrite app_nil_r.
  reflexivity.
Qed.

Lemma lincoef_fills_witness :
  fit.lincoef 4 (Ptr 0 0) 6 (blank_state 15)
  = Some (tt, set_mem (<[0%nat := (Some <$> (of_int <$> seqZ 0 6))
                                  ++ replicate 8 (Some (of_int 1))
                                  ++ [None]]> (mem (blank_state 15)))
                (blank_state 15))
  /\ 6 <= 8 < 6 + 4
  /\ (8 = 6 <-> 6 mod 4 = 0).
Proof.
  apply (lincoef_fills 4 6 (blank_state 15) 0%nat (replicate 15 None)).
  - lia.
  - lia.
  - unfold INT_MAX; lia.
  - reflexivity.
  - vm_compute. discriminate.
Defined.

(** A loop with a pass that fails on every state the earlier passes can
    leave does not return. *)
Lemma forM_fails {A} (I : state -> Prop) (body : A -> Comp unit) l a s :
  a ∈ l -> I s ->
  (forall x s1 s2, I s1 -> body x s1 = Some (tt, s2) -> I s2) ->
  (forall s1, I s1 -> body a s1 = None) ->
  forM l body s = None.
Proof.
  intros Hin HI Hkeep Hfail. revert s HI.
  induction l as [|x l IH]; intros s HI; [now apply elem_of_nil in Hin |].
  unfold forM in *. cbn [foldM]. unfold bind.
  apply elem_of_cons in Hin as [<- | Hin].
  - now rewrite (Hfail s HI).
  - destruct (body x s) as [[[] s2] |] eqn:Hx; [| reflexivity].
    apply (IH Hin s2). exact (Hkeep x s s2 HI Hx).
Qed.

Lemma forM_keeps {A} (I : state -> Prop) (body : A -> Comp unit) l s s' :
  (forall x s1 s2, I s1 -> body x s1 = Some (tt, s2) -> I s2) ->
  I s -> forM l body s = Some (tt, s') -> I s'.
Proof.
  intros Hkeep. revert s.
  induction l as [|x l IH]; intros s HI Hrun.
  - unfold forM in Hrun. cbn in Hrun. unfold ret in Hrun. congruence.
  - unfold forM in *. cbn [foldM] in Hrun. unfold bind in Hrun.
    destruct (body x s) as [[[] s2] |] eqn:Hx; [| discriminate].
    exact (IH s2 (Hkeep x s s2 HI Hx) Hrun).
Qed.

(** A store keeps the size of the block it writes to. *)
Lemma store_keeps_length blk (n : nat) i v s s' :
  (exists c : list cell, mem s !! blk = Some c /\ length c = n) ->
  store (Ptr blk 0) i v s = Some (tt, s') ->
  exists c : list cell, mem s' !! blk = Some c /\ length c = n.
Proof.
  intros (c & Hc & Hlen). unfold store, block_store. cbn [p_blk p_off].
  rewrite Hc. case_decide; [| discriminate].
  intros [= <-]. eexists. norm_state. rewrite lookup_insert_eq.
  split; [reflexivity |]. now rewrite length_insert.
Qed.

Lemma store_out_of_range blk i v s (c : list cell) :
  mem s !! blk = Some c -> Z.of_nat (length c) <= i ->
  store (Ptr blk 0) i v s = None.
Proof.
  intros Hc Hi. unfold store, block_store. cbn [p_blk p_off].
  rewrite Hc. now rewrite decide_False by lia.
Qed.

Lemma lincoef_thread_keeps blk (n : nat) N bd bi ti s s' :
  (exists c : list cell, mem s !! blk = Some c /\ length c = n) ->
  fit.lincoef_ (Ptr blk 0) N bd bi ti s = Some (tt, s') ->
  exists c : list cell, mem s' !! blk = Some c /\ length c = n.
Proof.
  intros HI. unfold fit.lincoef_. cbv zeta. unfold bind.
  case_decide.
  - destruct (store (Ptr blk 0) _ _ s) as [[[] s1] |] eqn:H1; [| discriminate].
    apply store_keeps_length. exact (store_keeps_length _ _ _ _ _ _ HI H1).
  - cbn. apply store_keeps_length. exact HI.
Qed.

(** X7: [lincoef(A, N)] on a block with fewer cells than [N] plus the number
    of threads of the grid does not return: the unguarded store of the
    last thread, if of none before, falls behind the block.  A block of
    the [2 N] cells of the design matrix is such a block whenever the
    block size does not divide [N]. *)
Theorem lincoef_overruns (tpb N : Z) (s : state) (ab : nat) (old : list cell) :
  0 < tpb -> 0 <= N -> 2 * N + tpb - 1 <= INT_MAX ->
  mem s !! ab = Some old ->
  Z.of_nat (length old) < N + Z.quot (N + tpb - 1) tpb * tpb ->
  fit.lincoef tpb (Ptr ab 0) N s = None.
Proof.
  intros Htpb HN Hmax Hold Hshort.
  destruct (blocks_cover N tpb Htpb HN) as (Hnb & Hlo & Hhi).
  set (nb := Z.quot (N + tpb - 1) tpb) in *.
  assert (1 <= nb) as Hnb1 by nia.
  unfold fit.lincoef. fold nb.
  rewrite (bind_Some _ _ s tt s)
    by (apply assert_true; unfold int_ok, INT_MAX in *; lia).
  apply bind_None. unfold launch1, for_range.
  set (I := fun s1 : state =>
              exists c : list cell, mem s1 !! ab = Some c /\ length c = length old).
  assert (forall b t s1 s2, I s1 ->
            fit.lincoef_ (Ptr ab 0) N tpb b t s1 = Some (tt, s2) -> I s2) as Hthread.
  { intros b t s1 s2 HI Hrun. exact (lincoef_thread_keeps _ _ _ _ _ _ _ _ HI Hrun). }
  apply (forM_fails I _ _ (nb - 1)).
  - apply elem_of_seqZ. lia.
  - exists old. split; [exact Hold | reflexivity].
  - intros b s1 s2 HI Hrun.
    exact (forM_keeps I _ _ _ _ (Hthread b) HI Hrun).
  - intros s1 HI.
    apply (forM_fails I _ _ (tpb - 1)).
    + apply elem_of_seqZ. lia.
    + exact HI.
    + exact (Hthread (nb - 1)).
    + intros s2 (c & Hc & Hlen). unfold fit.lincoef_. cbv zeta.
      rewrite thread_index_small by nia.
      unfold bind.
      destruct ((if decide (tpb * (nb - 1) + (tpb - 1) < N)
                 then store (Ptr ab 0) (tpb * (nb - 1) + (tpb - 1))
                        (of_int (tpb * (nb - 1) + (tpb - 1)))
                 else ret tt) s2) as [[[] s3] |] eqn:H1; [| reflexivity].
      assert (I s3) as (c3 & Hc3 & Hlen3).
      { case_decide.
        - apply (store_keeps_length _ _ _ _ _ _ (ex_intro _ c (conj Hc Hlen)) H1).
        - cbn in H1. injection H1 as <-. exists c. easy. }
      apply (store_out_of_range _ _ _ _ c3 Hc3). nia.
Qed.

Lemma lincoef_overruns_witness :
  fit.lincoef 4 (Ptr 0 0) 6 (blank_state 12) = None.
Proof.
  apply (lincoef_overruns 4 6 (blank_state 12) 0%nat (replicate 12 None)).
  - lia.
  - lia.
  - unfold INT_MAX; lia.
  - reflexivity.
  - vm_compute. reflexivity.
Defined.

(** ** The product of [mult] *)

Lemma gemm_dot_Some (a b : Z -> option float) (x y : Z -> float) k :
  (forall l, 0 <= l < k -> a l = Some (x l) /\ b l = Some (y l)) ->
  gemm_dot a b k = Some (dot x y k).
Proof.
  unfold gemm_dot, dot.
  assert (forall n : nat,
            (forall l, 0 <= l < Z.of_nat n -> a l = Some (x l) /\ b l = Some (y l)) ->
            foldl (fun acc l => s ← acc; u ← a (Z.of_nat l); v ← b (Z.of_nat l);
                                Some (fadd s (fmul u v)))
                  (Some fzero) (seq 0 n)
            = Some (foldl (fun acc l => fadd acc (fmul (x (Z.of_nat l)) (y (Z.of_nat l))))
                          fzero (seq 0 n))) as Hgen.
  { induction n as [|n IH]; intros H; [reflexivity |].
    rewrite seq_S, !foldl_app. cbn [foldl]. rewrite IH by (intros; apply H; lia).
    destruct (H (Z.of_nat (0 + n))) as [-> ->]; [lia |]. reflexivity. }
  intros H. apply Hgen. intros l Hl. apply H. lia.
Qed.

Lemma peek_total (m : gmap nat (list cell)) blk (vs : list float) k :
  m !! blk = Some (Some <$> vs) -> 0 <= k < Z.of_nat (length vs) ->
  peek m (Ptr blk 0) k = Some (vs !!! Z.to_nat k).
Proof.
  intros Hm Hk.
  destruct (lookup_lt_is_Some_2 vs (Z.to_nat k)) as [v Hv]; [lia |].
  rewrite (list_lookup_total_correct _ _ _ Hv).
  now apply (peek_ok m blk vs k v).
Qed.

Lemma operand_index_nonneg T ld row col :
  0 <= ld -> 0 <= row -> 0 <= col -> 0 <= operand_index T ld row col.
Proof. intros. unfold operand_index. destruct T; nia. Qed.

(** The run of [mult] on operands that are in range. *)
Lemma mult_run (s : state) (ab bb cb : nat) (la lb : list float)
    (cold : list cell) (alpha beta : float) (TA TB : bool) (M N K : Z) :
  1 <= M -> 1 <= N -> 0 <= K -> M * K <= INT_MAX ->
  (TA = true -> N <= M) -> (TB = true -> K <= N) ->
  mem s !! ab = Some (Some <$> la) -> mem s !! bb = Some (Some <$> lb) ->
  (forall r l, 0 <= r < M -> 0 <= l < N ->
     operand_index TA M r l < Z.of_nat (length la)) ->
  (forall l c, 0 <= l < N -> 0 <= c < K ->
     operand_index TB N l c < Z.of_nat (length lb)) ->
  mem s !! cb = Some cold -> Z.of_nat (length cold) = M * K ->
  cb <> ab -> cb <> bb ->
  matrix.mult (Ptr ab 0) (Ptr bb 0) (Ptr cb 0) alpha beta TA TB M N K s
  = Some (tt, set_mem (<[cb := Some <$> columns
                           (fun c => (fun r => product_entry alpha beta TA TB
                                                 la lb M N r c) <$> seqZ 0 M) K]>
                         (mem s)) s).
Proof.
  intros HM HN HK Hmax HTA HTB Ha Hb Hla Hlb HC HClen Hca Hcb.
  set (col := fun c => (fun r => product_entry alpha beta TA TB la lb M N r c)
                         <$> seqZ 0 M).
  assert (Z.of_nat (length (columns col K)) = K * M) as Hlen.
  { apply columns_length; try lia.
    intros k _. unfold col. rewrite length_fmap, length_seqZ. lia. }
  unfold matrix.mult. cbv zeta.
  rewrite (bind_Some _ _ _ CUBLAS_STATUS_SUCCESS s) by reflexivity.
  rewrite (bind_Some _ _ _ tt s) by reflexivity.
  rewrite (bind_Some _ _ _ tt s)
    by (apply assert_true; unfold int_ok, INT_MAX in *; nia).
  rewrite (bind_Some _ _ _ _ _ (cudaMemset0_ok s cb cold (M * K) HC HClen)).
  set (s1 := set_mem _ s).
  assert (mem s1 !! ab = Some (Some <$> la)) as Ha1
    by (unfold s1; norm_state; now rewrite lookup_insert_ne).
  assert (mem s1 !! bb = Some (Some <$> lb)) as Hb1
    by (unfold s1; norm_state; now rewrite lookup_insert_ne).
  assert (mem s1 !! cb = Some (Some <$> replicate (Z.to_nat (M * K)) fzero)) as Hc1
    by (unfold s1; norm_state; now rewrite lookup_insert_eq).
  erewrite bind_Some.
  2:{ unfold cublasSgemm_v2.
      rewrite decide_True.
      2:{ destruct TA, TB;
            try specialize (HTA eq_refl); try specialize (HTB eq_refl); lia. }
      erewrite (tabulate_Some K _ col).
      2:{ intros c Hc. apply tabulate_Some. intros r Hr.
          unfold gemm_entry.
          erewrite (gemm_dot_Some _ _
                      (fun l => la !!! Z.to_nat (operand_index TA M r l))
                      (fun l => lb !!! Z.to_nat (operand_index TB N l c)) N).
          2:{ intros l Hl. split.
              - specialize (Hla r l Hr Hl).
                pose proof (operand_index_nonneg TA M r l) as H0.
                unfold operand_index in *.
                destruct TA; apply (peek_total _ ab la _ Ha1); lia.
              - specialize (Hlb l c Hl Hc).
                pose proof (operand_index_nonneg TB N l c) as H0.
                unfold operand_index in *.
                destruct TB; apply (peek_total _ bb lb _ Hb1); lia. }
          cbn [mbind option_bind]. unfold product_entry.
          destruct (is_zero beta); [reflexivity |].
          rewrite (peek_ok _ cb (replicate (Z.to_nat (M * K)) fzero)
                     (c * M + r) fzero Hc1).
          - reflexivity.
          - nia.
          - apply lookup_replicate_2. nia. }
      erewrite bind_Some; [reflexivity |].
      eapply store_columns_ok.
      - lia.
      - apply Forall_fmap, Forall_true. intros c. simpl.
        unfold col. rewrite length_fmap, length_seqZ. lia.
      - lia.
      - exact Hc1.
      - rewrite !length_fmap, length_seqZ, length_replicate. nia. }
  rewrite assert_true by reflexivity.
  unfold s1. norm_state. rewrite insert_insert_eq. do 3 f_equal.
  fold (columns col K).
  rewrite drop_ge; [now rewrite app_nil_r |].
  rewrite length_fmap, length_replicate. nia.
Qed.

Lemma product_columns alpha beta TA TB la lb M N K :
  0 <= M -> 0 <= K ->
  let col := fun c => (fun r => product_entry alpha beta TA TB la lb M N r c)
                        <$> seqZ 0 M in
  Z.of_nat (length (columns col K)) = M * K
  /\ (forall r c, 0 <= r < M -> 0 <= c < K ->
        columns col K !! Z.to_nat (c * M + r)
        = Some (product_entry alpha beta TA TB la lb M N r c)).
Proof.
  intros HM HK col.
  assert (forall k, 0 <= k < K -> Z.of_nat (length (col k)) = M) as Hcol.
  { intros k _. unfold col. rewrite length_fmap, length_seqZ. lia. }
  split.
  - rewrite (columns_length col M K) by (try lia; exact Hcol). lia.
  - intros r c Hr Hc.
    rewrite (columns_lookup col M K c r) by (try lia; exact Hcol).
    unfold col. rewrite list_lookup_fmap, lookup_seqZ_lt by lia. simpl.
    now replace (0 + Z.of_nat (Z.to_nat r)) with r by lia.
Qed.

(** X8: [mult(A, B, C, alpha, beta, TA, TB, M, N, K)] overwrites [C],
    whatever it held, with the [M x K] matrix whose cell [(r, c)] is
    [alpha] times the dot product of row [r] of [op(A)] and column [c]
    of [op(B)] (plus [beta] times the zero [C] was set to, when [beta]
    is not zero).  Both operands are read with the leading dimensions of
    the untransposed shapes, [M] and [N]: with [TA] the element
    [(r, l)] of [op(A)] is taken from [A[r * M + l]], which asks for
    [N <= M], and with [TB] the element [(l, c)] of [op(B)] from
    [B[l * N + c]], which asks for [K <= N]. *)
Theorem mult_product (s : state) (ab bb cb : nat) (la lb : list float)
    (cold : list cell) (alpha beta : float) (TA TB : bool) (M N K : Z) :
  1 <= M -> 1 <= N -> 0 <= K -> M * K <= INT_MAX ->
  (TA = true -> N <= M) -> (TB = true -> K <= N) ->
  mem s !! ab = Some (Some <$> la) -> mem s !! bb = Some (Some <$> lb) ->
  (forall r l, 0 <= r < M -> 0 <= l < N ->
     operand_index TA M r l < Z.of_nat (length la)) ->
  (forall l c, 0 <= l < N -> 0 <= c < K ->
     operand_index TB N l c < Z.of_nat (length lb)) ->
  mem s !! cb = Some cold -> Z.of_nat (length cold) = M * K ->
  cb <> ab -> cb <> bb ->
  exists C : list float,
    matrix.mult (Ptr ab 0) (Ptr bb 0) (Ptr cb 0) alpha beta TA TB M N K s
    = Some (tt, set_mem (<[cb := Some <$> C]> (mem s)) s)
    /\ Z.of_nat (length C) = M * K
    /\ (forall r c, 0 <= r < M -> 0 <= c < K ->
          C !! Z.to_nat (c * M + r)
          = Some (product_entry alpha beta TA TB la lb M N r c)).
Proof.
  intros HM HN HK Hmax HTA HTB Ha Hb Hla Hlb HC HClen Hca Hcb.
  destruct (product_columns alpha beta TA TB la lb M N K) as [Hlen Hcell]; try lia.
  eexists. split; [| split].
  - now apply (mult_run s ab bb cb la lb cold alpha beta TA TB M N K).
  - exact Hlen.
  - exact Hcell.
Qed.

Lemma mult_product_witness :
  let la := [of_int 1; of_int 3; of_int 2; of_int 4] in
  let lb := [of_int 5; of_int 7; of_int 6; of_int 8] in
  exists C : list float,
    matrix.mult (Ptr 0 0) (Ptr 1 0) (Ptr 2 0) (of_int 1) (of_int 1) true false
      2 2 2 square_state
    = Some (tt, set_mem (<[2%nat := Some <$> C]> (mem square_state)) square_state)
    /\ Z.of_nat (length C) = 2 * 2
    /\ (forall r c, 0 <= r < 2 -> 0 <= c < 2 ->
          C !! Z.to_nat (c * 2 + r)
          = Some (product_entry (of_int 1) (of_int 1) true false la lb 2 2 r c)).
Proof.
  cbv zeta.
  apply (mult_product square_state 0%nat 1%nat 2%nat
           [of_int 1; of_int 3; of_int 2; of_int 4]
           [of_int 5; of_int 7; of_int 6; of_int 8]
           (replicate 4 None) (of_int 1) (of_int 1) true false 2 2 2).
  - lia.
  - lia.
  - lia.
  - unfold INT_MAX; lia.
  - lia.
  - discriminate.
  - reflexivity.
  - reflexivity.
  - intros r l Hr Hl. unfold operand_index. simpl. lia.
  - intros l c Hl Hc. unfold operand_index. simpl. lia.
  - reflexivity.
  - reflexivity.
  - lia.
  - lia.
Defined.

(** X9: [mult] stops at the assertion on the status of [cublasSgemm], without
    a product, as soon as a leading dimension it passes is refused: for
    [M < 1], for an inner dimension [N < 1] (where the product would be
    the zero matrix), for [K < 0], for [TA] with [M < N] and for [TB]
    with [N < K].  This is so on every store and for all pointers. *)
Theorem mult_rejects (s : state) (A B C : ptr) (alpha beta : float)
    (TA TB : bool) (M N K : Z) :
  M < 1 \/ N < 1 \/ K < 0 \/ (TA = true /\ M < N) \/ (TB = true /\ N < K) ->
  matrix.mult A B C alpha beta TA TB M N K s = None.
Proof.
  intros Hbad. unfold matrix.mult. cbv zeta.
  rewrite (bind_Some _ _ _ CUBLAS_STATUS_SUCCESS s) by reflexivity.
  rewrite (bind_Some _ _ _ tt s) by reflexivity.
  unfold bind at 1. unfold assert at 1.
  destruct (decide (int_ok (M * K))) as [_ | _]; [| reflexivity].
  cbn [ret]. unfold bind at 1.
  destruct (cudaMemset0 C (M * K) s) as [[e s1] |]; [| reflexivity].
  unfold cublasSgemm_v2.
  rewrite decide_False.
  - reflexivity.
  - intros (H1 & H2 & H3 & H4 & H5 & H6).
    destruct Hbad as [H | [H | [H | [[-> H] | [-> H]]]]]; lia.
Qed.

Lemma mult_rejects_witness :
  matrix.mult (Ptr 0 0) (Ptr 1 0) (Ptr 2 0) (of_int 1) (of_int 1) true false
    1 2 1 product_state = None.
Proof.
  apply (mult_rejects product_state (Ptr 0 0) (Ptr 1 0) (Ptr 2 0)
           (of_int 1) (of_int 1) true false 1 2 1).
  right. right. right. left. split; [reflexivity | lia].
Defined.

Lemma fadd_zero_r (x : float) s : is_zero x = false -> fadd x (S754_zero s) = x.
Proof. destruct x as [sx | sx | | sx m e]; try discriminate; reflexivity. Qed.

Lemma fmul_zero_r (x : float) :
  is_nan x = false -> is_inf x = false -> exists s, fmul x fzero = S754_zero s.
Proof.
  destruct x as [sx | sx | | sx m e]; try discriminate; intros _ _;
    eexists; reflexivity.
Qed.

(** X10: [beta] scales nothing: for every [beta] that is a number, the cell
    [(r, c)] of the output of [mult] is [alpha] times the dot product,
    as for [beta = 0]; only where that is a zero can the sign of the
    zero depend on [beta]. *)
Theorem mult_ignores_beta (s : state) (ab bb cb : nat) (la lb : list float)
    (cold : list cell) (alpha beta : float) (TA TB : bool) (M N K : Z) :
  1 <= M -> 1 <= N -> 0 <= K -> M * K <= INT_MAX ->
  (TA = true -> N <= M) -> (TB = true -> K <= N) ->
  mem s !! ab = Some (Some <$> la) -> mem s !! bb = Some (Some <$> lb) ->
  (forall r l, 0 <= r < M -> 0 <= l < N ->
     operand_index TA M r l < Z.of_nat (length la)) ->
  (forall l c, 0 <= l < N -> 0 <= c < K ->
     operand_index TB N l c < Z.of_nat (length lb)) ->
  mem s !! cb = Some cold -> Z.of_nat (length cold) = M * K ->
  cb <> ab -> cb <> bb ->
  is_nan beta = false -> is_inf beta = false ->
  let product r c :=
    fmul alpha (dot (fun l => la !!! Z.to_nat (operand_index TA M r l))
                    (fun l => lb !!! Z.to_nat (operand_index TB N l c)) N) in
  exists C : list float,
    matrix.mult (Ptr ab 0) (Ptr bb 0) (Ptr cb 0) alpha beta TA TB M N K s
    = Some (tt, set_mem (<[cb := Some <$> C]> (mem s)) s)
    /\ (forall r c, 0 <= r < M -> 0 <= c < K ->
          is_zero (product r c) = false ->
          C !! Z.to_nat (c * M + r) = Some (product r c))
    /\ (forall r c, 0 <= r < M -> 0 <= c < K ->
          is_zero (product r c) = true ->
          exists v, C !! Z.to_nat (c * M + r) = Some v /\ is_zero v = true).
Proof.
  intros HM HN HK Hmax HTA HTB Ha Hb Hla Hlb HC HClen Hca Hcb Hnan Hinf product.
  destruct (product_columns alpha beta TA TB la lb M N K) as [Hlen Hcell]; try lia.
  destruct (fmul_zero_r beta Hnan Hinf) as [sz Hz].
  eexists. split; [| split].
  - now apply (mult_run s ab bb cb la lb cold alpha beta TA TB M N K).
  - intros r c Hr Hc Hnz. rewrite (Hcell r c Hr Hc). f_equal.
    unfold product_entry. fold (product r c).
    destruct (is_zero beta); [reflexivity |].
    rewrite Hz. now apply fadd_zero_r.
  - intros r c Hr Hc Hzero. rewrite (Hcell r c Hr Hc).
    eexists. split; [reflexivity |].
    unfold product_entry. fold (product r c).
    destruct (is_zero beta); [exact Hzero |].
    rewrite Hz. destruct (product r c) as [sp | | |]; try discriminate.
    now destruct sp, sz.
Qed.

Lemma mult_ignores_beta_witness :
  let la := [of_int 1; of_int 3; of_int 2; of_int 4] in
  let lb := [of_int 5; of_int 7; of_int 6; of_int 8] in
  let product r c :=
    fmul (of_int 1) (dot (fun l => la !!! Z.to_nat (operand_index false 2 r l))
                         (fun l => lb !!! Z.to_nat (operand_index false 2 l c)) 2) in
  exists C : list float,
    matrix.mult (Ptr 0 0) (Ptr 1 0) (Ptr 2 0) (of_int 1) (of_int 2) false false
      2 2 2 square_state
    = Some (tt, set_mem (<[2%nat := Some <$> C]> (mem square_state)) square_state)
    /\ (forall r c, 0 <= r < 2 -> 0 <= c < 2 ->
          is_zero (product r c) = false ->
          C !! Z.to_nat (c * 2 + r) = Some (product r c))
    /\ (forall r c, 0 <= r < 2 -> 0 <= c < 2 ->
          is_zero (product r c) = true ->
          exists v, C !! Z.to_nat (c * 2 + r) = Some v /\ is_zero v = true).
Proof.
  apply (mult_ignores_beta square_state 0%nat 1%nat 2%nat
           [of_int 1; of_int 3; of_int 2; of_int 4]
           [of_int 5; of_int 7; of_int 6; of_int 8]
           (replicate 4 None) (of_int 1) (of_int 2) false false 2 2 2).
  - lia.
  - lia.
  - lia.
  - unfold INT_MAX; lia.
  - discriminate.
  - discriminate.
  - reflexivity.
  - reflexivity.
  - intros r l Hr Hl. unfold operand_index. simpl. lia.
  - intros l c Hl Hc. unfold operand_index. simpl. lia.
  - reflexivity.
  - reflexivity.
  - lia.
  - lia.
  - reflexivity.
  - reflexivity.
Defined.

(** ** [multD] in place *)

(** X11: [multD(A, B, B, M, N)], with the matrix as its own output, does not
    scale the rows of [B]: [B] is set to zero before it is read, so that
    cell [(r, c)] comes out as [A[r] * 0], a zero for every diagonal
    entry that is a number, whatever [B] held. *)
Theorem multD_in_place_erases (s : state) (ab bb : nat)
    (d : list float) (bold : list cell) (M N : Z) :
  1 <= M -> 0 <= N -> M * N <= INT_MAX ->
  mem s !! ab = Some (Some <$> d) -> Z.of_nat (length d) = M ->
  mem s !! bb = Some bold -> Z.of_nat (length bold) = M * N -> bb <> ab ->
  exists C : list float,
    matrix.multD (Ptr ab 0) (Ptr bb 0) (Ptr bb 0) M N s
    = Some (tt, set_mem (<[bb := Some <$> C]> (mem s)) s)
    /\ Z.of_nat (length C) = M * N
    /\ (forall r c, 0 <= r < M -> 0 <= c < N ->
          C !! Z.to_nat (c * M + r) = Some (fmul (d !!! Z.to_nat r) fzero))
    /\ (forall r c, 0 <= r < M -> 0 <= c < N ->
          is_nan (d !!! Z.to_nat r) = false -> is_inf (d !!! Z.to_nat r) = false ->
          exists v, C !! Z.to_nat (c * M + r) = Some v /\ is_zero v = true).
Proof.
  intros HM HN Hmax Hd Hdlen HB HBlen Hne.
  set (Z0s := replicate (Z.to_nat (M * N)) fzero).
  assert (forall r c, 0 <= r < M -> 0 <= c < N ->
            diagonal_product d Z0s M N !! Z.to_nat (c * M + r)
            = Some (fmul (d !!! Z.to_nat r) fzero)) as Hcell.
  { intros r c Hr Hc. rewrite diagonal_product_lookup by assumption.
    unfold Z0s. now rewrite lookup_total_replicate_2 by nia. }
  exists (diagonal_product d Z0s M N).
  split; [| split; [| split]].
  - unfold matrix.multD.
    rewrite (bind_Some _ _ _ CUBLAS_STATUS_SUCCESS s) by reflexivity.
    rewrite (bind_Some _ _ _ tt s) by reflexivity.
    rewrite (bind_Some _ _ _ tt s)
      by (apply assert_true; unfold int_ok, INT_MAX in *; nia).
    rewrite (bind_Some _ _ _ _ _ (cudaMemset0_ok s bb bold (M * N) HB HBlen)).
    rewrite (bind_Some _ _ _ _ _ (gpuErrchk_ok _)).
    set (s1 := set_mem _ s).
    assert (mem s1 !! ab = Some (Some <$> d)) as Hd1
      by (unfold s1; norm_state; now rewrite lookup_insert_ne).
    assert (mem s1 !! bb = Some (Some <$> Z0s)) as HB1
      by (unfold s1; norm_state; now rewrite lookup_insert_eq).
    erewrite bind_Some.
    2:{ unfold cublasSdgmm_left. rewrite decide_True by lia.
        erewrite (tabulate_Some N _
                    (fun c => (fun r => fmul (d !!! Z.to_nat r)
                                          (Z0s !!! Z.to_nat (c * M + r))) <$> seqZ 0 M)).
        2:{ intros c Hc. apply tabulate_Some. intros r Hr.
            unfold dgmm_entry. rewrite decide_True by lia.
            rewrite (peek_total _ ab d (r * 1) Hd1) by lia.
            rewrite (peek_total _ bb Z0s (c * M + r) HB1)
              by (unfold Z0s; rewrite length_replicate; nia).
            cbn [mbind option_bind]. now rewrite Z.mul_1_r. }
        erewrite bind_Some; [reflexivity |].
        eapply store_columns_ok.
        - lia.
        - apply Forall_fmap, Forall_true. intros c. simpl.
          rewrite length_fmap, length_seqZ. lia.
        - lia.
        - exact HB1.
        - unfold Z0s. rewrite !length_fmap, length_seqZ, length_replicate. nia. }
    rewrite assert_true by reflexivity.
    unfold s1. norm_state. rewrite insert_insert_eq. do 3 f_equal.
    fold (columns (fun c => (fun r => fmul (d !!! Z.to_nat r)
                                        (Z0s !!! Z.to_nat (c * M + r))) <$> seqZ 0 M) N).
    fold (diagonal_product d Z0s M N).
    rewrite drop_ge; [now rewrite app_nil_r |].
    pose proof (diagonal_product_length d Z0s M N).
    assert (length Z0s = Z.to_nat (M * N)) as HZ by apply length_replicate.
    fold Z0s. rewrite length_fmap. nia.
  - rewrite diagonal_product_length; lia.
  - exact Hcell.
  - intros r c Hr Hc Hnan Hinf. rewrite (Hcell r c Hr Hc).
    destruct (fmul_zero_r _ Hnan Hinf) as [sz ->]. eexists. split; reflexivity.
Qed.

Lemma multD_in_place_erases_witness :
  exists C : list float,
    matrix.multD (Ptr 0 0) (Ptr 1 0) (Ptr 1 0) 3 2 diagonal_state
    = Some (tt, set_mem (<[1%nat := Some <$> C]> (mem diagonal_state)) diagonal_state)
    /\ Z.of_nat (length C) = 3 * 2
    /\ (forall r c, 0 <= r < 3 -> 0 <= c < 2 ->
          C !! Z.to_nat (c * 3 + r)
          = Some (fmul ([fone; fone; fone] !!! Z.to_nat r) fzero))
    /\ (forall r c, 0 <= r < 3 -> 0 <= c < 2 ->
          is_nan ([fone; fone; fone] !!! Z.to_nat r) = false ->
          is_inf ([fone; fone; fone] !!! Z.to_nat r) = false ->
          exists v, C !! Z.to_nat (c * 3 + r) = Some v /\ is_zero v = true).
Proof.
  apply (multD_in_place_erases diagonal_state 0%nat 1%nat [fone; fone; fone]
           (Some <$> [of_int 1; of_int 2; of_int 3; of_int 4; of_int 5; of_int 6])
           3 2).
  - lia.
  - lia.
  - unfold INT_MAX; lia.
  - reflexivity.
  - reflexivity.
  - reflexivity.
  - reflexivity.
  - lia.
Defined.

(** ** More on the Jacobian estimators *)



(** X13: both estimators give back the two scratch blocks they allocate: when
    they return, the store has the blocks it had at entry, each with its
    content of the entry except the block of [J], which keeps its
    size. *)
Theorem estimators_release_scratch
    (f : fit.evaluator) (model : list float -> Z -> float) (N K : Z)
    (s0 : state) (jb pb : nat) (ps : list float) (jold : list cell) :
  implements f K N model -> 0 <= N -> N * K <= INT_MAX ->
  mem s0 !! pb = Some (Some <$> ps) -> Z.of_nat (length ps) = K ->
  mem s0 !! jb = Some jold -> Z.of_nat (length jold) = N * K -> jb <> pb ->
  let unchanged (s' : state) :=
    dom (mem s') = dom (mem s0)
    /\ (forall b, b <> jb -> mem s' !! b = mem s0 !! b)
    /\ (exists J' : list cell, mem s' !! jb = Some J' /\ length J' = length jold) in
  (exists s', fit.jacobian (Ptr jb 0) f (Ptr pb 0) N K s0 = Some (tt, s')
              /\ unchanged s')
  /\ (exists s', fit.jacobian_v2 (Ptr jb 0) f (Ptr pb 0) N K s0 = Some (tt, s')
                 /\ unchanged s').
Proof.
  intros Hf HN HNK Hps HK HJ HJlen Hne unchanged.
  assert (forall (col : Z -> list float) (g : float -> float) cs,
            (forall k, 0 <= k < K -> Z.of_nat (length (col k)) = N) ->
            unchanged (State (<[jb := Some <$> (g <$> columns col K)]> (mem s0)) cs))
    as Hun.
  { intros col g cs Hcol. unfold unchanged. norm_state. split; [| split].
    - apply dom_insert_lookup_L. now rewrite HJ.
    - intros b Hb. now rewrite lookup_insert_ne by congruence.
    - eexists. rewrite lookup_insert_eq. split; [reflexivity |].
      rewrite !length_fmap.
      pose proof (columns_length col N K ltac:(lia) HN Hcol). lia. }
  split.
  - eexists. split; [now apply (jacobian_run f model N K s0 jb pb ps jold) |].
    apply Hun. intros k _. now apply difference_column_length.
  - eexists. split; [now apply (jacobian_v2_run f model N K s0 jb pb ps jold) |].
    rewrite <- (list_fmap_id (columns (v2_column model ps N) K)).
    apply (Hun (v2_column model ps N) id). intros k _. now apply v2_column_length.
Qed.

Lemma estimators_release_scratch_witness :
  let unchanged (s' : state) :=
    dom (mem s') = dom (mem affine_state)
    /\ (forall b, b <> 1%nat -> mem s' !! b = mem affine_state !! b)
    /\ (exists J' : list cell,
          mem s' !! 1%nat = Some J' /\ length J' = length (replicate 10 (@None float))) in
  (exists s', fit.jacobian (Ptr 1 0) (fit.flinear 4) (Ptr 0 0) 5 2 affine_state
              = Some (tt, s') /\ unchanged s')
  /\ (exists s', fit.jacobian_v2 (Ptr 1 0) (fit.flinear 4) (Ptr 0 0) 5 2 affine_state
                 = Some (tt, s') /\ unchanged s').
Proof.
  apply (estimators_release_scratch (fit.flinear 4) flinear_model 5 2 affine_state
           1%nat 0%nat [of_int 2; of_int 3] (replicate 10 None)).
  - apply flinear_implements; unfold INT_MAX; lia.
  - lia.
  - unfold INT_MAX; lia.
  - reflexivity.
  - reflexivity.
  - reflexivity.
  - reflexivity.
  - lia.
Defined.

(** ** What one call of [transpose] does to the store *)

(** X14: [transpose(A, B, M, N)] between two blocks writes [B] only, cell
    [r * N + c] of [B] getting cell [c * M + r] of [A], and allocates
    nothing; [transpose(A, A, M, N)] leaves the store with one block
    more than it had, a copy of the input that nothing refers to, for
    all dimensions. *)
Theorem transpose_store_effect (BLOCK_DIM M N : Z) (s : state) (ab bb : nat)
    (la : list float) (b0 : list cell) :
  0 < BLOCK_DIM -> 0 <= M -> 0 <= N -> M * N <= INT_MAX ->
  M - 1 + BLOCK_DIM <= INT_MAX -> N - 1 + BLOCK_DIM <= INT_MAX ->
  mem s !! ab = Some (Some <$> la) -> Z.of_nat (length la) = M * N ->
  mem s !! bb = Some b0 -> Z.of_nat (length b0) = M * N -> ab <> bb ->
  (exists s1,
      matrix.transpose BLOCK_DIM (Ptr ab 0) (Ptr bb 0) M N s = Some (tt, s1)
      /\ dom (mem s1) = dom (mem s)
      /\ (forall b, b <> bb -> mem s1 !! b = mem s !! b)
      /\ (forall r c, 0 <= r < M -> 0 <= c < N ->
            peek (mem s1) (Ptr bb 0) (r * N + c) = la !! Z.to_nat (c * M + r)))
  /\
  (exists s2,
      matrix.transpose BLOCK_DIM (Ptr ab 0) (Ptr ab 0) M N s = Some (tt, s2)
      /\ mem s !! fresh (dom (mem s)) = None
      /\ dom (mem s2) = {[fresh (dom (mem s))]} ∪ dom (mem s)
      /\ mem s2 !! fresh (dom (mem s)) = Some (Some <$> la)
      /\ (forall b, b <> ab -> b <> fresh (dom (mem s)) -> mem s2 !! b = mem s !! b)
      /\ (forall r c, 0 <= r < M -> 0 <= c < N ->
            peek (mem s2) (Ptr ab 0) (r * N + c) = la !! Z.to_nat (c * M + r))).
Proof.
  intros HBD HM HN HMN HMB HNB Hab Hla Hbb Hb0 Hne.
  assert (forall (m : gmap nat (list cell)) blk r c,
            m !! blk = Some (Some <$> transposed la M N) ->
            0 <= r < M -> 0 <= c < N ->
            peek m (Ptr blk 0) (r * N + c) = la !! Z.to_nat (c * M + r)) as Hcell.
  { intros m blk r c Hm Hr Hc.
    destruct (lookup_lt_is_Some_2 la (Z.to_nat (c * M + r))) as [v Hv]; [nia |].
    rewrite Hv. apply (peek_ok m blk (transposed la M N) (r * N + c) v Hm); [nia |].
    rewrite transposed_entry by assumption. exact Hv. }
  split.
  - eexists.
    split; [apply (transpose_out_of_place BLOCK_DIM M N HBD HM HN HMN HMB HNB
                     la Hla s ab bb b0); assumption |].
    norm_state. split; [| split].
    + apply dom_insert_lookup_L. now rewrite Hbb.
    + intros b Hb. now rewrite lookup_insert_ne by congruence.
    + intros r c Hr Hc. apply Hcell; [| assumption | assumption].
      now rewrite lookup_insert_eq.
  - pose proof (fresh_block_free (mem s)) as Hfresh.
    assert (fresh (dom (mem s)) <> ab) as Hfa by congruence.
    eexists.
    split; [apply (transpose_in_place BLOCK_DIM M N HBD HM HN HMN HMB HNB
                     la Hla s ab); assumption |].
    norm_state. split; [exact Hfresh |]. split; [| split; [| split]].
    + rewrite dom_insert_lookup_L
        by (rewrite lookup_insert_ne by congruence; now rewrite Hab).
      apply dom_insert_L.
    + rewrite lookup_insert_ne by congruence. now rewrite lookup_insert_eq.
    + intros b Hb1 Hb2. now rewrite !lookup_insert_ne by congruence.
    + intros r c Hr Hc. apply Hcell; [| assumption | assumption].
      now rewrite lookup_insert_eq.
Qed.

Lemma transpose_store_effect_witness :
  let la := [of_int 1; of_int 2; of_int 3; of_int 4; of_int 5; of_int 6] in
  (exists s1,
      matrix.transpose 2 (Ptr 0 0) (Ptr 1 0) 3 2 matrix_state = Some (tt, s1)
      /\ dom (mem s1) = dom (mem matrix_state)
      /\ (forall b, b <> 1%nat -> mem s1 !! b = mem matrix_state !! b)
      /\ (forall r c, 0 <= r < 3 -> 0 <= c < 2 ->
            peek (mem s1) (Ptr 1 0) (r * 2 + c) = la !! Z.to_nat (c * 3 + r)))
  /\
  (exists s2,
      matrix.transpose 2 (Ptr 0 0) (Ptr 0 0) 3 2 matrix_state = Some (tt, s2)
      /\ mem matrix_state !! fresh (dom (mem matrix_state)) = None
      /\ dom (mem s2) = {[fresh (dom (mem matrix_state))]} ∪ dom (mem matrix_state)
      /\ mem s2 !! fresh (dom (mem matrix_state)) = Some (Some <$> la)
      /\ (forall b, b <> 0%nat -> b <> fresh (dom (mem matrix_state)) ->
            mem s2 !! b = mem matrix_state !! b)
      /\ (forall r c, 0 <= r < 3 -> 0 <= c < 2 ->
            peek (mem s2) (Ptr 0 0) (r * 2 + c) = la !! Z.to_nat (c * 3 + r))).
Proof.
  apply (transpose_store_effect 2 3 2 matrix_state 0%nat 1%nat
           [of_int 1; of_int 2; of_int 3; of_int 4; of_int 5; of_int 6]
           (replicate 6 None)).
  - lia.
  - lia.
  - lia.
  - unfold INT_MAX; lia.
  - unfold INT_MAX; lia.
  - unfold INT_MAX; lia.
  - reflexivity.
  - reflexivity.
  - reflexivity.
  - reflexivity.
  - lia.
Defined.

(** ** The order of the blocks of [transpose_] *)

Section TransposeSchedule.

Variables BLOCK_DIM M N : Z.
Hypothesis HBD : 0 < BLOCK_DIM.
Hypothesis HM : 0 <= M.
Hypothesis HN : 0 <= N.
Hypothesis HMN : M * N <= INT_MAX.
Hypothesis HMB : M - 1 + BLOCK_DIM <= INT_MAX.
Hypothesis HNB : N - 1 + BLOCK_DIM <= INT_MAX.

Variable la : list float.
Hypothesis Hla : Z.of_nat (length la) = M * N.

(** All the stores of the grid, the blocks taken in any order. *)
Lemma schedule_writes (order : list (Z * Z)) (c0 : list cell) :
  (forall b, b ∈ order <->
             b ∈ matrix.grid_blocks (Z.quot (M - 1 + BLOCK_DIM) BLOCK_DIM)
                   (Z.quot (N - 1 + BLOCK_DIM) BLOCK_DIM)) ->
  Z.of_nat (length c0) = M * N ->
  foldl (fun c b => foldl apply_write c
                      (thread_write BLOCK_DIM la M N b <$> matrix.threads BLOCK_DIM))
    c0 order
  = Some <$> transposed la M N.
Proof.
  intros Horder Hc0.
  set (h := fun b => thread_write BLOCK_DIM la M N b <$> matrix.threads BLOCK_DIM).
  transitivity (foldl apply_write c0 (concat (h <$> order))).
  { now rewrite foldl_concat, foldl_fmap. }
  assert (forall w, w ∈ concat (h <$> order) <->
            exists by_ bx ty tx, (by_, bx) ∈ order
              /\ (ty, tx) ∈ matrix.threads BLOCK_DIM
              /\ w = thread_write BLOCK_DIM la M N (by_, bx) (ty, tx)) as Hin.
  { intros w. rewrite list_elem_of_In, in_concat. split.
    - intros (l & Hl & Hw). apply list_elem_of_In, list_elem_of_fmap in Hl
        as ([by_ bx] & -> & Hb).
      apply list_elem_of_In, list_elem_of_fmap in Hw as ([ty tx] & -> & Ht).
      now exists by_, bx, ty, tx.
    - intros (by_ & bx & ty & tx & Hb & Ht & ->).
      exists (h (by_, bx)). split; apply list_elem_of_In.
      + now apply list_elem_of_fmap_2.
      + unfold h. now apply (list_elem_of_fmap_2 _ _ (ty, tx)). }
  apply list_eq. intros k.
  destruct (decide (Z.of_nat k < M * N)) as [Hk | Hk].
  - set (j := Z.of_nat k) in *.
    assert (0 < N) by nia.
    pose proof (Z.div_mod j N ltac:(lia)) as Hdm.
    pose proof (Z.mod_pos_bound j N ltac:(lia)) as Hmod.
    assert (0 <= j / N < M) as Hq by (split; [apply Z.div_pos; lia | nia]).
    rewrite (foldl_apply_write_lookup
               (fun i => la !!! Z.to_nat ((i mod N) * M + i / N))); [| | lia |].
    + rewrite list_lookup_fmap.
      change (Z.of_nat k) with j.
      replace k with (Z.to_nat j) by lia.
      now rewrite transposed_lookup by lia.
    + intros i v Hw. apply Hin in Hw as (by_ & bx & ty & tx & Hb & Ht & Hw).
      apply Horder in Hb.
      apply in_grid in Hb as [[Hby0 Hby] [Hbx0 Hbx]]; try assumption.
      apply in_threads in Ht as [Hty Htx].
      unfold thread_write in Hw. case_decide as Hg; [| discriminate].
      injection Hw as -> ->. destruct Hg as [Hgx Hgy].
      destruct (div_mod_index (by_ * BLOCK_DIM + tx) (bx * BLOCK_DIM + ty) N)
        as [Hm Hd]; [nia | nia |].
      split; [nia |]. now rewrite Hm, Hd.
    + set (y := j / N) in *. set (x := j mod N) in *.
      pose proof (Z.div_mod y BLOCK_DIM ltac:(lia)).
      pose proof (Z.mod_pos_bound y BLOCK_DIM HBD).
      pose proof (Z.div_mod x BLOCK_DIM ltac:(lia)).
      pose proof (Z.mod_pos_bound x BLOCK_DIM HBD).
      assert (0 <= y / BLOCK_DIM) by (apply Z.div_pos; lia).
      assert (0 <= x / BLOCK_DIM) by (apply Z.div_pos; lia).
      eexists. apply Hin.
      exists (x / BLOCK_DIM), (y / BLOCK_DIM), (y mod BLOCK_DIM), (x mod BLOCK_DIM).
      split; [apply Horder; apply in_grid; try assumption; nia |].
      split; [apply in_threads; lia |].
      unfold thread_write. rewrite decide_True by lia.
      f_equal. f_equal. nia.
  - rewrite !lookup_ge_None_2; try easy.
    + rewrite length_fmap. pose proof (transposed_length la M N). nia.
    + rewrite foldl_apply_write_length. lia.
Qed.

Lemma schedule_ok (order : list (Z * Z)) s cb bb (c0 : list cell) :
  (forall b, b ∈ order <->
             b ∈ matrix.grid_blocks (Z.quot (M - 1 + BLOCK_DIM) BLOCK_DIM)
                   (Z.quot (N - 1 + BLOCK_DIM) BLOCK_DIM)) ->
  mem s !! cb = Some (Some <$> la) -> cb <> bb ->
  mem s !! bb = Some c0 -> Z.of_nat (length c0) = M * N ->
  forM order (matrix.transpose_ BLOCK_DIM (Ptr cb 0) (Ptr bb 0) M N) s
  = Some (tt, set_mem (<[bb := Some <$> transposed la M N]> (mem s)) s).
Proof.
  intros Horder Hcb Hne Hbb Hc0.
  rewrite <- (schedule_writes order c0 Horder Hc0).
  rewrite <- (set_mem_id s) at 1. rewrite <- (insert_id (mem s) bb c0 Hbb) at 1.
  apply (forM_update_block _ _ _ (fun c => Z.of_nat (length c) = M * N)); [| exact Hc0].
  intros [by_ bx] c Hin Hc.
  apply Horder in Hin. apply in_grid in Hin as [Hby Hbx]; try assumption.
  split.
  - eapply (transpose_block_ok BLOCK_DIM M N); eassumption.
  - now rewrite foldl_apply_write_length.
Qed.

End TransposeSchedule.

(** X15: no block of [transpose_] depends on another: run in any order, the
    blocks of the grid leave the store [transpose] leaves, which runs
    them row by row. *)
Theorem transpose_any_block_order (BLOCK_DIM M N : Z) (s : state) (ab bb : nat)
    (la : list float) (b0 : list cell) (order : list (Z * Z)) :
  0 < BLOCK_DIM -> 0 <= M -> 0 <= N -> M * N <= INT_MAX ->
  M - 1 + BLOCK_DIM <= INT_MAX -> N - 1 + BLOCK_DIM <= INT_MAX ->
  mem s !! ab = Some (Some <$> la) -> Z.of_nat (length la) = M * N ->
  mem s !! bb = Some b0 -> Z.of_nat (length b0) = M * N -> ab <> bb ->
  Permutation order
    (matrix.grid_blocks (Z.quot (M - 1 + BLOCK_DIM) BLOCK_DIM)
       (Z.quot (N - 1 + BLOCK_DIM) BLOCK_DIM)) ->
  forM order (matrix.transpose_ BLOCK_DIM (Ptr ab 0) (Ptr bb 0) M N) s
  = matrix.transpose BLOCK_DIM (Ptr ab 0) (Ptr bb 0) M N s
  /\ matrix.transpose BLOCK_DIM (Ptr ab 0) (Ptr bb 0) M N s
     = Some (tt, set_mem (<[bb := Some <$> transposed la M N]> (mem s)) s).
Proof.
  intros HBD HM HN HMN HMB HNB Hab Hla Hbb Hb0 Hne Hperm.
  assert (matrix.transpose BLOCK_DIM (Ptr ab 0) (Ptr bb 0) M N s
          = Some (tt, set_mem (<[bb := Some <$> transposed la M N]> (mem s)) s))
    as Hrun.
  { eapply (transpose_out_of_place BLOCK_DIM M N); eassumption. }
  split; [| exact Hrun]. rewrite Hrun.
  eapply (schedule_ok BLOCK_DIM M N); try eassumption.
  intros b. now rewrite Hperm.
Qed.

Lemma transpose_any_block_order_witness :
  forM [(0, 1); (0, 0)] (matrix.transpose_ 2 (Ptr 0 0) (Ptr 1 0) 3 2) matrix_state
  = matrix.transpose 2 (Ptr 0 0) (Ptr 1 0) 3 2 matrix_state
  /\ matrix.transpose 2 (Ptr 0 0) (Ptr 1 0) 3 2 matrix_state
     = Some (tt, set_mem (<[1%nat := Some <$> transposed
                              [of_int 1; of_int 2; of_int 3;
                               of_int 4; of_int 5; of_int 6] 3 2]>
                            (mem matrix_state)) matrix_state).
Proof.
  apply (transpose_any_block_order 2 3 2 matrix_state 0%nat 1%nat
           [of_int 1; of_int 2; of_int 3; of_int 4; of_int 5; of_int 6]
           (replicate 6 None) [(0, 1); (0, 0)]).
  - lia.
  - lia.
  - lia.
  - unfold INT_MAX; lia.
  - unfold INT_MAX; lia.
  - unfold INT_MAX; lia.
  - reflexivity.
  - reflexivity.
  - reflexivity.
  - reflexivity.
  - lia.
  - apply perm_swap.
Defined.

(** ** Steps the fixed-epsilon estimator cannot see *)

Lemma shr_1_record m r s :
  0 <= m ->
  shr_1 (Build_shr_record m r s) = Build_shr_record (m / 2) (Z.odd m) (r || s).
Proof.
  intros Hm. destruct m as [|[p|p|]|p]; cbn [shr_1]; try lia; try reflexivity.
  - f_equal. apply (Z.div_unique _ _ _ 1); lia.
  - f_equal. apply (Z.div_unique _ _ _ 0); lia.
Qed.

(** After [k + 1] shifts: the quotient, the last bit shifted out and
    whether any bit shifted out before it was set. *)
Lemma iter_shr_1_record k M :
  0 <= M ->
  Nat.iter (S k) shr_1 (Build_shr_record M false false)
  = Build_shr_record (M / 2 ^ (Z.of_nat k + 1)) (Z.odd (M / 2 ^ Z.of_nat k))
      (negb (M mod 2 ^ Z.of_nat k =? 0)).
Proof.
  intros HM. induction k as [|k IH].
  - cbn [Nat.iter nat_rect]. rewrite shr_1_record by exact HM.
    change (Z.of_nat 0) with 0. rewrite Z.pow_0_r, Z.div_1_r, Z.mod_1_r.
    reflexivity.
  - rewrite Nat.iter_succ, IH.
    assert (0 < 2 ^ Z.of_nat k) as Hpow by (apply Z.pow_pos_nonneg; lia).
    rewrite shr_1_record by (apply Z.div_pos; [exact HM | apply Z.pow_pos_nonneg; lia]).
    replace (Z.of_nat (S k)) with (Z.of_nat k + 1) by lia.
    f_equal.
    + rewrite Z.div_div by lia. f_equal.
      rewrite (Z.pow_add_r 2 (Z.of_nat k + 1) 1) by lia. reflexivity.
    + rewrite (Z.pow_add_r 2 (Z.of_nat k) 1), Z.pow_1_r by lia.
      rewrite Z.rem_mul_r by lia.
      rewrite Zmod_odd.
      pose proof (Z.mod_pos_bound M (2 ^ Z.of_nat k) Hpow) as Hmod.
      destruct (Z.odd (M / 2 ^ Z.of_nat k)); cbn [orb].
      * symmetry. apply negb_true_iff, Z.eqb_neq. lia.
      * now rewrite Z.mul_0_r, Z.add_0_r.
Qed.

Lemma shr_exact_record M e n :
  0 <= M -> 0 < n ->
  shr (Build_shr_record M false false) e n
  = (Build_shr_record (M / 2 ^ n) (Z.odd (M / 2 ^ (n - 1)))
       (negb (M mod 2 ^ (n - 1) =? 0)), e + n).
Proof.
  intros HM Hn. destruct n as [|p|p]; try lia. unfold shr.
  rewrite iter_pos_nat.
  destruct (Pos.to_nat p) as [|k] eqn:Hk; [lia |].
  rewrite iter_shr_1_record by exact HM.
  replace (Z.of_nat k + 1) with (Zpos p) by lia.
  replace (Z.of_nat k) with (Zpos p - 1) by lia.
  reflexivity.
Qed.

Lemma iter_xO_value k m : Zpos (Nat.iter k xO m) = Zpos m * 2 ^ Z.of_nat k.
Proof.
  induction k as [|k IH]; [simpl; lia |].
  rewrite Nat.iter_succ, Pos2Z.inj_xO, IH, Nat2Z.inj_succ, Z.pow_succ_r by lia. lia.
Qed.

Lemma pos_iter_xO_value m p : Zpos (Pos.iter xO m p) = Zpos m * 2 ^ Zpos p.
Proof.
  rewrite Pos2Nat.inj_iter.
  change (nat_rect (fun _ => positive) m (fun _ => xO) (Pos.to_nat p))
    with (Nat.iter (Pos.to_nat p) xO m).
  rewrite iter_xO_value. now rewrite positive_nat_Z.
Qed.

Section RoundingShift.

Variables prec emax : Z.
Hypothesis Hprec : 0 < prec.

Lemma shr_fexp_exact m e k :
  bounded prec emax m e = true ->
  shr_fexp prec emax (Zpos (Nat.iter k xO m)) (e - Z.of_nat k) loc_Exact
  = (Build_shr_record (Zpos m) false false, e).
Proof.
  intros Hb. apply andb_prop in Hb as [Hcan _].
  unfold canonical_mantissa in Hcan. apply Z.eqb_eq in Hcan.
  unfold shr_fexp. cbn [Zdigits2]. rewrite digits2_iter_xO.
  replace (Zpos (digits2_pos m) + Z.of_nat k + (e - Z.of_nat k))
    with (Zpos (digits2_pos m) + e) by lia.
  rewrite Hcan.
  replace (e - (e - Z.of_nat k)) with (Z.of_nat k) by lia.
  destruct k as [|k].
  - cbn [Z.of_nat shr shr_record_of_loc Nat.iter nat_rect]. now rewrite Z.sub_0_r.
  - unfold shr. change (Z.of_nat (S k)) with (Zpos (Pos.of_succ_nat k)).
    cbv iota.
    rewrite iter_pos_nat, SuccNat2Pos.id_succ.
    cbn [shr_record_of_loc]. rewrite iter_shr_1_exact. f_equal. lia.
Qed.

(** Rounding a mantissa that has [n] bits too many: the quotient is
    rounded by the last bit shifted out and the bits before it. *)
Lemma binary_round_aux_shift s M e n k mq :
  0 < M -> 0 < n ->
  fexp prec emax (Zdigits2 M + e) - e = n ->
  round_nearest_even (M / 2 ^ n)
    (loc_of_shr_record
       (Build_shr_record (M / 2 ^ n) (Z.odd (M / 2 ^ (n - 1)))
          (negb (M mod 2 ^ (n - 1) =? 0))))
  = Zpos (Nat.iter k xO mq) ->
  bounded prec emax mq (e + n + Z.of_nat k) = true ->
  binary_round_aux prec emax s M e loc_Exact = S754_finite s mq (e + n + Z.of_nat k).
Proof.
  intros HM Hn Hshift Hround Hb.
  unfold binary_round_aux. unfold shr_fexp at 1.
  rewrite Hshift. cbn [shr_record_of_loc].
  rewrite shr_exact_record by lia.
  cbn [shr_m]. rewrite Hround.
  set (E := e + n + Z.of_nat k) in *.
  replace (e + n) with (E - Z.of_nat k) by lia.
  rewrite (shr_fexp_exact mq E k Hb).
  cbn [shr_m].
  apply andb_prop in Hb as [_ Hle]. now rewrite Hle.
Qed.

End RoundingShift.

Lemma pow2_split a b : 0 <= a -> 0 <= b -> 2 ^ (a + b) = 2 ^ a * 2 ^ b.
Proof. intros. now apply Z.pow_add_r. Qed.

(** A normal binary32 number of magnitude at least [2^8] absorbs
    [2^-17]: the sum rounds back to the number. *)
Lemma fadd_absorbs_eps s m e :
  valid32 (S754_finite s m e) -> 9 <= Zpos (digits2_pos m) + e ->
  fadd (S754_finite s m e) fit.jacobian_eps = S754_finite s m e.
Proof.
  intros Hv Hmag.
  assert (bounded prec32 emax32 m e = true) as Hb by exact Hv.
  assert (Zpos (digits2_pos m) = 24 /\ -15 <= e <= 104) as [Hd He].
  { apply andb_prop in Hv as [Hcan Hle].
    apply Z.eqb_eq in Hcan. apply Z.leb_le in Hle.
    unfold fexp, emin, prec32, emax32 in *. lia. }
  pose proof (Zdigits2_bounds (Zpos m) ltac:(lia)) as Hm.
  cbn [Zdigits2] in Hm. rewrite Hd in Hm.
  change (2 ^ (24 - 1)) with 8388608 in Hm. change (2 ^ 24) with 16777216 in Hm.
  rewrite jacobian_eps_pow2. unfold float_pow2.
  change (-17 - 23) with (-40).
  unfold fadd, SFadd. rewrite Z.min_r by lia.
  change (fst (shl_align 8388608 (-40) (-40))) with 8388608%positive.
  unfold shl_align at 1.
  destruct (-40 - e) as [|d|d] eqn:Hde; try lia.
  cbn [fst].
  set (n := Zpos d) in *.
  assert (n = e + 40) as Hn by lia.
  assert (25 <= n) as Hn25 by lia.
  pose proof (pos_iter_xO_value m d) as HX. fold n in HX.
  set (X := Pos.iter xO m d) in *.
  assert (2 ^ n = 2 ^ (n - 25) * 2 ^ 25) as Hpn
    by (rewrite <- pow2_split by lia; f_equal; lia).
  assert (2 ^ (n - 1) = 2 ^ (n - 25) * 2 ^ 24) as Hpn1
    by (rewrite <- pow2_split by lia; f_equal; lia).
  assert (2 ^ (n - 2) = 2 ^ (n - 25) * 2 ^ 23) as Hpn2
    by (rewrite <- pow2_split by lia; f_equal; lia).
  change (2 ^ 25) with 33554432 in Hpn. change (2 ^ 24) with 16777216 in Hpn1.
  change (2 ^ 23) with 8388608 in Hpn2.
  assert (1 <= 2 ^ (n - 25)) as Hp1
    by (pose proof (Z.pow_pos_nonneg 2 (n - 25)); lia).
  set (P := 2 ^ (n - 25)) in *.
  assert (2 ^ (24 + n - 1) = 8388608 * 2 ^ n /\ 2 ^ (24 + n) = 16777216 * 2 ^ n
          /\ 2 ^ (23 + n - 1) = 4194304 * 2 ^ n /\ 2 ^ (23 + n) = 8388608 * 2 ^ n)
    as (Hp23 & Hp24 & Hp22 & Hp23').
  { replace (24 + n - 1) with (23 + n) by lia.
    replace (23 + n - 1) with (22 + n) by lia.
    rewrite !pow2_split by lia. repeat split; reflexivity. }
  assert (bounded prec32 emax32 m (-40 + n + Z.of_nat 0) = true) as Hb0
    by (replace (-40 + n + Z.of_nat 0) with e by lia; exact Hb).
  assert (forall Y : positive,
            Zdigits2 (Zpos Y) = 24 + n ->
            shl_align Y (-40)
              (fexp prec32 emax32 (Zpos (digits2_pos Y) + -40)) = (Y, -40)) as Hkeep.
  { intros Y HY. cbn [Zdigits2] in HY. rewrite HY.
    unfold shl_align, fexp, emin, prec32, emax32.
    destruct (Z.max (24 + n + -40 - 24) (3 - 128 - 24) - -40) eqn:Hs; try lia;
      reflexivity. }
  destruct s; cbn [cond_Zopp].
  - (* a negative number: the magnitude shrinks by [2^-17] *)
    destruct (- Zpos X + 8388608) as [|y|y] eqn:Hsum; try lia.
    assert (Zpos y = Zpos X - 8388608) as Hy by lia.
    unfold binary_normalize, binary_round.
    destruct (Z.eq_dec (Zpos m) 8388608) as [Hpow | Hnot].
    + (* the mantissa is [2^23]: one digit is lost *)
      assert (Zdigits2 (Zpos y) = 23 + n) as Hdy
        by (apply Zdigits2_unique; lia).
      assert (shl_align y (-40)
                (fexp prec32 emax32 (Zpos (digits2_pos y) + -40)) = (y, -40)) as ->.
      { cbn [Zdigits2] in Hdy. rewrite Hdy.
        unfold shl_align, fexp, emin, prec32, emax32.
        destruct (Z.max (23 + n + -40 - 24) (3 - 128 - 24) - -40) eqn:Hs; try lia;
          reflexivity. }
      assert (bounded prec32 emax32 m (-40 + (n - 1) + Z.of_nat 1) = true) as Hb1
        by (replace (-40 + (n - 1) + Z.of_nat 1) with e by lia; exact Hb).
      rewrite (binary_round_aux_shift prec32 emax32 true (Zpos y) (-40) (n - 1) 1 m).
      * f_equal. lia.
      * lia.
      * lia.
      * rewrite Hdy. unfold fexp, emin, prec32, emax32. lia.
      * replace (n - 1 - 1) with (n - 2) by lia.
        assert (Zpos y / 2 ^ (n - 1) = 16777215) as ->
          by (symmetry; apply (Z.div_unique_pos _ _ _ (2 ^ (n - 1) - 8388608)); lia).
        assert (Zpos y / 2 ^ (n - 2) = 33554431) as ->
          by (symmetry; apply (Z.div_unique_pos _ _ _ (2 ^ (n - 2) - 8388608)); lia).
        replace m with 8388608%positive by lia.
        change (Z.odd 33554431) with true.
        destruct (negb (Zpos y mod 2 ^ (n - 2) =? 0)); reflexivity.
      * exact Hb1.
    + (* a larger mantissa *)
      assert (Zdigits2 (Zpos y) = 24 + n) as Hdy
        by (apply Zdigits2_unique; nia).
      rewrite (Hkeep y Hdy).
      rewrite (binary_round_aux_shift prec32 emax32 true (Zpos y) (-40) n 0 m).
      * f_equal. lia.
      * lia.
      * lia.
      * rewrite Hdy. unfold fexp, emin, prec32, emax32. lia.
      * assert (Zpos y / 2 ^ n = Zpos m - 1) as ->
          by (symmetry; apply (Z.div_unique_pos _ _ _ (2 ^ n - 8388608)); nia).
        assert (Zpos y / 2 ^ (n - 1) = 1 + 2 * (Zpos m - 1)) as ->
          by (symmetry; apply (Z.div_unique_pos _ _ _ (2 ^ (n - 1) - 8388608)); nia).
        assert (Zpos y mod 2 ^ (n - 1) = 2 ^ (n - 1) - 8388608) as ->
          by (symmetry;
              apply (Z.mod_unique_pos _ _ (1 + 2 * (Zpos m - 1))); nia).
        rewrite Z.odd_add_mul_2. change (Z.odd 1) with true.
        assert ((2 ^ (n - 1) - 8388608 =? 0) = false) as -> by (apply Z.eqb_neq; lia).
        cbn [negb loc_of_shr_record round_nearest_even Nat.iter nat_rect]. lia.
      * exact Hb0.
  - (* a positive number: the magnitude grows by [2^-17] *)
    change (Zpos X + 8388608) with (Zpos (X + 8388608)).
    assert (Zpos (X + 8388608) = Zpos X + 8388608) as Hy by lia.
    set (y := (X + 8388608)%positive) in *.
    unfold binary_normalize, binary_round.
    assert (Zdigits2 (Zpos y) = 24 + n) as Hdy
      by (apply Zdigits2_unique; nia).
    rewrite (Hkeep y Hdy).
    rewrite (binary_round_aux_shift prec32 emax32 false (Zpos y) (-40) n 0 m).
    + f_equal. lia.
    + lia.
    + lia.
    + rewrite Hdy. unfold fexp, emin, prec32, emax32. lia.
    + assert (Zpos y / 2 ^ n = Zpos m) as ->
        by (symmetry; apply (Z.div_unique_pos _ _ _ 8388608); nia).
      assert (Zpos y / 2 ^ (n - 1) = 0 + 2 * Zpos m) as ->
        by (symmetry; apply (Z.div_unique_pos _ _ _ 8388608); nia).
      assert (Zpos y mod 2 ^ (n - 1) = 8388608) as ->
        by (symmetry; apply (Z.mod_unique_pos _ _ (0 + 2 * Zpos m)); nia).
      rewrite Z.odd_add_mul_2.
      reflexivity.
    + exact Hb0.
Qed.

Lemma fsub_diag (x : float) :
  is_nan x = false -> is_inf x = false -> fsub x x = fzero.
Proof.
  destruct x as [s | s | | s m e]; try discriminate; intros _ _.
  - now destruct s.
  - unfold fsub, SFsub, shl_align.
    rewrite Z.min_id, !Z.sub_diag. reflexivity.
Qed.

Lemma scaled_columns (g : float -> float) (col : Z -> list float) K :
  g <$> columns col K = columns (fun k => g <$> col k) K.
Proof.
  unfold columns. generalize (seqZ 0 K) as l.
  induction l as [|a l IH]; [reflexivity |].
  cbn [fmap list_fmap concat]. rewrite fmap_app. now f_equal.
Qed.

(** X16: [jacobian] cannot see a step on a parameter of magnitude [2^8] or
    more: [param[i] + eps] rounds back to [param[i]], the probe of
    parameter [i] evaluates the model on the parameters of the baseline,
    and column [i] of [J] is the difference of the baseline with itself
    times [2^17], zero wherever the model output is finite, whatever the
    model. *)
Theorem jacobian_blind_to_large_parameter
    (f : fit.evaluator) (model : list float -> Z -> float) (N K : Z)
    (s0 : state) (jb pb : nat) (ps : list float) (jold : list cell)
    (i : Z) (s : bool) (m : positive) (e : Z) :
  implements f K N model -> 0 <= N -> N * K <= INT_MAX ->
  mem s0 !! pb = Some (Some <$> ps) -> Z.of_nat (length ps) = K ->
  mem s0 !! jb = Some jold -> Z.of_nat (length jold) = N * K -> jb <> pb ->
  0 <= i < K -> ps !! Z.to_nat i = Some (S754_finite s m e) ->
  valid32 (S754_finite s m e) -> 9 <= Zpos (digits2_pos m) + e ->
  fadd (S754_finite s m e) fit.jacobian_eps = S754_finite s m e
  /\ exists s' : state,
       fit.jacobian (Ptr jb 0) f (Ptr pb 0) N K s0 = Some (tt, s')
       /\ calls s' !! (length (calls s0) + 1 + Z.to_nat i)%nat = Some (Some <$> ps)
       /\ (forall j, 0 <= j < N ->
             peek (mem s') (Ptr jb 0) (i * N + j)
             = Some (fmul (fsub (model ps j) (model ps j)) jacobian_factor))
       /\ (forall j, 0 <= j < N ->
             is_nan (model ps j) = false -> is_inf (model ps j) = false ->
             peek (mem s') (Ptr jb 0) (i * N + j) = Some fzero).
Proof.
  intros Hf HN HNK Hps HK HJ HJlen Hne Hi Hp Hv Hmag.
  pose proof (fadd_absorbs_eps s m e Hv Hmag) as Habs.
  split; [exact Habs |].
  assert (perturb ps i fit.jacobian_eps = ps) as Hsame.
  { rewrite (perturb_Some ps i _ _ Hp), Habs. now apply list_insert_id. }
  assert (forall j, 0 <= j < N ->
            peek (<[jb := Some <$> ((fun x => fmul x jacobian_factor)
                     <$> columns (difference_column model ps N fit.jacobian_eps) K)]>
                    (mem s0)) (Ptr jb 0) (i * N + j)
            = Some (fmul (fsub (model ps j) (model ps j)) jacobian_factor)) as Hcell.
  { intros j Hj. rewrite scaled_columns.
    apply (peek_columns _ jb
             (fun k => (fun x => fmul x jacobian_factor)
                         <$> difference_column model ps N fit.jacobian_eps k)
             N K i j).
    - now rewrite lookup_insert_eq.
    - exact HN.
    - intros k _. rewrite length_fmap. now apply difference_column_length.
    - exact Hi.
    - exact Hj.
    - rewrite list_lookup_fmap, difference_column_lookup by exact Hj.
      now rewrite Hsame. }
  eexists. split; [now apply (jacobian_run f model N K s0 jb pb ps jold) |].
  norm_state. split; [| split].
  - rewrite <- Nat.add_assoc, lookup_app_r by lia.
    replace (length (calls s0) + (1 + Z.to_nat i) - length (calls s0))%nat
      with (S (Z.to_nat i)) by lia.
    simpl. rewrite list_lookup_fmap, lookup_seqZ_lt by lia. simpl.
    replace (0 + Z.of_nat (Z.to_nat i)) with i by lia. now rewrite Hsame.
  - exact Hcell.
  - intros j Hj Hnan Hinf. rewrite (Hcell j Hj), fsub_diag by assumption.
    rewrite jacobian_factor_pow2. reflexivity.
Qed.

Lemma jacobian_blind_to_large_parameter_witness :
  let ps := [of_int 300; of_int 3] in
  fadd (S754_finite false 9830400 (-15)) fit.jacobian_eps
  = S754_finite false 9830400 (-15)
  /\ exists s' : state,
       fit.jacobian (Ptr 1 0) (fit.flinear 4) (Ptr 0 0) 5 2 steep_state = Some (tt, s')
       /\ calls s' !! (length (calls steep_state) + 1 + Z.to_nat 0)%nat
          = Some (Some <$> ps)
       /\ (forall j, 0 <= j < 5 ->
             peek (mem s') (Ptr 1 0) (0 * 5 + j)
             = Some (fmul (fsub (flinear_model ps j) (flinear_model ps j))
                       jacobian_factor))
       /\ (forall j, 0 <= j < 5 ->
             is_nan (flinear_model ps j) = false ->
             is_inf (flinear_model ps j) = false ->
             peek (mem s') (Ptr 1 0) (0 * 5 + j) = Some fzero).
Proof.
  apply (jacobian_blind_to_large_parameter (fit.flinear 4) flinear_model 5 2
           steep_state 1%nat 0%nat [of_int 300; of_int 3] (replicate 10 None)
           0 false 9830400 (-15)).
  - apply flinear_implements; unfold INT_MAX; lia.
  - lia.
  - unfold INT_MAX; lia.
  - reflexivity.
  - reflexivity.
  - reflexivity.
  - reflexivity.
  - lia.
  - lia.
  - reflexivity.
  - reflexivity.
  - simpl; lia.
Defined.

(** X17: the scaling pass of [jacobian] multiplies by [float(1./eps) = 2^17]
    and so rounds nothing away: a normal binary32 number below [2^111]
    keeps its mantissa and has 17 added to its exponent. *)
Theorem jacobian_scaling_exact (s : bool) (m : positive) (e : Z) :
  valid32 (S754_finite s m e) -> Zpos (digits2_pos m) = prec32 -> e <= 87 ->
  fmul (S754_finite s m e) jacobian_factor = S754_finite s m (e + 17).
Proof.
  intros Hv Hd He.
  assert (-149 <= e) as Hlo by (apply valid32_bounds in Hv; lia).
  rewrite jacobian_factor_pow2. unfold float_pow2. change (17 - 23) with (-6).
  unfold fmul, SFmul. rewrite xorb_false_r, Pos.mul_comm.
  change (8388608 * m)%positive with (Nat.iter 23 xO m).
  replace (e + -6) with (e + 17 - Z.of_nat 23) by lia.
  apply binary_round_aux_exact.
  unfold bounded, canonical_mantissa, fexp, emin. rewrite Hd.
  unfold prec32, emax32. apply andb_true_intro. split.
  - apply Z.eqb_eq. lia.
  - apply Z.leb_le. lia.
Qed.

Lemma jacobian_scaling_exact_witness :
  fmul (S754_finite false 12582912 (-22)) jacobian_factor
  = S754_finite false 12582912 (-22 + 17).
Proof.
  apply (jacobian_scaling_exact false 12582912 (-22)).
  - reflexivity.
  - reflexivity.
  - lia.
Defined.

(** The rounded number is not below the number rounded by more than one
    unit of its last place. *)
Lemma binary_round_aux_below prec emax s M e l :
  0 < M ->
  match binary_round_aux prec emax s M e l with
  | S754_finite _ m' e' => e <= e' /\ M < (Zpos m' + 1) * 2 ^ (e' - e)
  | _ => True
  end.
Proof.
  intros HM. unfold binary_round_aux, shr_fexp.
  set (n1 := fexp prec emax (Zdigits2 M + e) - e).
  destruct (shr_spec (shr_record_of_loc M l) e n1) as [Hq He1].
  { rewrite shr_record_of_loc_m. lia. }
  rewrite shr_record_of_loc_m in Hq.
  destruct (shr (shr_record_of_loc M l) e n1) as [mrs1 e1].
  cbn [fst snd] in Hq, He1.
  set (r := round_nearest_even (shr_m mrs1) (loc_of_shr_record mrs1)).
  pose proof (round_nearest_even_bounds (shr_m mrs1) (loc_of_shr_record mrs1)) as Hr.
  fold r in Hr.
  set (a := Z.max 0 n1) in *.
  assert (0 < 2 ^ a) as Hpa by (apply Z.pow_pos_nonneg; lia).
  assert (0 <= shr_m mrs1) as Hq0 by (rewrite Hq; apply Z.div_pos; lia).
  set (n2 := fexp prec emax (Zdigits2 r + e1) - e1).
  destruct (shr_spec (shr_record_of_loc r loc_Exact) e1 n2) as [Hm2 He2].
  { rewrite shr_record_of_loc_m. lia. }
  rewrite shr_record_of_loc_m in Hm2.
  destruct (shr (shr_record_of_loc r loc_Exact) e1 n2) as [mrs2 e2].
  cbn [fst snd] in Hm2, He2.
  set (b := Z.max 0 n2) in *.
  assert (0 < 2 ^ b) as Hpb by (apply Z.pow_pos_nonneg; lia).
  destruct (shr_m mrs2) as [|m'|m'] eqn:Hmrs2; [exact I | | exact I].
  destruct (e2 <=? emax - prec); [| exact I].
  split; [lia |].
  replace (e2 - e) with (a + b) by lia.
  rewrite Z.pow_add_r by lia.
  pose proof (Z.div_mod M (2 ^ a) ltac:(lia)) as Hdm1.
  pose proof (Z.mod_pos_bound M (2 ^ a) Hpa) as Hmod1.
  pose proof (Z.div_mod r (2 ^ b) ltac:(lia)) as Hdm2.
  pose proof (Z.mod_pos_bound r (2 ^ b) Hpb) as Hmod2.
  rewrite <- Hq in Hdm1. rewrite <- Hm2 in Hdm2.
  nia.
Qed.

(** The step of the adaptive estimator for a normal parameter that is
    not clamped, and the parameter moved by it. *)
Lemma adaptive_step s m e :
  valid32 (S754_finite s m e) -> Zpos (digits2_pos m) = 24 -> -115 <= e ->
  fit.perturbation (S754_finite s m e) = S754_finite s m (e - 10)
  /\ fadd (S754_finite s m e) (fit.perturbation (S754_finite s m e))
     <> S754_finite s m e.
Proof.
  intros Hv Hd He.
  assert (e <= 104) as Hhi.
  { apply andb_prop in Hv as [_ Hle]. apply Z.leb_le in Hle.
    unfold prec32, emax32 in Hle. lia. }
  assert (fmul (S754_finite s m e) fit.jacobian_v2_eps = S754_finite s m (e - 10))
    as Hmul.
  { rewrite jacobian_v2_eps_value. unfold fmul, SFmul.
    rewrite xorb_false_r, Pos.mul_comm.
    change (8388608 * m)%positive with (Nat.iter 23 xO m).
    replace (e + -33) with (e - 10 - Z.of_nat 23) by lia.
    apply binary_round_aux_exact.
    unfold bounded, canonical_mantissa, fexp, emin. rewrite Hd.
    unfold prec32, emax32. apply andb_true_intro. split.
    - apply Z.eqb_eq. lia.
    - apply Z.leb_le. lia. }
  assert (fit.perturbation (S754_finite s m e) = S754_finite s m (e - 10)) as Hstep.
  { unfold fit.perturbation. cbv zeta. rewrite Hmul.
    destruct (fit.too_small (S754_finite s m (e - 10))) eqn:Hsmall; [| reflexivity].
    apply too_small_finite in Hsmall; lia. }
  split; [exact Hstep |].
  rewrite Hstep. unfold fadd, SFadd.
  rewrite Z.min_r by lia.
  unfold shl_align.
  replace (e - 10 - e) with (-10) by lia. rewrite Z.sub_diag. cbn [fst].
  pose proof (pos_iter_xO_value m 10) as HX.
  change (2 ^ Zpos 10) with 1024 in HX.
  set (X := Pos.iter xO m 10) in *.
  pose proof (Zdigits2_bounds (Zpos m) ltac:(lia)) as Hm.
  cbn [Zdigits2] in Hm. rewrite Hd in Hm.
  change (2 ^ (24 - 1)) with 8388608 in Hm. change (2 ^ 24) with 16777216 in Hm.
  assert (cond_Zopp s (Zpos X) + cond_Zopp s (Zpos m)
          = cond_Zopp s (Zpos (X + m))) as -> by (destruct s; reflexivity).
  assert (binary_normalize prec32 emax32 (cond_Zopp s (Zpos (X + m))) (e - 10) false
          = binary_round prec32 emax32 s (X + m) (e - 10)) as ->
    by (destruct s; reflexivity).
  unfold binary_round.
  assert (24 <= Zpos (digits2_pos (X + m))) as Hdig.
  { change (Zpos (digits2_pos (X + m))) with (Zdigits2 (Zpos (X + m))).
    rewrite <- Hd. change (Zpos (digits2_pos m)) with (Zdigits2 (Zpos m)).
    apply Zdigits2_le. lia. }
  assert (shl_align (X + m) (e - 10)
            (fexp prec32 emax32 (Zpos (digits2_pos (X + m)) + (e - 10)))
          = ((X + m)%positive, e - 10)) as ->.
  { unfold shl_align, fexp, emin, prec32, emax32.
    destruct (Z.max (Zpos (digits2_pos (X + m)) + (e - 10) - 24) (3 - 128 - 24)
              - (e - 10)) eqn:Hs; try lia; reflexivity. }
  pose proof (binary_round_aux_below prec32 emax32 s (Zpos (X + m)) (e - 10)
                loc_Exact ltac:(lia)) as Hbelow.
  intros Heq. rewrite Heq in Hbelow. destruct Hbelow as [_ Hbelow].
  replace (e - (e - 10)) with 10 in Hbelow by lia.
  change (2 ^ 10) with 1024 in Hbelow. lia.
Qed.

(** X18: [jacobian_v2] moves a normal parameter of magnitude [2^-92] or more
    by [param[i] * 2^-10] exactly, and the parameter moved is another
    number: the probe of parameter [i] evaluates the model on parameters
    that differ from the baseline in coordinate [i], however large the
    parameter is. *)
Theorem jacobian_v2_step_visible
    (f : fit.evaluator) (model : list float -> Z -> float) (N K : Z)
    (s0 : state) (jb pb : nat) (ps : list float) (jold : list cell)
    (i : Z) (s : bool) (m : positive) (e : Z) :
  implements f K N model -> 0 <= N -> N * K <= INT_MAX ->
  mem s0 !! pb = Some (Some <$> ps) -> Z.of_nat (length ps) = K ->
  mem s0 !! jb = Some jold -> Z.of_nat (length jold) = N * K -> jb <> pb ->
  0 <= i < K -> ps !! Z.to_nat i = Some (S754_finite s m e) ->
  valid32 (S754_finite s m e) -> Zpos (digits2_pos m) = prec32 -> -115 <= e ->
  fit.perturbation (S754_finite s m e) = S754_finite s m (e - 10)
  /\ exists (s' : state) (moved : float),
       fit.jacobian_v2 (Ptr jb 0) f (Ptr pb 0) N K s0 = Some (tt, s')
       /\ moved = fadd (S754_finite s m e) (S754_finite s m (e - 10))
       /\ moved <> S754_finite s m e
       /\ calls s' !! (length (calls s0) + 1 + Z.to_nat i)%nat
          = Some (Some <$> <[Z.to_nat i := moved]> ps)
       /\ <[Z.to_nat i := moved]> ps <> ps.
Proof.
  intros Hf HN HNK Hps HK HJ HJlen Hne Hi Hp Hv Hd He.
  destruct (adaptive_step s m e Hv Hd He) as [Hstep Hmoved].
  split; [exact Hstep |].
  rewrite Hstep in Hmoved.
  eexists. exists (fadd (S754_finite s m e) (S754_finite s m (e - 10))).
  split; [now apply (jacobian_v2_run f model N K s0 jb pb ps jold) |].
  split; [reflexivity |]. split; [exact Hmoved |]. norm_state. split.
  - rewrite <- Nat.add_assoc, lookup_app_r by lia.
    replace (length (calls s0) + (1 + Z.to_nat i) - length (calls s0))%nat
      with (S (Z.to_nat i)) by lia.
    simpl. rewrite list_lookup_fmap, lookup_seqZ_lt by lia. simpl.
    replace (0 + Z.of_nat (Z.to_nat i)) with i by lia.
    rewrite (list_lookup_total_correct _ _ _ Hp), Hstep.
    now rewrite (perturb_Some ps i _ _ Hp).
  - intros Heq.
    assert (<[Z.to_nat i := fadd (S754_finite s m e) (S754_finite s m (e - 10))]> ps
              !! Z.to_nat i = Some (S754_finite s m e)) as Hl
      by (rewrite Heq; exact Hp).
    rewrite list_lookup_insert_eq in Hl by (apply lookup_lt_is_Some_1; eauto).
    congruence.
Qed.

Lemma jacobian_v2_step_visible_witness :
  let ps := [of_int 300; of_int 3] in
  fit.perturbation (S754_finite false 9830400 (-15))
  = S754_finite false 9830400 (-15 - 10)
  /\ exists (s' : state) (moved : float),
       fit.jacobian_v2 (Ptr 1 0) (fit.flinear 4) (Ptr 0 0) 5 2 steep_state
       = Some (tt, s')
       /\ moved = fadd (S754_finite false 9830400 (-15))
                    (S754_finite false 9830400 (-15 - 10))
       /\ moved <> S754_finite false 9830400 (-15)
       /\ calls s' !! (length (calls steep_state) + 1 + Z.to_nat 0)%nat
          = Some (Some <$> <[Z.to_nat 0 := moved]> ps)
       /\ <[Z.to_nat 0 := moved]> ps <> ps.
Proof.
  apply (jacobian_v2_step_visible (fit.flinear 4) flinear_model 5 2
           steep_state 1%nat 0%nat [of_int 300; of_int 3] (replicate 10 None)
           0 false 9830400 (-15)).
  - apply flinear_implements; unfold INT_MAX; lia.
  - lia.
  - unfold INT_MAX; lia.
  - reflexivity.
  - reflexivity.
  - reflexivity.
  - reflexivity.
  - lia.
  - lia.
  - reflexivity.
  - reflexivity.
  - reflexivity.
  - lia.
Defined.
